(** * The translation gateway of XUnity-Moil-LLMTranslateGUI-C++

    A shallow embedding of [TranslationServer.cpp] and [ConfigManager.h]:
    the placeholder codec ([freezeEscapesLocal] / [thawEscapesLocal]), the
    key rotator ([updateConfig] / [getNextApiKey]), the per-client context
    store, the response reconstructor, a single translation attempt and the
    retry loop around it, followed by the properties established for them.

    Conventions of the embedding:
    - a [QString] is the list of its UTF-16 code units, each a [Z];
    - the C++ [int] is a [Z] whose arithmetic wraps at 32 bits
      ([wrap_int]); [size_t] is 64 bits wide ([to_size_t]);
    - Qt's regular expressions are given by a backtracking matcher for the
      fragment of the pattern language the program uses;
    - the object's fields live in a record [Server]; what the other threads
      and the network do is read from an environment [Env]. *)

From Stdlib Require Import ZArith Floats DecimalString DecimalZ DecimalFacts.
From stdpp Require Import base numbers list option gmap strings.

Local Open Scope Z_scope.

(* ================================================================= *)
(** * Part I: the embedding                                           *)
(* ================================================================= *)

(* ----------------------------------------------------------------- *)
(** ** Strings                                                        *)
(* ----------------------------------------------------------------- *)

Abbreviation QChar := Z (only parsing).
Abbreviation QString := (list Z) (only parsing).

(** An ASCII literal of the source as a list of code units. *)
Definition qs (s : string) : QString :=
  (λ a, Z.of_nat (Ascii.nat_of_ascii a)) <$> String.list_ascii_of_string s.

(** [QChar::isSpace]: the characters 9 to 13, the space, U+0085, U+00A0 and
    the separators of the categories Zs, Zl and Zp. *)
Definition isSpace (c : QChar) : bool :=
  (c =? 32) || ((9 <=? c) && (c <=? 13)) || (c =? 0x85) || (c =? 0xA0)
  || (c =? 0x1680) || ((0x2000 <=? c) && (c <=? 0x200A))
  || (c =? 0x2028) || (c =? 0x2029) || (c =? 0x202F) || (c =? 0x205F)
  || (c =? 0x3000).

Fixpoint dropWhile (p : QChar → bool) (s : QString) : QString :=
  match s with
  | c :: s' => if p c then dropWhile p s' else s
  | [] => []
  end.

(** [QString::trimmed]: white space removed from both ends. *)
Definition trimmed (s : QString) : QString :=
  reverse (dropWhile isSpace (reverse (dropWhile isSpace s))).

(** [QString::mid(position, n)] and [QString::mid(position)]. *)
Definition mid (s : QString) (position n : nat) : QString :=
  take n (drop position s).
Definition mid_end (s : QString) (position : nat) : QString :=
  drop position s.

Definition isEmpty (s : QString) : bool :=
  match s with [] => true | _ => false end.

(** [QString::split(sep)] keeps the empty parts; with [Qt::SkipEmptyParts]
    they are left out of the result. *)
Fixpoint split (sep : QChar) (s : QString) : list QString :=
  match s with
  | [] => [[]]
  | c :: s' =>
      if c =? sep then [] :: split sep s'
      else match split sep s' with
           | p :: ps => (c :: p) :: ps
           | [] => [[c]]
           end
  end.

Definition split_SkipEmptyParts (sep : QChar) (s : QString) : list QString :=
  List.filter (λ p, negb (isEmpty p)) (split sep s).

(** Case folding of one code unit ([QChar::toCaseFolded]).  The table is
    Qt's; the program relies on it through [Qt::CaseInsensitive].  What is
    fixed here is its action on the Basic Latin block. *)
Class CaseFolding := {
  toCaseFolded : QChar → QChar;
  toCaseFolded_upper : ∀ c, 65 ≤ c ≤ 90 → toCaseFolded c = c + 32;
  toCaseFolded_ascii : ∀ c, 0 ≤ c < 128 → ¬ (65 ≤ c ≤ 90) → toCaseFolded c = c
}.

(** The folding that only lowers the letters A to Z. *)
Definition asciiFold (c : QChar) : QChar :=
  if (65 <=? c) && (c <=? 90) then c + 32 else c.

Lemma asciiFold_upper c : 65 ≤ c ≤ 90 → asciiFold c = c + 32.
Proof.
  intros Hc. unfold asciiFold.
  destruct (Z.leb_spec 65 c), (Z.leb_spec c 90); simpl; lia.
Qed.

Lemma asciiFold_ascii c : 0 ≤ c < 128 → ¬ (65 ≤ c ≤ 90) → asciiFold c = c.
Proof.
  intros _ Hc. unfold asciiFold.
  destruct (Z.leb_spec 65 c), (Z.leb_spec c 90); simpl; lia.
Qed.

Definition asciiFolding : CaseFolding :=
  {| toCaseFolded := asciiFold;
     toCaseFolded_upper := asciiFold_upper;
     toCaseFolded_ascii := asciiFold_ascii |}.

Section CaseInsensitive.
Context `{CaseFolding}.

Definition eq_ci (a b : QChar) : bool := toCaseFolded a =? toCaseFolded b.

(** [QString::startsWith(needle, cs)], with [cmp] comparing two code units. *)
Fixpoint startsWith (cmp : QChar → QChar → bool) (needle s : QString) : bool :=
  match needle, s with
  | [], _ => true
  | a :: needle', b :: s' => cmp a b && startsWith cmp needle' s'
  | _ :: _, [] => false
  end.

(** [QString::contains(needle, cs)]. *)
Fixpoint contains (cmp : QChar → QChar → bool) (needle s : QString) : bool :=
  startsWith cmp needle s
  || match s with
     | [] => false
     | _ :: s' => contains cmp needle s'
     end.

(** [QString::remove(needle, cs)]: every occurrence met by a scan from the
    left is taken out; [skip] counts the code units of the occurrence
    still to be dropped.  An empty needle removes nothing. *)
Fixpoint remove_scan (cmp : QChar → QChar → bool) (needle : QString)
    (skip : nat) (s : QString) : QString :=
  match s with
  | [] => []
  | c :: s' =>
      match skip with
      | S k => remove_scan cmp needle k s'
      | O =>
          if startsWith cmp needle s
          then remove_scan cmp needle (length needle - 1) s'
          else c :: remove_scan cmp needle 0 s'
      end
  end.

Definition remove (cmp : QChar → QChar → bool) (needle s : QString) : QString :=
  if isEmpty needle then s else remove_scan cmp needle 0 s.
End CaseInsensitive.

(** [Qt::CaseSensitive] compares code units. *)
Definition eq_cs (a b : QChar) : bool := a =? b.

(* ----------------------------------------------------------------- *)
(** ** Regular expressions                                            *)
(* ----------------------------------------------------------------- *)

(** The character classes of the program's patterns.  Without
    [DotMatchesEverythingOption] the dot stops at a line feed; [\s] and
    [\d] are the ASCII classes (no [UseUnicodePropertiesOption]). *)
Inductive cclass :=
| CDot (dotMatchesEverything : bool)   (* .      *)
| CNot (c : QChar)                     (* [^c]   *)
| CSpace                               (* \s     *)
| CDigit                               (* \d     *)
| CRange (lo hi : QChar).              (* [lo-hi] *)

Definition cclass_mem (k : cclass) (c : QChar) : bool :=
  match k with
  | CDot all => all || negb (c =? 10)
  | CNot x => negb (c =? x)
  | CSpace => (c =? 32) || ((9 <=? c) && (c <=? 13))
  | CDigit => (48 <=? c) && (c <=? 57)
  | CRange lo hi => (lo <=? c) && (c <=? hi)
  end.

(** Patterns: literals, one character of a class, sequence, ordered
    alternative, greedy or lazy repetition of a class, capturing group. *)
Inductive regex :=
| RLit (s : QString)
| RCls (k : cclass)
| RSeq (r1 r2 : regex)
| RAlt (r1 r2 : regex)
| RStar (greedy : bool) (k : cclass)
| RGroup (n : nat) (r : regex).

Definition RPlus (greedy : bool) (k : cclass) : regex :=
  RSeq (RCls k) (RStar greedy k).

Fixpoint strip_prefix (lit s : QString) : option QString :=
  match lit, s with
  | [], _ => Some s
  | a :: lit', b :: s' => if a =? b then strip_prefix lit' s' else None
  | _ :: _, [] => None
  end.

Section Backtracking.
Context {A : Type}.

(** [k*] followed by the continuation [cont]: the longest run first. *)
Fixpoint star_greedy (p : QChar → bool) (s : QString)
    (cont : QString → option A) : option A :=
  match s with
  | c :: s' =>
      if p c then
        match star_greedy p s' cont with
        | Some r => Some r
        | None => cont s
        end
      else cont s
  | [] => cont s
  end.

(** [k*?] followed by [cont]: the shortest run first. *)
Fixpoint star_lazy (p : QChar → bool) (s : QString)
    (cont : QString → option A) : option A :=
  match cont s with
  | Some r => Some r
  | None =>
      match s with
      | c :: s' => if p c then star_lazy p s' cont else None
      | [] => None
      end
  end.
End Backtracking.

(** The state of a match in progress: the text still to be read and the
    groups captured so far. *)
Abbreviation Captures := (gmap nat (list Z)) (only parsing).

(** [exec r s caps cont] matches [r] at the head of [s] and hands the rest
    to [cont], going back to the next choice of [r] when [cont] fails. *)
Fixpoint exec (r : regex) (s : QString) (caps : Captures)
    (cont : QString → Captures → option (QString * Captures))
    : option (QString * Captures) :=
  match r with
  | RLit lit =>
      match strip_prefix lit s with
      | Some s' => cont s' caps
      | None => None
      end
  | RCls k =>
      match s with
      | c :: s' => if cclass_mem k c then cont s' caps else None
      | [] => None
      end
  | RSeq r1 r2 => exec r1 s caps (λ s' caps', exec r2 s' caps' cont)
  | RAlt r1 r2 =>
      match exec r1 s caps cont with
      | Some x => Some x
      | None => exec r2 s caps cont
      end
  | RStar true k => star_greedy (cclass_mem k) s (λ s', cont s' caps)
  | RStar false k => star_lazy (cclass_mem k) s (λ s', cont s' caps)
  | RGroup n r1 =>
      exec r1 s caps
        (λ s' caps', cont s' (<[n := take (length s - length s') s]> caps'))
  end.

(** [QRegularExpressionMatch]: where the match starts and ends in the
    subject, and the captured texts (group 0 is the whole match). *)
Record QRegularExpressionMatch := {
  capturedStart : nat;
  capturedEnd : nat;
  capturedTexts : gmap nat (list Z)
}.

Definition captured (m : QRegularExpressionMatch) (n : nat) : QString :=
  default [] (capturedTexts m !! n).

(** The match of [r] at the head of [s], the subject's position [off]. *)
Definition match_here (r : regex) (off : nat) (s : QString)
    : option QRegularExpressionMatch :=
  match exec r s ∅ (λ s' caps, Some (s', caps)) with
  | Some (rest, caps) =>
      let n := (length s - length rest)%nat in
      Some {| capturedStart := off;
              capturedEnd := off + n;
              capturedTexts := <[0%nat := take n s]> caps |}
  | None => None
  end.

(** [QRegularExpression::match]: the leftmost match in [s], which is the
    subject from position [off] on. *)
Fixpoint search (r : regex) (off : nat) (s : QString)
    : option QRegularExpressionMatch :=
  match match_here r off s with
  | Some m => Some m
  | None =>
      match s with
      | [] => None
      | _ :: s' => search r (S off) s'
      end
  end.

(** [QRegularExpression::globalMatch]: the successive matches, each sought
    from the end of the one before.  After an empty match the search moves
    one code unit on; none of the program's patterns matches the empty
    string. *)
Fixpoint globalMatch_from (fuel : nat) (r : regex) (off : nat) (s : QString)
    : list QRegularExpressionMatch :=
  match fuel with
  | O => []
  | S fuel' =>
      match search r off s with
      | None => []
      | Some m =>
          let consumed := (capturedEnd m - off)%nat in
          if (capturedEnd m =? capturedStart m)%nat
          then m :: globalMatch_from fuel' r (S (capturedEnd m)) (drop (S consumed) s)
          else m :: globalMatch_from fuel' r (capturedEnd m) (drop consumed s)
      end
  end.

Definition globalMatch (r : regex) (s : QString) : list QRegularExpressionMatch :=
  globalMatch_from (S (length s)) r 0 s.

(** [QString::contains(const QRegularExpression &)]. *)
Definition contains_re (r : regex) (s : QString) : bool :=
  match search r 0 s with Some _ => true | None => false end.

(** [QString::remove(const QRegularExpression &)]: the subject without its
    matches. *)
Definition remove_re (r : regex) (s : QString) : QString :=
  let '(out, lastEnd) :=
    foldl (λ '(out, lastEnd) m,
             (out ++ mid s lastEnd (capturedStart m - lastEnd), capturedEnd m))
          ([], 0%nat) (globalMatch r s) in
  out ++ mid_end s lastEnd.

(* ----------------------------------------------------------------- *)
(** ** C++ integers                                                   *)
(* ----------------------------------------------------------------- *)

Definition INT_MAX : Z := 2147483647.

(** The value an [int] computation takes after wrapping at 32 bits. *)
Definition wrap_int (z : Z) : Z := (z + 2 ^ 31) mod 2 ^ 32 - 2 ^ 31.

(** Conversion of an [int] to [size_t] in a comparison with
    [std::deque::size()]. *)
Definition to_size_t (z : Z) : Z := z mod 2 ^ 64.

(** [QString::number(int)] as used by [QString::arg(int)]. *)
Definition number (n : Z) : QString :=
  qs (NilZero.string_of_int (Z.to_int n)).

(* ----------------------------------------------------------------- *)
(** ** The placeholder codec                                          *)
(* ----------------------------------------------------------------- *)

Record EscapeMap := {
  map : gmap (list Z) (list Z);
  counter : Z
}.

(** The pattern  \{\{.*?\}\}|<[^>]+>|\\r\\n|\\n|\\r|\\t|\r\n|\n|\r|\t  of
    [freezeEscapesLocal]: the first four escapes are the two-character
    sequences backslash-letter, the last four the control characters. *)
Definition FREEZE_REGEX : regex :=
  RAlt (RSeq (RLit (qs "{{")) (RSeq (RStar false (CDot false)) (RLit (qs "}}"))))
  (RAlt (RSeq (RLit (qs "<")) (RSeq (RPlus true (CNot 62)) (RLit (qs ">"))))
  (RAlt (RLit (qs "\r\n"))
  (RAlt (RLit (qs "\n"))
  (RAlt (RLit (qs "\r"))
  (RAlt (RLit (qs "\t"))
  (RAlt (RLit [13; 10])
  (RAlt (RLit [10])
  (RAlt (RLit [13])
        (RLit [9]))))))))).

(** The pattern  \s*\[T_(\d+)\]\s*  of [thawEscapesLocal]. *)
Definition THAW_REGEX : regex :=
  RSeq (RStar true CSpace)
  (RSeq (RLit (qs "[T_"))
  (RSeq (RGroup 1 (RPlus true CDigit))
  (RSeq (RLit (qs "]"))
        (RStar true CSpace)))).

(** [QString("[T_%1]").arg(a)] *)
Definition tokenKeyOf (a : QString) : QString := qs "[T_" ++ a ++ qs "]".

(** One turn of the loop of [freezeEscapesLocal]; the state is
    [newResult], [lastEnd] and the escape context. *)
Definition freeze_step (result : QString)
    (st : QString * nat * EscapeMap) (m : QRegularExpressionMatch)
    : QString * nat * EscapeMap :=
  let '(newResult, lastEnd, context) := st in
  let newResult := newResult ++ mid result lastEnd (capturedStart m - lastEnd) in
  let original := captured m 0 in
  let tokenKey := tokenKeyOf (number (counter context)) in
  let context := {| map := map context; counter := wrap_int (counter context + 1) |} in
  let tokenWithSpace := qs " " ++ tokenKey ++ qs " " in
  let context := {| map := <[tokenKey := original]> (map context);
                    counter := counter context |} in
  let newResult := newResult ++ tokenWithSpace in
  (newResult, capturedEnd m, context).

Definition freezeEscapesLocal (input : QString) : QString * EscapeMap :=
  let result := input in
  let context := {| map := ∅; counter := 0 |} in
  let '(newResult, lastEnd, context) :=
    foldl (freeze_step result) ([], 0%nat, context) (globalMatch FREEZE_REGEX result) in
  (newResult ++ mid_end result lastEnd, context).

(** One turn of the loop of [thawEscapesLocal]. *)
Definition thaw_step (result : QString) (context : EscapeMap)
    (st : QString * nat) (m : QRegularExpressionMatch) : QString * nat :=
  let '(newResult, lastEnd) := st in
  let newResult := newResult ++ mid result lastEnd (capturedStart m - lastEnd) in
  let key := tokenKeyOf (captured m 1) in
  let newResult :=
    match map context !! key with
    | Some original => newResult ++ original
    | None => newResult ++ key
    end in
  (newResult, capturedEnd m).

Definition thawEscapesLocal (input : QString) (context : EscapeMap) : QString :=
  let result := input in
  let '(newResult, lastEnd) :=
    foldl (thaw_step result context) ([], 0%nat) (globalMatch THAW_REGEX result) in
  newResult ++ mid_end result lastEnd.

(* ----------------------------------------------------------------- *)
(** ** Configuration and the key rotator                              *)
(* ----------------------------------------------------------------- *)

(** [struct AppConfig] of [ConfigManager.h]. *)
Record AppConfig := {
  api_address : list Z;
  api_key : list Z;
  model_name : list Z;
  port : Z;
  system_prompt : list Z;
  pre_prompt : list Z;
  context_num : Z;
  temperature : float;
  max_threads : Z;
  language : Z;
  enable_glossary : bool;
  glossary_path : list Z;
  glossary_history : list (list Z)
}.

(** Modelled from the spec: the declaration of [Context] in
    [TranslationServer.h] is not among the sources.  The spec gives the
    value kept for a client as an ordered sequence of (user turn, assistant
    turn) pairs plus a cap; the cap is an [int] copied from [context_num]
    and the sequence a [std::deque], whose [size()] is unsigned. *)
Record Context := {
  history : list (list Z * list Z);
  max_len : Z
}.

(** The fields of [TranslationServer] the translation path uses.  The flag
    [m_stopRequested] is written by other threads and is read from the
    environment instead. *)
Record Server := {
  m_config : AppConfig;
  m_apiKeys : list (list Z);
  m_currentKeyIndex : nat;
  m_contexts : gmap (list Z) Context
}.

Definition set_config (cfg : AppConfig) (keys : list (list Z)) (idx : nat)
    (sv : Server) : Server :=
  {| m_config := cfg; m_apiKeys := keys; m_currentKeyIndex := idx;
     m_contexts := m_contexts sv |}.

Definition set_currentKeyIndex (idx : nat) (sv : Server) : Server :=
  {| m_config := m_config sv; m_apiKeys := m_apiKeys sv;
     m_currentKeyIndex := idx; m_contexts := m_contexts sv |}.

Definition set_contexts (c : gmap (list Z) Context) (sv : Server) : Server :=
  {| m_config := m_config sv; m_apiKeys := m_apiKeys sv;
     m_currentKeyIndex := m_currentKeyIndex sv; m_contexts := c |}.

(** The pool [updateConfig] builds from the credential string:
    [split(',', Qt::SkipEmptyParts)], then [trimmed()] on each part. *)
Definition parseApiKeys (api_key : QString) : list QString :=
  trimmed <$> split_SkipEmptyParts 44 api_key.

(* ----------------------------------------------------------------- *)
(** ** The context store                                              *)
(* ----------------------------------------------------------------- *)

(** [while (ctx.history.size() > ctx.max_len) ctx.history.pop_front();]
    The comparison is made in [size_t]. *)
Fixpoint trim_front (max_len : Z) (history : list (QString * QString))
    : list (QString * QString) :=
  if Z.of_nat (length history) >? to_size_t max_len then
    match history with
    | _ :: rest => trim_front max_len rest
    | [] => []
    end
  else history.

Section ContextStore.
(** The cap of a [Context] that [m_contexts[clientId]] has just created;
    it is fixed by the declaration of [Context]. *)
Variable Context_max_len_init : Z.

(** [Context& ctx = m_contexts[clientId];] *)
Definition context_at (clientId : QString) (contexts : gmap (list Z) Context)
    : Context :=
  default {| history := []; max_len := Context_max_len_init |}
          (contexts !! clientId).

(** The block of [performSingleTranslationAttempt] that reads the history
    of a client; it returns the pairs put into [messages]. *)
Definition contextRead (clientId : QString) (context_num : Z)
    (contexts : gmap (list Z) Context)
    : list (QString * QString) * gmap (list Z) Context :=
  let ctx := context_at clientId contexts in
  let ctx := if bool_decide (max_len ctx ≠ context_num)
             then {| history := history ctx; max_len := context_num |}
             else ctx in
  let ctx := {| history := trim_front (max_len ctx) (history ctx);
                max_len := max_len ctx |} in
  (history ctx, <[clientId := ctx]> contexts).

(** The block that records a valid result. *)
Definition contextAppend (clientId : QString) (pair : QString * QString)
    (contexts : gmap (list Z) Context) : gmap (list Z) Context :=
  let ctx := context_at clientId contexts in
  let ctx := {| history := history ctx ++ [pair]; max_len := max_len ctx |} in
  let ctx := {| history := trim_front (max_len ctx) (history ctx);
                max_len := max_len ctx |} in
  <[clientId := ctx]> contexts.

(** [m_contexts.clear()] of [clearAllContexts]. *)
Definition contextClear (contexts : gmap (list Z) Context)
    : gmap (list Z) Context := ∅.
End ContextStore.

(* ----------------------------------------------------------------- *)
(** ** The response reconstructor                                     *)
(* ----------------------------------------------------------------- *)

(** [<think>.*?</think>], the dot matching everything. *)
Definition THINK_REGEX : regex :=
  RSeq (RLit (qs "<think>")) (RSeq (RStar false (CDot true)) (RLit (qs "</think>"))).

(** [<tm>\s*(.*?)\s*=\s*(.*?)\s*</tm>], the dot matching everything. *)
Definition TM_REGEX : regex :=
  RSeq (RLit (qs "<tm>"))
  (RSeq (RStar true CSpace)
  (RSeq (RGroup 1 (RStar false (CDot true)))
  (RSeq (RStar true CSpace)
  (RSeq (RLit (qs "="))
  (RSeq (RStar true CSpace)
  (RSeq (RGroup 2 (RStar false (CDot true)))
  (RSeq (RStar true CSpace)
        (RLit (qs "</tm>"))))))))).

(** [\[T_\d+\]] *)
Definition TOKEN_REGEX : regex :=
  RSeq (RLit (qs "[T_")) (RSeq (RPlus true CDigit) (RLit (qs "]"))).

(** [Z[A-Z]{2}Z] *)
Definition TERM_CODE_REGEX : regex :=
  RSeq (RLit (qs "Z"))
  (RSeq (RCls (CRange 65 90)) (RSeq (RCls (CRange 65 90)) (RLit (qs "Z")))).

(** [<tl>(.*?)</tl>], the dot matching everything. *)
Definition TL_REGEX : regex :=
  RSeq (RLit (qs "<tl>"))
  (RSeq (RGroup 1 (RStar false (CDot true))) (RLit (qs "</tl>"))).

(** The three tests that set [isValidTerm]. *)
Definition isValidTerm (k v : QString) : bool :=
  if isEmpty k || isEmpty v then false
  else if contains_re TOKEN_REGEX k || contains_re TOKEN_REGEX v then false
  else if contains_re TERM_CODE_REGEX k || contains_re TERM_CODE_REGEX v then false
  else true.

Section Reconstructor.
Context `{CaseFolding}.

(** One turn of the loop over the [<tm>] matches.  The state is
    [reconstructionBuffer], [lastPos] and the terms announced so far, each
    standing for the call [addNewTerm(k, v)] and its log line. *)
Definition harvest_step (cleanContent processedText : QString)
    (st : QString * nat * list (QString * QString))
    (m : QRegularExpressionMatch)
    : QString * nat * list (QString * QString) :=
  let '(reconstructionBuffer, lastPos, announced) := st in
  let k := trimmed (captured m 1) in
  let v := trimmed (captured m 2) in
  let reconstructionBuffer :=
    reconstructionBuffer ++ mid cleanContent lastPos (capturedStart m - lastPos) in
  let announced :=
    if isValidTerm k v then
      if contains eq_ci k processedText then announced ++ [(k, v)] else announced
    else announced in
  let reconstructionBuffer := reconstructionBuffer ++ v in
  (reconstructionBuffer, capturedEnd m, announced).

(** The body of [if (performExtraction)]: the rebuilt content and the
    terms announced, in order. *)
Definition harvestTerms (cleanContent processedText : QString)
    : QString * list (QString * QString) :=
  let '(reconstructionBuffer, lastPos, announced) :=
    foldl (harvest_step cleanContent processedText) ([], 0%nat, [])
          (globalMatch TM_REGEX cleanContent) in
  (reconstructionBuffer ++ mid_end cleanContent lastPos, announced).

(** From [reTl.match(cleanContent)] to the two calls of [remove]. *)
Definition extractTranslation (cleanContent : QString) : QString :=
  let resultText :=
    match search TL_REGEX 0 cleanContent with
    | Some matchTl => trimmed (captured matchTl 1)
    | None => trimmed cleanContent
    end in
  let resultText := remove eq_ci (qs "<tl>") resultText in
  remove eq_ci (qs "</tl>") resultText.

(** [isValidTranslationResult]; the two Chinese and English needles are
    sought with [Qt::CaseInsensitive]. *)
Definition TRANSLATION_FAILED_ZH : QString := [0x7FFB; 0x8BD1; 0x5931; 0x8D25].

Definition isValidTranslationResult (result : QString) : bool :=
  negb (isEmpty result)
  && negb (startsWith eq_ci (qs "Error") result)
  && negb (contains eq_ci TRANSLATION_FAILED_ZH result)
  && negb (contains eq_ci (qs "translation failed") result)
  && (Z.of_nat (length result) >? 0).
End Reconstructor.

(* ----------------------------------------------------------------- *)
(** ** Signals, requests and replies                                  *)
(* ----------------------------------------------------------------- *)

(** The lines given to [logMessage], by the table entry or the literal they
    are built from; [lang] is the index into the table. *)
Inductive LogMsg :=
| SV_ERR_KEY (lang : Z)
| SV_ERR_FMT (lang : Z)
| SV_ERR_JSON (lang : Z)
| SV_NEW_TERM (lang : Z) (k v : list Z)
| SV_RETRY_ATTEMPT (lang : Z) (n total : Z)
| SV_RETRY_SUCCESS (lang : Z)
| SV_RETRY_FAILED (lang : Z)
| SV_ABORTED (lang : Z)
| LOG_REQUEST_TIMEOUT
| LOG_NETWORK_ERROR (errorString : list Z)
| LOG_RESULT (resultText : list Z)
| LOG_CONTEXT_CLEARED (lang : Z).

Inductive Role := system | user | assistant.

(** The JSON object sent to the upstream API. *)
Record Payload := {
  payload_model : list Z;
  payload_messages : list (Role * list Z);
  payload_temperature : float
}.

(** What the translation path does to the outside, in order. *)
Inductive Event :=
| logMessage (msg : LogMsg)
| tokenUsageReceived (p c : Z)
| addNewTerm (k v : list Z)
| setFilePath (path : list Z)
| post (url authorization : list Z) (payload : Payload)
| msleep (ms : Z).

(** What [choices[0].message.content] yields. *)
Inductive Choices :=
| NoChoices                     (* no [choices], or an empty one *)
| BadContent                    (* reading the content throws *)
| Content (content : list Z).

Inductive Body :=
| BadJson                       (* [json::parse] throws *)
| Json (usage : option (Z * Z)) (choices : Choices).

(** How the wait for the reply ends when it is not cancelled. *)
Inductive Reply :=
| ReplyTimeout                  (* the 40 s timer fires first *)
| ReplyError (errorString : list Z)
| ReplyBody (body : Body).

(** What lies outside the translation path: the stop flag as the
    successive reads find it, the configurations another thread installs
    while this one sleeps, the upstream API, the glossary and regex
    providers and the MD5 digest. *)
Record Env := {
  stopRequested : nat → bool;
  hotReload : nat → option AppConfig;
  reply_polls : nat → nat;
  upstream : nat → Payload → Reply;
  processPre : list Z → list Z;
  processPost : list Z → list Z;
  getContextPrompt : list Event → list Z → list Z;
  md5Hex : list Z → list Z
}.

(** The state a request runs in.  [stop_reads], [sleeps] and [posts] count
    the reads of the stop flag, the calls of [msleep] and the requests
    sent; [attempts] keeps, for every attempt that returned, the number of
    sleeps before it started and its result. *)
Record World := {
  server : Server;
  stop_reads : nat;
  sleeps : nat;
  posts : nat;
  attempts : list (nat * list Z);
  trace : list Event
}.

Definition M (A : Type) : Type := World → A * World.

Definition ret {A : Type} (a : A) : M A := λ w, (a, w).
Definition bind {A B : Type} (m : M A) (f : A → M B) : M B := λ w,
  let '(a, w') := m w in f a w'.

Declare Scope M_scope.
Delimit Scope M_scope with M.
Bind Scope M_scope with M.
Notation "x ← y ; z" := (bind y (λ x : _, z))
  (at level 20, y at level 100, z at level 200, only parsing) : M_scope.
Notation "x ;; z" := (bind x (λ _, z))
  (at level 100, z at level 200, only parsing, right associativity) : M_scope.
Local Open Scope M_scope.

Definition emit (e : Event) : M unit := λ w,
  (tt, {| server := server w; stop_reads := stop_reads w; sleeps := sleeps w;
          posts := posts w; attempts := attempts w; trace := trace w ++ [e] |}).

Definition skip : M unit := ret tt.

Definition getServer : M Server := λ w, (server w, w).

Definition putServer (sv : Server) : M unit := λ w,
  (tt, {| server := sv; stop_reads := stop_reads w; sleeps := sleeps w;
          posts := posts w; attempts := attempts w; trace := trace w |}).

Definition getTrace : M (list Event) := λ w, (trace w, w).

Definition getSleeps : M nat := λ w, (sleeps w, w).

(** The attempt that started after [started] sleeps returned [r]. *)
Definition noteAttempt (started : nat) (r : QString) : M unit := λ w,
  (tt, {| server := server w; stop_reads := stop_reads w; sleeps := sleeps w;
          posts := posts w; attempts := attempts w ++ [(started, r)];
          trace := trace w |}).

(** [updateConfig]: the snapshot is replaced, the pool rebuilt, the cursor
    set to 0 and the glossary told its path when it is enabled. *)
Definition updateConfig (config : AppConfig) : M unit :=
  sv ← getServer;
  putServer (set_config config (parseApiKeys (api_key config)) 0 sv);;
  if enable_glossary config then emit (setFilePath (glossary_path config))
  else skip.

(** [getConfig] *)
Definition getConfig : M AppConfig := λ w, (m_config (server w), w).

(** [getNextApiKey] *)
Definition getNextApiKey : M QString :=
  sv ← getServer;
  if bool_decide (m_apiKeys sv = []) then ret []
  else
    let key := default [] (m_apiKeys sv !! m_currentKeyIndex sv) in
    putServer (set_currentKeyIndex
                 ((m_currentKeyIndex sv + 1) `mod` length (m_apiKeys sv))%nat sv);;
    ret key.

(** [clearAllContexts] *)
Definition clearAllContexts : M unit :=
  sv ← getServer;
  putServer (set_contexts (contextClear (m_contexts sv)) sv);;
  emit (logMessage (LOG_CONTEXT_CLEARED (language (m_config sv)))).

(* ----------------------------------------------------------------- *)
(** ** One translation attempt                                        *)
(* ----------------------------------------------------------------- *)

(** The rules appended to the system prompt. *)
Definition TRANSLATION_RULES : QString :=
  [10; 10; 0x3010] ++ qs "Translation Rules" ++ [0x3011] ++ qs ":" ++ [10]
  ++ qs "1. " ++ [0xD83D; 0xDED1]
  ++ qs " PRESERVE TAGS: You will see tags like '[T_0]', '[T_1]'." ++ [10]
  ++ qs "   - These replace newlines or code. Keep them EXACTLY as is." ++ [10]
  ++ qs "   - Input: " ++ [34] ++ qs "Hello [T_0] World" ++ [34; 10]
  ++ qs "   - Output: " ++ [34; 0x4F60; 0x597D] ++ qs " [T_0] "
  ++ [0x4E16; 0x754C; 34; 10]
  ++ qs "2. " ++ [0xD83D; 0xDED1] ++ qs " NO CLEANUP: Do NOT remove the tags." ++ [10]
  ++ qs "3. " ++ [0xD83D; 0xDD30]
  ++ qs " TERM CODES: Keep 'Z[A-Z]{2}Z' (e.g., 'ZMCZ') codes exactly as is." ++ [10]
  ++ qs "4. Translate the text BETWEEN the tags naturally." ++ [10]
  ++ qs "5. Output ONLY the translated result." ++ [10].

(** The block appended when terms are to be extracted. *)
Definition TERM_EXTRACTION_RULES : QString :=
  [10; 0x3010] ++ qs "Term Extraction" ++ [0x3011] ++ qs ":" ++ [10]
  ++ qs "1. Wrap translation in <tl>...</tl>." ++ [10]
  ++ qs "2. If you find Proper Nouns (Names) NOT in glossary, append <tm>Src=Trgt</tm> AFTER the translation." ++ [10]
  ++ qs "3. Keep <tm> tags OUTSIDE of <tl> tags." ++ [10].

Definition MAX_RETRY_COUNT : Z := 5.
Definition RETRY_DELAY_MS : Z := 1000.

Section Attempt.
Context `{CaseFolding}.
Variable Context_max_len_init : Z.
Variable env : Env.

(** A read of [m_stopRequested]. *)
Definition readStop : M bool := λ w,
  (stopRequested env (stop_reads w),
   {| server := server w; stop_reads := S (stop_reads w); sleeps := sleeps w;
      posts := posts w; attempts := attempts w; trace := trace w |}).

(** [QThread::msleep(100)]; a hot reload by another thread takes place
    while this one sleeps. *)
Definition msleep100 : M unit := λ w,
  let w' := {| server := server w; stop_reads := stop_reads w;
               sleeps := S (sleeps w); posts := posts w;
               attempts := attempts w; trace := trace w ++ [msleep 100] |} in
  match hotReload env (sleeps w) with
  | Some config => updateConfig config w'
  | None => (tt, w')
  end.

(** [manager.post(request, payload)]; the result numbers the request. *)
Definition sendRequest (url authorization : QString) (payload : Payload)
    : M nat := λ w,
  (posts w,
   {| server := server w; stop_reads := stop_reads w; sleeps := sleeps w;
      posts := S (posts w); attempts := attempts w;
      trace := trace w ++ [post url authorization payload] |}).

(** The event loop: every 100 ms the stop flag is read, and a set flag
    aborts the reply and leaves the loop.  The result tells whether the
    reply was aborted. *)
Fixpoint poll_stop (n : nat) : M bool :=
  match n with
  | O => ret false
  | S n' => stop ← readStop; if stop then ret true else poll_stop n'
  end.

(** [generateClientId] *)
Definition generateClientId (ip : QString) : QString := take 8 (md5Hex env ip).

Definition withContexts {A : Type}
    (f : gmap (list Z) Context → A * gmap (list Z) Context) : M A :=
  sv ← getServer;
  let '(a, c) := f (m_contexts sv) in
  putServer (set_contexts c sv);; ret a.

(** The calls [addNewTerm(k, v)] and the log lines of the terms found. *)
Fixpoint announceTerms (lang : Z) (terms : list (QString * QString)) : M unit :=
  match terms with
  | [] => skip
  | (k, v) :: rest =>
      emit (addNewTerm k v);;
      emit (logMessage (SV_NEW_TERM lang k v));;
      announceTerms lang rest
  end.

(** What follows a reply whose [choices] hold the content [rawContent]. *)
Definition handleContent (cfg : AppConfig) (performExtraction : bool)
    (processedText currentUserContent clientId : QString)
    (escapeCtx : EscapeMap) (rawContent : QString) : M QString :=
  let cleanContent := remove_re THINK_REGEX rawContent in
  cleanContent ←
    (if performExtraction then
       let '(rebuilt, terms) := harvestTerms cleanContent processedText in
       announceTerms (language cfg) terms;; ret rebuilt
     else ret cleanContent);
  let resultText := extractTranslation cleanContent in
  let resultText := thawEscapesLocal resultText escapeCtx in
  let resultText :=
    if enable_glossary cfg then processPost env resultText else resultText in
  emit (logMessage (LOG_RESULT resultText));;
  if isValidTranslationResult resultText then
    withContexts (λ c, (tt, contextAppend Context_max_len_init clientId
                              (currentUserContent, resultText) c));;
    ret resultText
  else ret [].

(** The wait for the reply to request [k] and what is made of it. *)
Definition awaitReply (cfg : AppConfig) (performExtraction : bool)
    (processedText currentUserContent clientId : QString)
    (escapeCtx : EscapeMap) (k : nat) (payload : Payload) : M QString :=
  aborted ← poll_stop (reply_polls env k);
  stop ← readStop;
  if stop then ret [] else
  match (if aborted then ReplyError (qs "Operation canceled")
         else upstream env k payload) with
  | ReplyTimeout => emit (logMessage LOG_REQUEST_TIMEOUT);; ret []
  | ReplyError e => emit (logMessage (LOG_NETWORK_ERROR e));; ret []
  | ReplyBody BadJson => emit (logMessage (SV_ERR_JSON (language cfg)));; ret []
  | ReplyBody (Json usage choices) =>
      match usage with
      | Some (p, c) =>
          if (p >? 0) || (c >? 0) then emit (tokenUsageReceived p c) else skip
      | None => skip
      end;;
      match choices with
      | Content rawContent =>
          handleContent cfg performExtraction processedText
                        currentUserContent clientId escapeCtx rawContent
      | NoChoices => emit (logMessage (SV_ERR_FMT (language cfg)));; ret []
      | BadContent => emit (logMessage (SV_ERR_JSON (language cfg)));; ret []
      end
  end.

(** [performSingleTranslationAttempt] from the point where the snapshot
    [cfg] of the configuration has been taken. *)
Definition attemptWithSnapshot (cfg : AppConfig) (text clientIP : QString)
    : M QString :=
  apiKey ← getNextApiKey;
  if isEmpty apiKey then
    emit (logMessage (SV_ERR_KEY (language cfg)));; ret []
  else
  let '(processedText, escapeCtx) := freezeEscapesLocal text in
  let processedText :=
    if enable_glossary cfg then processPre env processedText else processedText in
  let clientId := generateClientId clientIP in
  let finalSystemPrompt := system_prompt cfg ++ TRANSLATION_RULES in
  seen ← getTrace;
  let glossaryContext :=
    if enable_glossary cfg then getContextPrompt env seen processedText else [] in
  let finalSystemPrompt :=
    if enable_glossary cfg && negb (isEmpty glossaryContext)
    then finalSystemPrompt ++ [10] ++ glossaryContext else finalSystemPrompt in
  let performExtraction :=
    enable_glossary cfg && (Z.of_nat (length text) >? 5) in
  let finalSystemPrompt :=
    if performExtraction then finalSystemPrompt ++ TERM_EXTRACTION_RULES
    else finalSystemPrompt in
  past ← withContexts (contextRead Context_max_len_init clientId (context_num cfg));
  let currentUserContent := pre_prompt cfg ++ processedText in
  let messages :=
    (system, finalSystemPrompt)
    :: flat_map (λ turn, [(user, turn.1); (assistant, turn.2)]) past
    ++ [(user, currentUserContent)] in
  let payload := {| payload_model := model_name cfg;
                    payload_messages := messages;
                    payload_temperature := temperature cfg |} in
  k ← sendRequest (api_address cfg ++ qs "/chat/completions")
                  (qs "Bearer " ++ apiKey) payload;
  awaitReply cfg performExtraction processedText currentUserContent clientId
             escapeCtx k payload.

(** [performSingleTranslationAttempt]: the stop flag is read, the snapshot
    of the configuration taken, and the attempt made with it. *)
Definition performSingleTranslationAttempt (text clientIP : QString)
    : M QString :=
  stop ← readStop;
  if stop then ret [] else
  cfg ← getConfig;
  attemptWithSnapshot cfg text clientIP.

(* --------------------------------------------------------------- *)
(** ** The retry loop                                               *)
(* --------------------------------------------------------------- *)

(** The delay before a retry: [n] turns of reading the stop flag and
    sleeping 100 ms.  The result tells whether the stop flag was seen. *)
Fixpoint backoff (n : nat) : M bool :=
  match n with
  | O => ret false
  | S n' => stop ← readStop; if stop then ret true else msleep100;; backoff n'
  end.

(** The [while] loop of [performTranslation]; [fuel] bounds its turns. *)
Fixpoint retry_loop (fuel : nat) (text clientIP : QString) (langIdx : Z)
    (retryCount : Z) (resultText : QString) : M QString :=
  match fuel with
  | O => ret resultText
  | S fuel' =>
      if negb (retryCount <? MAX_RETRY_COUNT) then ret resultText else
      stop ← readStop;
      if stop then emit (logMessage (SV_ABORTED langIdx));; ret [] else
      cancelled ←
        (if retryCount >? 0 then
           emit (logMessage (SV_RETRY_ATTEMPT langIdx (retryCount + 1) MAX_RETRY_COUNT));;
           backoff (Z.to_nat (RETRY_DELAY_MS / 100))
         else ret false);
      if cancelled then ret [] else
      started ← getSleeps;
      attemptResult ← performSingleTranslationAttempt text clientIP;
      noteAttempt started attemptResult;;
      stop ← readStop;
      if stop then ret [] else
      if isValidTranslationResult attemptResult then
        (if retryCount >? 0 then emit (logMessage (SV_RETRY_SUCCESS langIdx))
         else skip);;
        ret attemptResult
      else
        let retryCount := wrap_int (retryCount + 1) in
        if retryCount >=? MAX_RETRY_COUNT then
          emit (logMessage (SV_RETRY_FAILED langIdx));;
          retry_loop fuel' text clientIP langIdx retryCount []
        else retry_loop fuel' text clientIP langIdx retryCount resultText
  end.

(** [performTranslation] *)
Definition performTranslation (text clientIP : QString) : M QString :=
  cfg ← getConfig;
  retry_loop (S (Z.to_nat MAX_RETRY_COUNT)) text clientIP (language cfg) 0 [].
End Attempt.

(* ----------------------------------------------------------------- *)
(** ** Vocabulary of the statements                                   *)
(* ----------------------------------------------------------------- *)

(** [n] calls of [getNextApiKey] in a row, with the keys they return. *)
Fixpoint getNextApiKey_times (n : nat) : M (list QString) :=
  match n with
  | O => ret []
  | S n' => key ← getNextApiKey; keys ← getNextApiKey_times n'; ret (key :: keys)
  end.

(** How often [key] stands in a list of keys. *)
Definition occurrences (key : QString) (keys : list QString) : nat :=
  length (List.filter (λ x, bool_decide (x = key)) keys).

(** The pool as the specification words it: split on the comma, trim each
    piece, drop the empty ones. *)
Definition pool_of_spec (api_key : QString) : list QString :=
  List.filter (λ p, negb (isEmpty p)) (trimmed <$> split 44 api_key).

Definition set_api_key (k : QString) (cfg : AppConfig) : AppConfig :=
  {| api_address := api_address cfg; api_key := k; model_name := model_name cfg;
     port := port cfg; system_prompt := system_prompt cfg;
     pre_prompt := pre_prompt cfg; context_num := context_num cfg;
     temperature := temperature cfg; max_threads := max_threads cfg;
     language := language cfg; enable_glossary := enable_glossary cfg;
     glossary_path := glossary_path cfg;
     glossary_history := glossary_history cfg |}.

(** The operations on the context store. *)
Inductive ContextOp :=
| OpRead (clientId : list Z) (cap : Z)
| OpAppend (clientId : list Z) (turn : list Z * list Z)
| OpClear.

Definition applyOp (init : Z) (contexts : gmap (list Z) Context) (op : ContextOp)
    : gmap (list Z) Context :=
  match op with
  | OpRead clientId cap => (contextRead init clientId cap contexts).2
  | OpAppend clientId turn => contextAppend init clientId turn contexts
  | OpClear => contextClear contexts
  end.

Definition runOps (init : Z) (ops : list ContextOp)
    (contexts : gmap (list Z) Context) : gmap (list Z) Context :=
  foldl (applyOp init) contexts ops.

(** The cap last applied to a client by a sequence of operations: the one
    of its latest read, or the initial one when its context was created by
    an append; none once the store has been cleared. *)
Definition lastCap_step (init : Z) (client : QString) (cap : option Z)
    (op : ContextOp) : option Z :=
  match op with
  | OpRead clientId c => if bool_decide (clientId = client) then Some c else cap
  | OpAppend clientId _ =>
      if bool_decide (clientId = client)
      then Some (default init cap) else cap
  | OpClear => None
  end.

Definition lastCap (init : Z) (client : QString) (ops : list ContextOp)
    : option Z :=
  foldl (lastCap_step init client) None ops.

(** The text [freezeEscapesLocal] is to produce from the matched
    fragments [ms], numbered from [n] on: what lies between two matches is
    kept, and the match numbered [n] gives way to the key [[T_n]] with one
    space on each side. *)
Fixpoint placeholders (s : QString) (n : Z) (lastEnd : nat)
    (ms : list QRegularExpressionMatch) : QString :=
  match ms with
  | [] => mid_end s lastEnd
  | m :: ms' =>
      mid s lastEnd (capturedStart m - lastEnd)
      ++ qs " " ++ tokenKeyOf (number n) ++ qs " "
      ++ placeholders s (n + 1) (capturedEnd m) ms'
  end.

(** The white space that is no fragment of its own: the space, the
    vertical tab and the form feed. *)
Definition is_blank (c : QChar) : bool := (c =? 32) || (c =? 11) || (c =? 12).

Definition is_blank_at (s : QString) (i : nat) : bool :=
  match s !! i with
  | Some c => is_blank c
  | None => false
  end.

(** The match [m] in [s] has such a white space right before it or right
    after it. *)
Definition blank_beside (s : QString) (m : QRegularExpressionMatch) : bool :=
  match capturedStart m with
  | O => false
  | S i => is_blank_at s i
  end
  || is_blank_at s (capturedEnd m).

(** The position of the first occurrence of [needle] in [s]. *)
Fixpoint indexOf (cmp : QChar → QChar → bool) (needle s : QString) : option nat :=
  if startsWith cmp needle s then Some 0%nat
  else match s with
       | [] => None
       | _ :: s' => S <$> indexOf cmp needle s'
       end.




(** The content with every span in [ms] replaced by the trimmed text of
    its second group. *)
Fixpoint rebuilt (s : QString) (lastEnd : nat)
    (ms : list QRegularExpressionMatch) : QString :=
  match ms with
  | [] => mid_end s lastEnd
  | m :: ms' =>
      mid s lastEnd (capturedStart m - lastEnd)
      ++ trimmed (captured m 2) ++ rebuilt s (capturedEnd m) ms'
  end.

Section Announced.
Context `{CaseFolding}.

End Announced.


(** The stop flag is never found set. *)
Definition never_stopped (env : Env) : Prop :=
  ∀ k, stopRequested env k = false.

Section LoopOutcome.
Context `{CaseFolding}.

(** Validity with the two needles compared code unit by code unit: the
    result is not empty, does not begin with [Error], letter case apart,
    and holds neither needle as it is written. *)
Definition valid_as_worded (result : QString) : bool :=
  negb (isEmpty result)
  && negb (startsWith eq_ci (qs "Error") result)
  && negb (contains eq_cs TRANSLATION_FAILED_ZH result)
  && negb (contains eq_cs (qs "translation failed") result).

(** What the loop has done when it returns [r] in the world [w'], whatever
    the stop flag did: [r] is empty, or it is the result of the last
    attempt made, that result is valid and those before it were not. *)
Definition first_valid_or_empty (w : World) (r : QString) (w' : World) : Prop :=
  r = []
  ∨ ∃ results t,
      attempts w' = attempts w ++ results ++ [(t, r)]
      ∧ isValidTranslationResult r = true
      ∧ Forall (λ x, isValidTranslationResult x.2 = false) results.

(** What the loop, entered with [retryCount] and [n] attempts left, has
    done when it returns [r] in the world [w'], the stop flag never found
    set: it has made at most [n] attempts; the first started after the
    delay that precedes it, ten sleeps if it is a retry, and every further
    one ten sleeps after the one before; all but the last returned an
    invalid result; and [r] is the result of the last one if that is valid,
    and empty after [n] invalid results. *)
Definition loop_outcome (retryCount : Z) (n : nat) (w : World)
    (resultText r : QString) (w' : World) : Prop :=
  ∃ results,
    attempts w' = attempts w ++ results
    ∧ (length results ≤ n)%nat
    ∧ (∀ i t ri, results !! i = Some (t, ri) →
         t = (sleeps w + (if retryCount >? 0 then 10 else 0) + 10 * i)%nat)
    ∧ (∀ i t ri, results !! i = Some (t, ri) → (S i < length results)%nat →
         isValidTranslationResult ri = false)
    ∧ match last results with
      | Some (_, rl) =>
          if isValidTranslationResult rl then r = rl
          else r = [] ∧ length results = n
      | None => n = 0%nat ∧ r = resultText
      end.
End LoopOutcome.

(* ----------------------------------------------------------------- *)
(** ** Sample configurations, worlds and environments                 *)
(* ----------------------------------------------------------------- *)

(** The defaults of [struct AppConfig], with the model [model], the key
    [k1] and empty prompts. *)
Definition sample_config (model : QString) : AppConfig :=
  {| api_address := qs "https://api.openai.com/v1";
     api_key := qs "k1";
     model_name := model;
     port := 6800;
     system_prompt := [];
     pre_prompt := [];
     context_num := 5;
     temperature := 1%float;
     max_threads := 8;
     language := 1;
     enable_glossary := false;
     glossary_path := [];
     glossary_history := [] |}.

(** The server right after [updateConfig cfg], before any request. *)
Definition sample_world (cfg : AppConfig) : World :=
  {| server := {| m_config := cfg; m_apiKeys := parseApiKeys (api_key cfg);
                  m_currentKeyIndex := 0; m_contexts := ∅ |};
     stop_reads := 0; sleeps := 0; posts := 0; attempts := []; trace := [] |}.

(** An environment whose replies arrive at once and whose glossary and
    regex providers change nothing. *)
Definition sample_env (stop : nat → bool) (reload : nat → option AppConfig)
    (reply : nat → Payload → Reply) : Env :=
  {| stopRequested := stop; hotReload := reload; reply_polls := λ _, 0%nat;
     upstream := reply; processPre := λ s, s; processPost := λ s, s;
     getContextPrompt := λ _ _, []; md5Hex := λ s, s |}.

(** The first request times out, every later one is answered with
    [content]. *)
Definition second_answers (content : QString) : nat → Payload → Reply :=
  λ k _, if (k =? 0)%nat then ReplyTimeout
         else ReplyBody (Json None (Content content)).

(** Every request is answered with [content]. *)
Definition always_answers (content : QString) : nat → Payload → Reply :=
  λ _ _, ReplyBody (Json None (Content content)).

(** Another thread installs [cfg] during the sleep numbered [tick]. *)
Definition reload_at (tick : nat) (cfg : AppConfig) : nat → option AppConfig :=
  λ k, if (k =? tick)%nat then Some cfg else None.

(* ================================================================= *)
(** * Part II: properties                                             *)
(* ================================================================= *)

#[local] Arguments Z.eqb : simpl never.
#[local] Arguments Z.leb : simpl never.
#[local] Arguments Z.ltb : simpl never.
#[local] Arguments Z.gtb : simpl never.
#[local] Arguments Z.geb : simpl never.

(* ----------------------------------------------------------------- *)
(** ** The key rotator                                                *)
(* ----------------------------------------------------------------- *)

Section KeyRotator.
Implicit Types (w : World) (pool : list (list Z)).

Definition with_cursor (i : nat) (w : World) : World :=
  {| server := set_currentKeyIndex i (server w); stop_reads := stop_reads w;
     sleeps := sleeps w; posts := posts w; attempts := attempts w;
     trace := trace w |}.

Lemma getNextApiKey_empty w :
  m_apiKeys (server w) = [] → getNextApiKey w = ([], w).
Proof.
  intros Hp. unfold getNextApiKey, bind, getServer.
  rewrite bool_decide_eq_true_2 by done. reflexivity.
Qed.

Lemma getNextApiKey_step w key :
  m_apiKeys (server w) !! m_currentKeyIndex (server w) = Some key →
  getNextApiKey w =
    (key, with_cursor ((m_currentKeyIndex (server w) + 1)
                         `mod` length (m_apiKeys (server w)))%nat w).
Proof.
  intros Hk. unfold getNextApiKey, bind, getServer.
  rewrite bool_decide_eq_false_2.
  - rewrite Hk. reflexivity.
  - intros Hnil. rewrite Hnil in Hk. discriminate.
Qed.

(** From cursor [j], the calls left in the round return the rest of the
    pool and bring the cursor back to 0. *)
Lemma getNextApiKey_round_from n : ∀ w j,
  m_currentKeyIndex (server w) = j →
  (j + S n)%nat = length (m_apiKeys (server w)) →
  getNextApiKey_times (S n) w = (drop j (m_apiKeys (server w)), with_cursor 0 w).
Proof.
  induction n as [|n IH]; intros w j Hj Hlen.
  - destruct (lookup_lt_is_Some_2 (m_apiKeys (server w)) j) as [key Hkey]; [lia|].
    cbn [getNextApiKey_times]. unfold bind.
    rewrite (getNextApiKey_step w key) by (rewrite Hj; exact Hkey).
    cbn. unfold ret. rewrite Hj.
    replace ((j + 1) `mod` length (m_apiKeys (server w)))%nat with 0%nat
      by (rewrite <- Hlen, Nat.add_1_r; symmetry; apply Nat.Div0.mod_same).
    f_equal.
    rewrite (drop_S _ key j Hkey). rewrite drop_ge by lia. reflexivity.
  - destruct (lookup_lt_is_Some_2 (m_apiKeys (server w)) j) as [key Hkey]; [lia|].
    change (getNextApiKey_times (S (S n)) w)
      with (let '(k, w1) := getNextApiKey w in
            let '(ks, w2) := getNextApiKey_times (S n) w1 in (k :: ks, w2)).
    rewrite (getNextApiKey_step w key) by (rewrite Hj; exact Hkey).
    rewrite Hj.
    rewrite (Nat.mod_small (j + 1)) by lia.
    rewrite (IH (with_cursor (j + 1) w) (j + 1)%nat); [|reflexivity|cbn; lia].
    cbn. rewrite (drop_S _ key j Hkey). rewrite Nat.add_1_r. reflexivity.
Qed.

Lemma getNextApiKey_times_app a : ∀ b w,
  getNextApiKey_times (a + b) w =
    (let '(ks1, w1) := getNextApiKey_times a w in
     let '(ks2, w2) := getNextApiKey_times b w1 in (ks1 ++ ks2, w2)).
Proof.
  induction a as [|a IH]; intros b w.
  - cbn. unfold ret. destruct (getNextApiKey_times b w). reflexivity.
  - change (getNextApiKey_times (S a + b) w)
      with (let '(k, w1) := getNextApiKey w in
            let '(ks, w2) := getNextApiKey_times (a + b) w1 in (k :: ks, w2)).
    change (getNextApiKey_times (S a) w)
      with (let '(k, w1) := getNextApiKey w in
            let '(ks, w2) := getNextApiKey_times a w1 in (k :: ks, w2)).
    destruct (getNextApiKey w) as [k w1]. rewrite IH.
    destruct (getNextApiKey_times a w1) as [ks1 w2].
    destruct (getNextApiKey_times b w2) as [ks2 w3]. reflexivity.
Qed.

Lemma getNextApiKey_rounds m : ∀ w,
  m_apiKeys (server w) ≠ [] →
  m_currentKeyIndex (server w) = 0%nat →
  getNextApiKey_times (m * length (m_apiKeys (server w))) w =
    (concat (replicate m (m_apiKeys (server w))),
     if m is O then w else with_cursor 0 w).
Proof.
  induction m as [|m IH]; intros w Hne H0.
  - reflexivity.
  - cbn [Nat.mul]. rewrite getNextApiKey_times_app.
    destruct (m_apiKeys (server w)) as [|k0 pool] eqn:Hpool; [done|].
    cbn [length].
    rewrite (getNextApiKey_round_from (length pool) w 0 H0)
      by (rewrite Hpool; reflexivity).
    rewrite Hpool. cbn [drop].
    specialize (IH (with_cursor 0 w)). cbn in IH. rewrite Hpool in IH.
    cbn [length] in IH. rewrite IH by done.
    cbn. destruct m; reflexivity.
Qed.

Lemma occurrences_app key (l1 l2 : list (list Z)) :
  occurrences key (l1 ++ l2) = (occurrences key l1 + occurrences key l2)%nat.
Proof. unfold occurrences. rewrite List.filter_app, length_app. reflexivity. Qed.

Lemma occurrences_rounds key pool m :
  occurrences key (concat (replicate m pool)) = (m * occurrences key pool)%nat.
Proof.
  induction m as [|m IH]; [reflexivity|].
  change (concat (replicate (S m) pool)) with (pool ++ concat (replicate m pool)).
  rewrite occurrences_app, IH. reflexivity.
Qed.

Lemma occurrences_NoDup key pool :
  NoDup pool → key ∈ pool → occurrences key pool = 1%nat.
Proof.
  induction 1 as [|x l Hx Hnd IH]; intros Hin.
  - by apply elem_of_nil in Hin.
  - unfold occurrences in *. cbn. case_bool_decide as Heq.
    + subst x. cbn. f_equal.
      clear IH Hin. induction l as [|y l IHl]; [reflexivity|].
      cbn. rewrite bool_decide_eq_false_2.
      * apply IHl; [set_solver | by inversion Hnd].
      * intros ->. apply Hx. left.
    + apply elem_of_cons in Hin as [->|Hin]; [done|]. by apply IH.
Qed.

(** C7.  [getNextApiKey] returns the entry under the cursor and moves the
    cursor on modulo the size of the pool; on an empty pool it returns the
    empty string.  From cursor 0, [m * k] calls on a pool of [k] keys return
    the pool [m] times over, so that every entry of the pool is returned
    exactly [m] times, and the cursor is back at 0. *)
Theorem key_rotation_fair w m :
  (m_apiKeys (server w) = [] → getNextApiKey w = ([], w))
  ∧ (∀ key, m_apiKeys (server w) !! m_currentKeyIndex (server w) = Some key →
       getNextApiKey w =
         (key, with_cursor ((m_currentKeyIndex (server w) + 1)
                              `mod` length (m_apiKeys (server w)))%nat w))
  ∧ (m_apiKeys (server w) ≠ [] → m_currentKeyIndex (server w) = 0%nat →
     let pool := m_apiKeys (server w) in
     let '(keys, w') := getNextApiKey_times (m * length pool) w in
     keys = concat (replicate m pool)
     ∧ m_currentKeyIndex (server w') = 0%nat
     ∧ (∀ key, occurrences key keys = (m * occurrences key pool)%nat)
     ∧ (NoDup pool → ∀ key, key ∈ pool → occurrences key keys = m)).
Proof.
  split; [apply getNextApiKey_empty|].
  split; [apply getNextApiKey_step|].
  intros Hne H0. cbn zeta. rewrite getNextApiKey_rounds by done.
  split; [reflexivity|]. split; [by destruct m|].
  split.
  - intros key. apply occurrences_rounds.
  - intros Hnd key Hin. rewrite occurrences_rounds, occurrences_NoDup by done. lia.
Qed.
End KeyRotator.

Section CredentialPool.
Implicit Types (w : World) (cfg : AppConfig).

Lemma updateConfig_server cfg w :
  server (updateConfig cfg w).2 =
    set_config cfg (parseApiKeys (api_key cfg)) 0 (server w).
Proof.
  unfold updateConfig, bind, getServer, putServer, emit, skip, ret.
  destruct (enable_glossary cfg); reflexivity.
Qed.

(** What [updateConfig] leaves behind: the new snapshot, the pool made of
    the trimmed non-empty parts of the credential string, cursor 0. *)
Lemma updateConfig_pool cfg w :
  let sv := server (updateConfig cfg w).2 in
  m_config sv = cfg
  ∧ m_apiKeys sv = trimmed <$> split_SkipEmptyParts 44 (api_key cfg)
  ∧ m_currentKeyIndex sv = 0%nat.
Proof. cbn zeta. rewrite updateConfig_server. done. Qed.

(** C6, at the credential string [k1, ,k2].  The part between the two
    commas is a single space: it is not empty, so [Qt::SkipEmptyParts]
    keeps it, and trimming then turns it into an empty key in the middle of
    the pool.  Splitting, trimming and then dropping the empty pieces gives
    the two keys only. *)
Theorem updateConfig_blank_part cfg w :
  let sv := server (updateConfig (set_api_key (qs "k1, ,k2") cfg) w).2 in
  m_apiKeys sv = [qs "k1"; []; qs "k2"]
  ∧ m_currentKeyIndex sv = 0%nat
  ∧ pool_of_spec (qs "k1, ,k2") = [qs "k1"; qs "k2"].
Proof. cbn zeta. rewrite updateConfig_server. done. Qed.
End CredentialPool.

(* ----------------------------------------------------------------- *)
(** ** The context store                                              *)
(* ----------------------------------------------------------------- *)

Section ContextBound.
Variable init : Z.
Implicit Types (c : gmap (list Z) Context) (h : list (list Z * list Z)).

Lemma trim_front_cons cap x h :
  trim_front cap (x :: h) =
    if Z.of_nat (length (x :: h)) >? to_size_t cap then trim_front cap h
    else x :: h.
Proof. reflexivity. Qed.

Lemma trim_front_nil cap : trim_front cap [] = [].
Proof. unfold trim_front. cbn [length]. by destruct (_ >? _). Qed.

Lemma to_size_t_nonneg cap : 0 ≤ cap ≤ INT_MAX → to_size_t cap = cap.
Proof. unfold to_size_t, INT_MAX. intros ?. apply Z.mod_small. lia. Qed.

Lemma to_size_t_negative cap : - 2 ^ 31 ≤ cap < 0 → to_size_t cap = 2 ^ 64 + cap.
Proof.
  unfold to_size_t. intros ?.
  rewrite <- (Z.mod_add cap 1 (2 ^ 64)) by lia.
  rewrite Z.mod_small; lia.
Qed.

(** With a cap that is not negative the loop drops the oldest pairs, as
    many as the history holds beyond the cap. *)
Lemma trim_front_nonneg cap h :
  0 ≤ cap ≤ INT_MAX →
  trim_front cap h = drop (length h - Z.to_nat cap) h.
Proof.
  intros Hcap. induction h as [|x h IH].
  - apply trim_front_nil.
  - rewrite trim_front_cons, to_size_t_nonneg by done.
    destruct (Z.gtb_spec (Z.of_nat (length (x :: h))) cap) as [Hgt|Hle].
    + rewrite IH. cbn [length] in *.
      replace (S (length h) - Z.to_nat cap)%nat
        with (S (length h - Z.to_nat cap)) by lia.
      reflexivity.
    + cbn [length] in *.
      replace (S (length h) - Z.to_nat cap)%nat with 0%nat by lia.
      reflexivity.
Qed.

Lemma trim_front_bound cap h :
  0 ≤ cap ≤ INT_MAX → Z.of_nat (length (trim_front cap h)) ≤ cap.
Proof.
  intros Hcap. rewrite trim_front_nonneg, length_drop by done. lia.
Qed.

(** With a negative cap the condition of the loop is false whatever the
    history holds. *)
Lemma trim_condition_negative cap h :
  - 2 ^ 31 ≤ cap < 0 → Z.of_nat (length h) ≤ 2 ^ 63 →
  (Z.of_nat (length h) >? to_size_t cap) = false.
Proof.
  intros Hcap Hlen. rewrite to_size_t_negative by done.
  destruct (Z.gtb_spec (Z.of_nat (length h)) (2 ^ 64 + cap)); [lia|done].
Qed.

Lemma trim_front_negative cap h :
  - 2 ^ 31 ≤ cap < 0 → Z.of_nat (length h) ≤ 2 ^ 63 → trim_front cap h = h.
Proof.
  intros Hcap Hlen. destruct h as [|x h]; [apply trim_front_nil|].
  rewrite trim_front_cons, trim_condition_negative; done.
Qed.

Lemma contextRead_lookup clientId cap c :
  (contextRead init clientId cap c).2 !! clientId =
    Some {| history := trim_front cap (history (context_at init clientId c));
            max_len := cap |}.
Proof.
  unfold contextRead. cbn [snd]. rewrite lookup_insert_eq.
  case_bool_decide as Hne; cbn; [done|].
  by rewrite Hne.
Qed.

Lemma contextRead_history clientId cap c :
  (contextRead init clientId cap c).1 =
    trim_front cap (history (context_at init clientId c)).
Proof.
  unfold contextRead. cbn [fst].
  case_bool_decide as Hne; cbn; [done|].
  by rewrite Hne.
Qed.

Lemma contextRead_lookup_ne clientId cap c client :
  clientId ≠ client →
  (contextRead init clientId cap c).2 !! client = c !! client.
Proof. intros Hne. unfold contextRead. cbn [snd]. by rewrite lookup_insert_ne. Qed.

Lemma contextAppend_lookup clientId turn c :
  contextAppend init clientId turn c !! clientId =
    Some {| history := trim_front (max_len (context_at init clientId c))
                         (history (context_at init clientId c) ++ [turn]);
            max_len := max_len (context_at init clientId c) |}.
Proof. unfold contextAppend. by rewrite lookup_insert_eq. Qed.

Lemma contextAppend_lookup_ne clientId turn c client :
  clientId ≠ client →
  contextAppend init clientId turn c !! client = c !! client.
Proof. intros Hne. unfold contextAppend. by rewrite lookup_insert_ne. Qed.

Lemma runOps_snoc ops op c :
  runOps init (ops ++ [op]) c = applyOp init (runOps init ops c) op.
Proof. unfold runOps. by rewrite foldl_snoc. Qed.

Lemma lastCap_snoc client ops op :
  lastCap init client (ops ++ [op]) =
    lastCap_step init client (lastCap init client ops) op.
Proof. unfold lastCap. by rewrite foldl_snoc. Qed.

(** The cap stored for a client is the cap last applied to it. *)
Lemma stored_cap_is_lastCap ops client :
  max_len <$> (runOps init ops ∅ !! client) = lastCap init client ops.
Proof.
  induction ops as [|op ops IH] using rev_ind; [done|].
  rewrite runOps_snoc, lastCap_snoc.
  destruct op as [cid cap|cid turn|]; cbn [applyOp lastCap_step].
  - destruct (decide (cid = client)) as [->|Hne].
    + rewrite bool_decide_eq_true_2 by done. by rewrite contextRead_lookup.
    + rewrite bool_decide_eq_false_2 by done. by rewrite contextRead_lookup_ne.
  - destruct (decide (cid = client)) as [->|Hne].
    + rewrite bool_decide_eq_true_2 by done.
      rewrite contextAppend_lookup. cbn. f_equal.
      rewrite <- IH. unfold context_at.
      by destruct (runOps init ops ∅ !! client).
    + rewrite bool_decide_eq_false_2 by done. by rewrite contextAppend_lookup_ne.
  - done.
Qed.

(** Whatever was done before, a client whose stored cap is a non-negative
    [int] holds at most that many pairs. *)
Lemma stored_history_bounded ops client ctx :
  runOps init ops ∅ !! client = Some ctx →
  0 ≤ max_len ctx ≤ INT_MAX →
  Z.of_nat (length (history ctx)) ≤ max_len ctx.
Proof.
  revert client ctx.
  induction ops as [|op ops IH] using rev_ind; intros client ctx; [done|].
  rewrite runOps_snoc. destruct op as [cid cap|cid turn|]; cbn [applyOp].
  - destruct (decide (cid = client)) as [->|Hne].
    + rewrite contextRead_lookup. intros [= <-]. cbn. apply trim_front_bound.
    + rewrite contextRead_lookup_ne by done. apply IH.
  - destruct (decide (cid = client)) as [->|Hne].
    + rewrite contextAppend_lookup. intros [= <-]. cbn. apply trim_front_bound.
    + rewrite contextAppend_lookup_ne by done. apply IH.
  - done.
Qed.

(** C4, for caps that are not negative.  After any sequence of reads,
    appends and clears, the cap stored for a client is the cap last applied
    to it, and when that cap is a non-negative [int] the history of the
    client holds at most that many pairs.  Both the read and the append
    trim by dropping the oldest pairs, as many as the history holds beyond
    the cap. *)
Theorem context_bound ops client ctx :
  runOps init ops ∅ !! client = Some ctx →
  lastCap init client ops = Some (max_len ctx)
  ∧ (0 ≤ max_len ctx ≤ INT_MAX →
     Z.of_nat (length (history ctx)) ≤ max_len ctx)
  ∧ (∀ c cap, 0 ≤ cap ≤ INT_MAX →
       let h := history (context_at init client c) in
       (contextRead init client cap c).2 !! client =
         Some {| history := drop (length h - Z.to_nat cap) h; max_len := cap |})
  ∧ (∀ c turn,
       let cap := max_len (context_at init client c) in
       let h := history (context_at init client c) ++ [turn] in
       0 ≤ cap ≤ INT_MAX →
       contextAppend init client turn c !! client =
         Some {| history := drop (length h - Z.to_nat cap) h; max_len := cap |}).
Proof.
  intros Hctx. split.
  { rewrite <- stored_cap_is_lastCap, Hctx. done. }
  split; [by apply (stored_history_bounded ops client)|].
  split.
  - intros c cap Hcap. cbn zeta.
    rewrite contextRead_lookup, trim_front_nonneg; done.
  - intros c turn. cbn zeta. intros Hcap.
    rewrite contextAppend_lookup, trim_front_nonneg; done.
Qed.

(** One successful attempt of a client: its read, then its append. *)
Definition attemptOps (client : list Z) (cap : Z) (turn : list Z * list Z)
  : list ContextOp := [OpRead client cap; OpAppend client turn].

Lemma negative_cap_round client cap turn c :
  - 2 ^ 31 ≤ cap < 0 →
  Z.of_nat (length (history (context_at init client c))) < 2 ^ 63 →
  runOps init (attemptOps client cap turn) c !! client =
    Some {| history := history (context_at init client c) ++ [turn];
            max_len := cap |}.
Proof.
  intros Hcap Hlen. unfold runOps, attemptOps. cbn [foldl applyOp].
  rewrite contextAppend_lookup.
  unfold context_at at 1 2 3. rewrite contextRead_lookup. cbn.
  rewrite (trim_front_negative cap (history _)) by (done || lia).
  rewrite trim_front_negative; [done|done|].
  rewrite length_app. cbn. lia.
Qed.

Lemma negative_cap_rounds client cap turn n : ∀ c,
  - 2 ^ 31 ≤ cap < 0 →
  Z.of_nat (length (history (context_at init client c))) + Z.of_nat n ≤ 2 ^ 63 →
  (0 < n)%nat →
  runOps init (concat (replicate n (attemptOps client cap turn))) c !! client =
    Some {| history := history (context_at init client c) ++ replicate n turn;
            max_len := cap |}.
Proof.
  induction n as [|n IH]; intros c Hcap Hlen Hn; [lia|].
  change (concat (replicate (S n) (attemptOps client cap turn)))
    with (attemptOps client cap turn ++ concat (replicate n (attemptOps client cap turn))).
  unfold runOps. rewrite foldl_app. fold (runOps init (attemptOps client cap turn) c).
  pose proof (negative_cap_round client cap turn c Hcap ltac:(lia)) as Hround.
  destruct n as [|n].
  - cbn [replicate concat foldl]. rewrite Hround. done.
  - fold (runOps init (concat (replicate (S n) (attemptOps client cap turn)))
            (runOps init (attemptOps client cap turn) c)).
    rewrite IH; [|done| |lia].
    + unfold context_at. rewrite Hround. cbn.
      rewrite <- app_assoc. done.
    + unfold context_at. rewrite Hround. cbn. rewrite length_app. cbn. lia.
Qed.

(** C10.  With a negative cap the condition of the trimming loop, a
    comparison in [size_t], is false for every history a deque can hold:
    the read installs the cap and returns the history as it is, the append
    adds its pair and removes nothing, and after [n] successful attempts of
    the client the history has grown by [n] pairs. *)
Theorem negative_cap_never_trims client cap turn c n :
  - 2 ^ 31 ≤ cap < 0 →
  let h := history (context_at init client c) in
  Z.of_nat (length h) + Z.of_nat n < 2 ^ 63 →
  (Z.of_nat (length h) >? to_size_t cap) = false
  ∧ contextRead init client cap c =
      (h, <[client := {| history := h; max_len := cap |}]> c)
  ∧ (max_len (context_at init client c) = cap →
     contextAppend init client turn c =
       <[client := {| history := h ++ [turn]; max_len := cap |}]> c)
  ∧ ((0 < n)%nat →
     runOps init (concat (replicate n (attemptOps client cap turn))) c !! client =
       Some {| history := h ++ replicate n turn; max_len := cap |}).
Proof.
  intros Hcap h Hlen. subst h.
  split; [apply trim_condition_negative; [done|lia]|].
  split.
  { unfold contextRead.
    case_bool_decide as Hne; cbn.
    - rewrite trim_front_negative by (done || lia). done.
    - rewrite Hne.
      rewrite trim_front_negative by (done || lia). done. }
  split.
  { intros Hmax. unfold contextAppend. cbn. rewrite Hmax.
    rewrite trim_front_negative; [done|done|].
    rewrite length_app. cbn. lia. }
  intros Hn. apply negative_cap_rounds; [done|lia|done].
Qed.
End ContextBound.

(* ----------------------------------------------------------------- *)
(** ** The matcher                                                    *)
(* ----------------------------------------------------------------- *)

(** The least number of code units a match of the pattern spans. *)
Fixpoint min_len (r : regex) : nat :=
  match r with
  | RLit lit => length lit
  | RCls _ => 1
  | RSeq r1 r2 => min_len r1 + min_len r2
  | RAlt r1 r2 => min_len r1 `min` min_len r2
  | RStar _ _ => 0
  | RGroup _ r1 => min_len r1
  end.

(** A match moved [d] code units to the right. *)
Definition shift_match (d : nat) (m : QRegularExpressionMatch)
  : QRegularExpressionMatch :=
  {| capturedStart := d + capturedStart m;
     capturedEnd := d + capturedEnd m;
     capturedTexts := capturedTexts m |}.

Section Matcher.
Implicit Types (r : regex) (s t : list Z) (m : QRegularExpressionMatch).

Lemma strip_prefix_Some lit : ∀ s s',
  strip_prefix lit s = Some s' ↔ s = lit ++ s'.
Proof.
  induction lit as [|a lit IH]; intros s s'; cbn.
  - split; [by intros [= ->]|by intros ->].
  - destruct s as [|b s]; [done|].
    destruct (Z.eqb_spec a b) as [->|Hne].
    + rewrite IH. split; [by intros ->|by intros [= ->]].
    + split; [done|]. intros [= -> _]. done.
Qed.

Lemma strip_prefix_app lit s : strip_prefix lit (lit ++ s) = Some s.
Proof. by apply strip_prefix_Some. Qed.

Lemma star_greedy_suffix {A} (p : Z → bool) (k : list Z → option A) x : ∀ s,
  star_greedy p s k = Some x →
  ∃ pre s', s = pre ++ s' ∧ k s' = Some x.
Proof.
  induction s as [|c s IH]; cbn.
  - intros Hk. by exists [], [].
  - destruct (p c).
    + destruct (star_greedy p s k) as [y|] eqn:Hs.
      * intros [= ->]. destruct (IH eq_refl) as (pre & s' & -> & Hk).
        by exists (c :: pre), s'.
      * intros Hk. by exists [], (c :: s).
    + intros Hk. by exists [], (c :: s).
Qed.

Lemma star_lazy_suffix {A} (p : Z → bool) (k : list Z → option A) x : ∀ s,
  star_lazy p s k = Some x →
  ∃ pre s', s = pre ++ s' ∧ k s' = Some x.
Proof.
  induction s as [|c s IH]; cbn.
  - destruct (k []) eqn:Hk; [|done]. intros [= ->]. by exists [], [].
  - destruct (k (c :: s)) eqn:Hk.
    + intros [= ->]. by exists [], (c :: s).
    + destruct (p c); [|done]. intros Hs.
      destruct (IH Hs) as (pre & s' & -> & Hk').
      by exists (c :: pre), s'.
Qed.

(** A successful run of the matcher ends in the continuation, on a suffix
    of the subject that leaves out at least [min_len r] code units. *)
Lemma exec_suffix r : ∀ s caps k x,
  exec r s caps k = Some x →
  ∃ pre s' caps', s = pre ++ s' ∧ (min_len r ≤ length pre)%nat
                  ∧ k s' caps' = Some x.
Proof.
  induction r as [lit|cl|r1 IH1 r2 IH2|r1 IH1 r2 IH2|g cl|n r1 IH1];
    intros s caps k x; cbn [exec min_len].
  - destruct (strip_prefix lit s) as [s'|] eqn:Hs; [|done].
    apply strip_prefix_Some in Hs as ->. intros Hk.
    by exists lit, s', caps.
  - destruct s as [|c s]; [done|]. destruct (cclass_mem cl c); [|done].
    intros Hk. exists [c], s, caps. done.
  - intros Hx. apply IH1 in Hx as (pre1 & s1 & caps1 & -> & Hl1 & Hx).
    apply IH2 in Hx as (pre2 & s2 & caps2 & -> & Hl2 & Hx).
    exists (pre1 ++ pre2), s2, caps2. rewrite length_app, <- app_assoc.
    split_and!; [done|lia|done].
  - destruct (exec r1 s caps k) as [y|] eqn:H1.
    + intros [= ->]. apply IH1 in H1 as (pre & s' & caps' & -> & Hl & Hx).
      exists pre, s', caps'. split_and!; [done|lia|done].
    + intros H2. apply IH2 in H2 as (pre & s' & caps' & -> & Hl & Hx).
      exists pre, s', caps'. split_and!; [done|lia|done].
  - destruct g.
    + intros Hx. apply star_greedy_suffix in Hx as (pre & s' & -> & Hx).
      exists pre, s', caps. split_and!; [done|lia|done].
    + intros Hx. apply star_lazy_suffix in Hx as (pre & s' & -> & Hx).
      exists pre, s', caps. split_and!; [done|lia|done].
  - intros Hx. apply IH1 in Hx as (pre & s' & caps' & -> & Hl & Hx).
    eexists pre, s', _. split_and!; [done|done|exact Hx].
Qed.

Lemma match_here_Some r off s m :
  match_here r off s = Some m →
  ∃ n, capturedStart m = off ∧ capturedEnd m = (off + n)%nat
       ∧ (min_len r ≤ n ≤ length s)%nat ∧ captured m 0 = take n s.
Proof.
  unfold match_here.
  destruct (exec r s ∅ _) as [[rest caps]|] eqn:Hx; [|done].
  intros [= <-]. apply exec_suffix in Hx as (pre & s' & caps' & -> & Hl & [= <- <-]).
  exists (length pre). cbn. unfold captured. cbn.
  rewrite length_app.
  replace (length pre + length s' - length s')%nat with (length pre) by lia.
  rewrite lookup_insert_eq. cbn. split_and!; [done|done|done|lia|reflexivity].
Qed.

Lemma match_here_shift r off s :
  match_here r off s = shift_match off <$> match_here r 0 s.
Proof.
  unfold match_here. destruct (exec r s ∅ _) as [[rest caps]|]; [|done].
  cbn. unfold shift_match. cbn. do 2 f_equal. lia.
Qed.

Lemma shift_match_shift d1 d2 m :
  shift_match d1 (shift_match d2 m) = shift_match (d1 + d2) m.
Proof. unfold shift_match. cbn. f_equal; lia. Qed.

Lemma shift_match_0 m : shift_match 0 m = m.
Proof. by destruct m. Qed.

Lemma search_shift r s : ∀ off,
  search r off s = shift_match off <$> search r 0 s.
Proof.
  induction s as [|c s IH]; intros off; cbn [search].
  - rewrite match_here_shift. by destruct (match_here r 0 []).
  - rewrite match_here_shift. destruct (match_here r 0 (c :: s)); [done|].
    cbn. rewrite (IH (S off)), (IH 1%nat).
    destruct (search r 0 s) as [m|]; [|done]. cbn.
    rewrite shift_match_shift. do 2 f_equal. lia.
Qed.

(** Nothing matches where [search] finds nothing. *)
Lemma search_None r s : ∀ off,
  search r off s = None → ∀ j, match_here r 0 (drop j s) = None.
Proof.
  induction s as [|c s IH]; intros off; cbn [search].
  - rewrite match_here_shift. destruct (match_here r 0 []) eqn:Hm; [done|].
    intros _ j. by rewrite drop_nil.
  - rewrite match_here_shift. destruct (match_here r 0 (c :: s)) eqn:Hm; [done|].
    intros Hs [|j]; [done|]. cbn. by apply (IH (S off)).
Qed.

(** The match [search] finds is the leftmost one. *)
Lemma search_Some r s m :
  search r 0 s = Some m →
  (capturedStart m ≤ length s)%nat
  ∧ (∀ j, (j < capturedStart m)%nat → match_here r 0 (drop j s) = None)
  ∧ match_here r (capturedStart m) (drop (capturedStart m) s) = Some m.
Proof.
  revert m. induction s as [|c s IH]; intros m; cbn [search].
  - destruct (match_here r 0 []) as [m'|] eqn:Hm; [|done]. intros [= <-].
    destruct (match_here_Some _ _ _ _ Hm) as (n & -> & _). cbn.
    split_and!; [lia|lia|done].
  - destruct (match_here r 0 (c :: s)) as [m'|] eqn:Hm.
    + intros [= <-].
      destruct (match_here_Some _ _ _ _ Hm) as (n & -> & _). cbn.
      split_and!; [lia|lia|done].
    + rewrite search_shift. destruct (search r 0 s) as [m'|] eqn:Hs; [|done].
      intros [= <-]. destruct (IH m' eq_refl) as (Hle & Hnone & Hhere). cbn.
      split_and!; [lia| |].
      * intros [|j] Hj; [done|]. cbn. apply Hnone. lia.
      * clear IH Hnone Hle. remember (capturedStart m') as a eqn:Ha. clear Ha.
        rewrite match_here_shift in Hhere |- *.
        destruct (match_here r 0 (drop a s)) as [m0|]; [|done].
        cbn in *. injection Hhere as <-. by rewrite shift_match_shift.
Qed.

Lemma search_intro r s i m :
  (∀ j, (j < i)%nat → match_here r 0 (drop j s) = None) →
  match_here r 0 (drop i s) = Some m →
  (i ≤ length s)%nat →
  search r 0 s = Some (shift_match i m).
Proof.
  revert i. induction s as [|c s IH]; intros i Hnone Hhere Hi.
  - cbn in Hi. assert (i = 0%nat) as -> by lia. cbn in *.
    rewrite Hhere. by rewrite shift_match_0.
  - destruct i as [|i].
    + cbn in *. rewrite Hhere. by rewrite shift_match_0.
    + cbn [search]. pose proof (Hnone 0%nat ltac:(lia)) as H0.
      cbn in H0. rewrite H0.
      rewrite search_shift, (IH i); cbn in *;
        [|intros j Hj; apply (Hnone (S j)); lia|done|lia].
      by rewrite shift_match_shift.
Qed.
End Matcher.

Section GlobalMatch.
Implicit Types (r : regex) (s t : list Z) (m : QRegularExpressionMatch).

Lemma globalMatch_from_shift r fuel : ∀ off s,
  globalMatch_from fuel r off s = shift_match off <$> globalMatch_from fuel r 0 s.
Proof.
  induction fuel as [|fuel IH]; intros off s; [done|].
  cbn [globalMatch_from]. rewrite (search_shift r s off).
  destruct (search r 0 s) as [m|]; [|done]. cbn.
  rewrite !Nat.sub_0_r.
  replace (off + capturedEnd m - off)%nat with (capturedEnd m) by lia.
  replace (off + capturedEnd m =? off + capturedStart m)%nat
    with (capturedEnd m =? capturedStart m)%nat
    by (destruct (Nat.eqb_spec (capturedEnd m) (capturedStart m));
        symmetry; [apply Nat.eqb_eq|apply Nat.eqb_neq]; lia).
  destruct (capturedEnd m =? capturedStart m)%nat; cbn; f_equal.
  - rewrite (IH (S (off + capturedEnd m))), (IH (S (capturedEnd m))).
    rewrite <- list_fmap_compose. apply list_fmap_ext. intros _ m' _. cbn.
    rewrite shift_match_shift. f_equal. lia.
  - rewrite (IH (off + capturedEnd m)%nat), (IH (capturedEnd m)).
    rewrite <- list_fmap_compose. apply list_fmap_ext. intros _ m' _. cbn.
    by rewrite shift_match_shift.
Qed.

Lemma search_progress r s m :
  (0 < min_len r)%nat → search r 0 s = Some m →
  (capturedStart m < capturedEnd m ≤ length s)%nat.
Proof.
  intros Hmin Hs. apply search_Some in Hs as (Hle & _ & Hhere).
  apply match_here_Some in Hhere as (n & _ & -> & Hn & _).
  rewrite length_drop in Hn. lia.
Qed.

(** Once the fuel exceeds the length of the subject its amount is
    immaterial. *)
Lemma globalMatch_from_fuel r fuel1 : ∀ fuel2 s,
  (0 < min_len r)%nat →
  (length s < fuel1)%nat → (length s < fuel2)%nat →
  globalMatch_from fuel1 r 0 s = globalMatch_from fuel2 r 0 s.
Proof.
  induction fuel1 as [|fuel1 IH]; intros fuel2 s Hmin H1 H2; [lia|].
  destruct fuel2 as [|fuel2]; [lia|]. cbn [globalMatch_from].
  destruct (search r 0 s) as [m|] eqn:Hs; [|done].
  pose proof (search_progress r s m Hmin Hs) as Hp.
  rewrite (proj2 (Nat.eqb_neq _ _)) by lia. f_equal.
  rewrite Nat.sub_0_r.
  rewrite (globalMatch_from_shift r fuel1), (globalMatch_from_shift r fuel2).
  f_equal. apply IH; [done|rewrite length_drop; lia|rewrite length_drop; lia].
Qed.

(** The matches of a pattern that spans at least one code unit: the
    leftmost one, then the matches of what follows it. *)
Lemma globalMatch_unfold r s :
  (0 < min_len r)%nat →
  globalMatch r s =
    match search r 0 s with
    | None => []
    | Some m => m :: (shift_match (capturedEnd m)
                        <$> globalMatch r (drop (capturedEnd m) s))
    end.
Proof.
  intros Hmin. unfold globalMatch at 1. cbn [globalMatch_from].
  destruct (search r 0 s) as [m|] eqn:Hs; [|done].
  pose proof (search_progress r s m Hmin Hs) as Hp.
  rewrite (proj2 (Nat.eqb_neq _ _)) by lia. f_equal.
  rewrite Nat.sub_0_r, globalMatch_from_shift. f_equal.
  apply globalMatch_from_fuel; [done|rewrite length_drop; lia|lia].
Qed.

Lemma globalMatch_length r s :
  (length (globalMatch r s) ≤ S (length s))%nat.
Proof.
  unfold globalMatch. generalize (S (length s)) as fuel, 0%nat as off.
  revert s. intros s fuel. revert s.
  induction fuel as [|fuel IH]; intros s off; cbn [globalMatch_from]; [cbn; lia|].
  destruct (search r off s) as [m|]; [|cbn; lia].
  destruct (capturedEnd m =? capturedStart m)%nat; cbn [length];
    apply le_n_S, IH.
Qed.

(** A loop over the matches whose step commutes with moving the subject:
    run on the matches of a suffix, moved into place, it yields the result of
    the loop on the suffix, moved likewise. *)
Lemma foldl_shifted {St : Type}
    (step : list Z → St → QRegularExpressionMatch → St)
    (move : list Z → nat → St → St) :
  (∀ s pre off st m,
     step s (move pre off st) (shift_match off m) =
       move pre off (step (drop off s) st m)) →
  ∀ ms s pre off st,
    foldl (step s) (move pre off st) (shift_match off <$> ms) =
      move pre off (foldl (step (drop off s)) st ms).
Proof.
  intros Hstep ms. induction ms as [|m ms IH]; intros s pre off st; [done|].
  cbn. rewrite Hstep. apply IH.
Qed.

Lemma mid_shift s off l n :
  mid s (off + l) n = mid (drop off s) l n.
Proof. unfold mid. by rewrite drop_drop. Qed.
End GlobalMatch.

(* ----------------------------------------------------------------- *)
(** ** The placeholder codec                                          *)
(* ----------------------------------------------------------------- *)

Section Numbers.
Implicit Types (n c : Z).

Lemma wrap_int_small z : - 2 ^ 31 ≤ z ≤ INT_MAX → wrap_int z = z.
Proof.
  unfold wrap_int, INT_MAX. intros Hz. rewrite Z.mod_small; lia.
Qed.

Lemma qs_inj a b : qs a = qs b → a = b.
Proof.
  unfold qs. revert b. induction a as [|x a IH]; intros [|y b]; cbn; try done.
  intros [= Hxy Hab]. f_equal; [|by apply IH].
  apply Nat2Z.inj in Hxy.
  rewrite <- (Ascii.ascii_nat_embedding x), <- (Ascii.ascii_nat_embedding y).
  by rewrite Hxy.
Qed.

Lemma to_int_proper z : Z.to_int z ≠ Decimal.Pos Decimal.Nil
                        ∧ Z.to_int z ≠ Decimal.Neg Decimal.Nil.
Proof.
  destruct z as [|p|p]; cbn; split; try done;
    intros [= Hp]; by apply DecimalPos.Unsigned.to_uint_nonnil in Hp.
Qed.

(** Two numbers with the same decimal form are equal. *)
Lemma number_inj a b : number a = number b → a = b.
Proof.
  unfold number. intros Hab%qs_inj.
  apply DecimalZ.to_int_inj.
  destruct (to_int_proper a) as [Ha1 Ha2], (to_int_proper b) as [Hb1 Hb2].
  pose proof (NilZero.isi _ Ha1 Ha2) as Ha.
  pose proof (NilZero.isi _ Hb1 Hb2) as Hb.
  rewrite Hab in Ha. rewrite Ha in Hb. by injection Hb.
Qed.

Lemma tokenKeyOf_inj a b : tokenKeyOf a = tokenKeyOf b → a = b.
Proof.
  unfold tokenKeyOf. intros Hab%app_inv_head.
  by apply app_inv_tail in Hab.
Qed.

Lemma token_key_inj a b :
  tokenKeyOf (number a) = tokenKeyOf (number b) → a = b.
Proof. intros Hab%tokenKeyOf_inj. by apply number_inj. Qed.

Definition is_digit (c : Z) : bool := cclass_mem CDigit c.

Lemma uint_digits d :
  forallb is_digit (qs (NilEmpty.string_of_uint d)) = true.
Proof. induction d; cbn; done. Qed.

(** The decimal form of a number that is not negative: digits, at least
    one. *)
Lemma number_digits n :
  0 ≤ n → number n ≠ [] ∧ forallb is_digit (number n) = true.
Proof.
  intros Hn. unfold number. destruct n as [|p|p]; [done| |lia].
  cbn [Z.to_int NilZero.string_of_int].
  pose proof (DecimalPos.Unsigned.to_uint_nonnil p) as Hnil.
  unfold NilZero.string_of_uint.
  destruct (Pos.to_uint p) eqn:Hp; try done;
    (split; [done|]); rewrite <- Hp; apply uint_digits.
Qed.
End Numbers.

Section Freeze.
Implicit Types (s buf : list Z) (ms : list QRegularExpressionMatch)
  (M : gmap (list Z) (list Z)) (c : Z).

Lemma FREEZE_REGEX_min_len : (0 < min_len FREEZE_REGEX)%nat.
Proof. cbn. lia. Qed.

(** The loop of [freezeEscapesLocal] over a list of matches, from any
    state. *)
Lemma freeze_fold s ms : ∀ buf lastEnd M c,
  0 ≤ c → c + Z.of_nat (length ms) ≤ INT_MAX →
  ∃ buf' lastEnd' M',
    foldl (freeze_step s) (buf, lastEnd, {| map := M; counter := c |}) ms =
      (buf', lastEnd', {| map := M'; counter := c + Z.of_nat (length ms) |})
    ∧ buf' ++ mid_end s lastEnd' = buf ++ placeholders s c lastEnd ms
    ∧ (∀ n m, ms !! n = Some m →
         M' !! tokenKeyOf (number (c + Z.of_nat n)) = Some (captured m 0))
    ∧ (∀ key, (∀ n, (n < length ms)%nat →
                 key ≠ tokenKeyOf (number (c + Z.of_nat n))) →
         M' !! key = M !! key)
    ∧ (∀ key, is_Some (M' !! key) →
         is_Some (M !! key)
         ∨ ∃ n, (n < length ms)%nat ∧ key = tokenKeyOf (number (c + Z.of_nat n))).
Proof.
  induction ms as [|m ms IH]; intros buf lastEnd M c Hc Hmax.
  - exists buf, lastEnd, M. cbn. rewrite Z.add_0_r.
    split_and!; [done|done|done|done|by left].
  - cbn [foldl length] in *. unfold freeze_step at 2. cbn [map counter].
    rewrite wrap_int_small by (unfold INT_MAX in *; lia).
    destruct (IH ((buf ++ mid s lastEnd (capturedStart m - lastEnd))
                  ++ qs " " ++ tokenKeyOf (number c) ++ qs " ")
                 (capturedEnd m)
                 (<[tokenKeyOf (number c) := captured m 0]> M) (c + 1))
      as (buf' & lastEnd' & M' & Hfold & Hbuf & Hget & Hother & Hdom); [lia|lia|].
    exists buf', lastEnd', M'. rewrite Hfold.
    replace (c + 1 + Z.of_nat (length ms)) with (c + Z.of_nat (S (length ms))) by lia.
    split_and!; [done| | | |].
    + rewrite Hbuf. cbn [placeholders]. by rewrite <- !app_assoc.
    + intros [|n] m' Hm'.
      * injection Hm' as <-. rewrite Z.add_0_r. rewrite Hother.
        { by rewrite lookup_insert_eq. }
        intros n _ Heq%token_key_inj. lia.
      * replace (c + Z.of_nat (S n)) with (c + 1 + Z.of_nat n) by lia.
        by apply Hget.
    + intros key Hkey. rewrite Hother.
      * apply lookup_insert_ne. intros <-. apply (Hkey 0%nat); [lia|].
        by rewrite Z.add_0_r.
      * intros n Hn. replace (c + 1 + Z.of_nat n) with (c + Z.of_nat (S n)) by lia.
        apply Hkey. lia.
    + intros key Hsome. destruct (Hdom key Hsome) as [HM|(n & Hn & ->)].
      * destruct (decide (tokenKeyOf (number c) = key)) as [<-|Hne].
        -- right. exists 0%nat. rewrite Z.add_0_r. split; [lia|done].
        -- left. by rewrite lookup_insert_ne in HM.
      * right. exists (S n). split; [lia|]. do 2 f_equal. lia.
Qed.

(** Successive matches lie one after the other, and each captures the
    text of the subject between its two ends. *)
Lemma globalMatch_scan r : ∀ len s,
  (0 < min_len r)%nat → (length s ≤ len)%nat →
  let ms := globalMatch r s in
  (∀ n m, ms !! n = Some m →
     (capturedStart m < capturedEnd m ≤ length s)%nat
     ∧ captured m 0 = mid s (capturedStart m) (capturedEnd m - capturedStart m))
  ∧ (∀ n m m', ms !! n = Some m → ms !! S n = Some m' →
       (capturedEnd m ≤ capturedStart m')%nat).
Proof.
  induction len as [|len IH]; intros s Hmin Hlen; cbn zeta;
    rewrite globalMatch_unfold by done;
    destruct (search r 0 s) as [m0|] eqn:Hs; try done;
    pose proof (search_progress r s m0 Hmin Hs) as Hp; [lia|].
  destruct (IH (drop (capturedEnd m0) s) Hmin) as [Hin Hord].
  { rewrite length_drop. lia. }
  cbn zeta in Hin, Hord.
  apply search_Some in Hs as (_ & _ & Hhere).
  apply match_here_Some in Hhere as (k & _ & Hend & Hk & Hcap).
  split.
  - intros [|n] m Hm.
    + injection Hm as <-. split; [lia|].
      rewrite Hcap. unfold mid. f_equal. lia.
    + change ((shift_match (capturedEnd m0)
                <$> globalMatch r (drop (capturedEnd m0) s)) !! n = Some m) in Hm.
      apply list_lookup_fmap_Some in Hm as (m1 & -> & Hm1).
      destruct (Hin n m1 Hm1) as [Hr Hc].
      rewrite length_drop in Hr. unfold captured in *. cbn. split; [lia|].
      rewrite Hc. unfold mid. rewrite drop_drop. f_equal. lia.
  - intros [|n] m m' Hm Hm'.
    + injection Hm as <-.
      change ((shift_match (capturedEnd m0)
                <$> globalMatch r (drop (capturedEnd m0) s)) !! 0%nat = Some m') in Hm'.
      apply list_lookup_fmap_Some in Hm' as (m1 & -> & Hm1). cbn. lia.
    + change ((shift_match (capturedEnd m0)
                <$> globalMatch r (drop (capturedEnd m0) s)) !! n = Some m) in Hm.
      change ((shift_match (capturedEnd m0)
                <$> globalMatch r (drop (capturedEnd m0) s)) !! S n = Some m') in Hm'.
      apply list_lookup_fmap_Some in Hm as (m1 & -> & Hm1).
      apply list_lookup_fmap_Some in Hm' as (m2 & -> & Hm2).
      cbn. pose proof (Hord n m1 m2 Hm1 Hm2). lia.
Qed.

(** [freezeEscapesLocal] on the whole input: the text it returns and the
    map it has filled. *)
Lemma freezeEscapesLocal_frozen s :
  Z.of_nat (length s) < INT_MAX →
  let ms := globalMatch FREEZE_REGEX s in
  ∃ M,
    freezeEscapesLocal s =
      (placeholders s 0 0 ms, {| map := M; counter := Z.of_nat (length ms) |})
    ∧ (∀ n m, ms !! n = Some m →
         M !! tokenKeyOf (number (Z.of_nat n)) = Some (captured m 0))
    ∧ (∀ key, is_Some (M !! key) →
         ∃ n, (n < length ms)%nat ∧ key = tokenKeyOf (number (Z.of_nat n))).
Proof.
  intros Hlen ms. unfold freezeEscapesLocal.
  pose proof (globalMatch_length FREEZE_REGEX s) as Hms. fold ms in Hms.
  destruct (freeze_fold s ms [] 0%nat ∅ 0)
    as (buf' & lastEnd' & M' & Hfold & Hbuf & Hget & _ & Hdom); [lia|lia|].
  fold ms. rewrite Hfold. exists M'. rewrite Hbuf. cbn [app].
  rewrite Z.add_0_l. split_and!; [done| |].
  - intros n m Hm. by apply (Hget n m).
  - intros key Hsome. destruct (Hdom key Hsome) as [Habs|Hn]; [|done].
    rewrite lookup_empty in Habs. by destruct Habs.
Qed.

(** C9.  The fragments matched in the input, in the order of the scan from
    the left, are numbered from 0: the text returned is the input with the
    fragment numbered [n] replaced by the key [[T_n]] between two spaces,
    the map holds that fragment, as it stands in the input, under the key
    [[T_n]], and it holds nothing else. *)
Theorem placeholder_determinism s :
  Z.of_nat (length s) < INT_MAX →
  let ms := globalMatch FREEZE_REGEX s in
  let '(rewritten, ctx) := freezeEscapesLocal s in
  rewritten = placeholders s 0 0 ms
  ∧ counter ctx = Z.of_nat (length ms)
  ∧ (∀ n m, ms !! n = Some m →
       map ctx !! tokenKeyOf (number (Z.of_nat n)) = Some (captured m 0)
       ∧ captured m 0 = mid s (capturedStart m) (capturedEnd m - capturedStart m)
       ∧ (capturedStart m < capturedEnd m ≤ length s)%nat)
  ∧ (∀ n m m', ms !! n = Some m → ms !! S n = Some m' →
       (capturedEnd m ≤ capturedStart m')%nat)
  ∧ (∀ key, is_Some (map ctx !! key) →
       ∃ n, (n < length ms)%nat ∧ key = tokenKeyOf (number (Z.of_nat n))).
Proof.
  intros Hlen ms.
  destruct (freezeEscapesLocal_frozen s Hlen) as (M & -> & Hget & Hdom).
  fold ms in Hget, Hdom. fold ms. cbn [map counter].
  destruct (globalMatch_scan FREEZE_REGEX (length s) s FREEZE_REGEX_min_len
              ltac:(lia)) as [Hin Hord].
  cbn zeta in Hin, Hord. fold ms in Hin, Hord.
  split_and!; [done|done| |exact Hord|exact Hdom].
  - intros n m Hm. destruct (Hin n m Hm) as [Hr Hc].
    split_and!; [|done|lia|lia]. by apply (Hget n m).
Qed.
End Freeze.

Section Thaw.
Implicit Types (s t buf : list Z) (ms : list QRegularExpressionMatch)
  (ctx : EscapeMap) (c : Z).

Lemma placeholders_shift ms : ∀ s c e l,
  placeholders s c (e + l) (shift_match e <$> ms) =
    placeholders (drop e s) c l ms.
Proof.
  induction ms as [|m ms IH]; intros s c e l; cbn [fmap list_fmap placeholders].
  - unfold mid_end. by rewrite drop_drop.
  - cbn [shift_match capturedStart capturedEnd].
    rewrite mid_shift, IH. do 2 f_equal. lia.
Qed.

(** The text with placeholders, fragment by fragment. *)
Lemma placeholders_unfold s c :
  placeholders s c 0 (globalMatch FREEZE_REGEX s) =
    match search FREEZE_REGEX 0 s with
    | None => s
    | Some m =>
        take (capturedStart m) s
        ++ qs " " ++ tokenKeyOf (number c) ++ qs " "
        ++ placeholders (drop (capturedEnd m) s) (c + 1) 0
             (globalMatch FREEZE_REGEX (drop (capturedEnd m) s))
    end.
Proof.
  rewrite globalMatch_unfold by exact FREEZE_REGEX_min_len.
  destruct (search FREEZE_REGEX 0 s) as [m|]; [|done].
  cbn [placeholders].
  rewrite <- (Nat.add_0_r (capturedEnd m)) at 1.
  rewrite placeholders_shift. unfold mid. by rewrite Nat.sub_0_r.
Qed.

Lemma THAW_REGEX_min_len : (0 < min_len THAW_REGEX)%nat.
Proof. cbn. lia. Qed.

(** What [thawEscapesLocal] puts in place of a match. *)
Definition restored (ctx : EscapeMap) (m : QRegularExpressionMatch) : list Z :=
  match map ctx !! tokenKeyOf (captured m 1) with
  | Some original => original
  | None => tokenKeyOf (captured m 1)
  end.

Definition move_thaw (pre : list Z) (off : nat) (st : list Z * nat)
  : list Z * nat := (pre ++ st.1, (off + st.2)%nat).

Lemma thaw_step_move ctx s pre off st m :
  thaw_step s ctx (move_thaw pre off st) (shift_match off m) =
    move_thaw pre off (thaw_step (drop off s) ctx st m).
Proof.
  destruct st as [buf l]. unfold thaw_step, move_thaw.
  cbn [fst snd shift_match capturedStart capturedEnd].
  rewrite mid_shift.
  replace (off + capturedStart m - (off + l))%nat
    with (capturedStart m - l)%nat by lia.
  unfold captured. cbn [capturedTexts].
  destruct (map ctx !! _); cbn [fst snd]; by rewrite !app_assoc.
Qed.

(** [thawEscapesLocal], match by match. *)
Lemma thaw_unfold t ctx :
  thawEscapesLocal t ctx =
    match search THAW_REGEX 0 t with
    | None => t
    | Some m =>
        take (capturedStart m) t ++ restored ctx m
        ++ thawEscapesLocal (drop (capturedEnd m) t) ctx
    end.
Proof.
  unfold thawEscapesLocal at 1.
  rewrite globalMatch_unfold by exact THAW_REGEX_min_len.
  destruct (search THAW_REGEX 0 t) as [m|]; [|done].
  cbn [foldl].
  replace (thaw_step t ctx ([], 0%nat) m)
    with (move_thaw (take (capturedStart m) t ++ restored ctx m)
            (capturedEnd m) ([], 0%nat)).
  2:{ unfold thaw_step, move_thaw, restored, mid. cbn [fst snd app drop].
      rewrite Nat.sub_0_r, Nat.add_0_r, app_nil_r.
      by destruct (map ctx !! _). }
  rewrite (foldl_shifted (λ s, thaw_step s ctx) move_thaw)
    by (intros; apply thaw_step_move).
  unfold thawEscapesLocal.
  destruct (foldl _ _ _) as [buf l]. unfold move_thaw, mid_end. cbn.
  rewrite <- !app_assoc. by rewrite drop_drop.
Qed.
End Thaw.

(** The code units of the literals in the goal. *)
Ltac qs_eval :=
  repeat match goal with
  | |- context [qs ?x] =>
      let v := eval vm_compute in (qs x) in change (qs x) with v
  end.

Section Tokens.
Implicit Types (s t u g : list Z).

Definition is_space (c : Z) : bool := cclass_mem CSpace c.

Lemma dropWhile_app_all p ws u :
  forallb p ws = true → dropWhile p (ws ++ u) = dropWhile p u.
Proof.
  induction ws as [|c ws IH]; [done|]. cbn.
  destruct (p c); [|done]. apply IH.
Qed.

Lemma dropWhile_app_stop p g u :
  dropWhile p g ≠ [] → dropWhile p (g ++ u) = dropWhile p g ++ u.
Proof.
  induction g as [|c g IH]; [done|]. cbn. destruct (p c); [apply IH|done].
Qed.

Lemma dropWhile_head p c u : p c = false → dropWhile p (c :: u) = c :: u.
Proof. cbn. by intros ->. Qed.

Lemma dropWhile_suffix p s : ∃ pre, s = pre ++ dropWhile p s ∧ forallb p pre = true.
Proof.
  induction s as [|c s (pre & Hs & Hp)]; [by exists []|]. cbn.
  destruct (p c) eqn:Hc; [|by exists []].
  exists (c :: pre). cbn. rewrite Hc, Hp. split; [by f_equal|done].
Qed.

Lemma dropWhile_idem (f : Z → bool) s :
  dropWhile f (dropWhile f s) = dropWhile f s.
Proof.
  induction s as [|c s IH]; [done|]. cbn.
  destruct (f c) eqn:Hc; [done|]. cbn. by rewrite Hc.
Qed.

Lemma dropWhile_head_keeps (f : Z → bool) s c s' :
  dropWhile f s = c :: s' → f c = false.
Proof.
  induction s as [|d s IH]; [done|]. cbn.
  destruct (f d) eqn:Hd; [done|]. by intros [= -> _].
Qed.

Lemma star_greedy_max {A} (p : Z → bool) (k : list Z → option A) s :
  (∀ c v, p c = true → k (c :: v) = None) →
  star_greedy p s k = k (dropWhile p s).
Proof.
  intros Hk. induction s as [|c s IH]; [done|]. cbn.
  destruct (p c) eqn:Hc; [|done].
  rewrite IH. destruct (k (dropWhile p s)); [done|]. by apply Hk.
Qed.

Lemma star_greedy_total {A} (p : Z → bool) (f : list Z → A) s :
  star_greedy p s (λ s', Some (f s')) = Some (f (dropWhile p s)).
Proof.
  induction s as [|c s IH]; [done|]. cbn.
  destruct (p c); [|done]. by rewrite IH.
Qed.

(** The placeholder at the head of [u]: its digits and what follows it. *)
Definition token_parse (u : list Z) : option (list Z * list Z) :=
  match strip_prefix (qs "[T_") u with
  | Some (c :: s3) =>
      if is_digit c then
        match strip_prefix (qs "]") (dropWhile is_digit s3) with
        | Some s5 =>
            Some (take (S (length s3) - length (dropWhile is_digit s3)) (c :: s3), s5)
        | None => None
        end
      else None
  | _ => None
  end.

(** The match of the pattern of [thawEscapesLocal] at the head of [u]. *)
Definition thaw_parse (u : list Z) : option (list Z * list Z) :=
  match token_parse (dropWhile is_space u) with
  | Some (ds, s5) => Some (ds, dropWhile is_space s5)
  | None => None
  end.

Lemma exec_seq r1 r2 s caps k :
  exec (RSeq r1 r2) s caps k = exec r1 s caps (λ s' caps', exec r2 s' caps' k).
Proof. reflexivity. Qed.

Lemma exec_lit lit s caps k :
  exec (RLit lit) s caps k =
    match strip_prefix lit s with Some s' => k s' caps | None => None end.
Proof. reflexivity. Qed.

Lemma exec_cls cl s caps k :
  exec (RCls cl) s caps k =
    match s with
    | c :: s' => if cclass_mem cl c then k s' caps else None
    | [] => None
    end.
Proof. reflexivity. Qed.

Lemma exec_alt r1 r2 s caps k :
  exec (RAlt r1 r2) s caps k =
    match exec r1 s caps k with
    | Some x => Some x
    | None => exec r2 s caps k
    end.
Proof. reflexivity. Qed.

Lemma exec_star_greedy cl s caps k :
  exec (RStar true cl) s caps k = star_greedy (cclass_mem cl) s (λ s', k s' caps).
Proof. reflexivity. Qed.

Lemma exec_star_lazy cl s caps k :
  exec (RStar false cl) s caps k = star_lazy (cclass_mem cl) s (λ s', k s' caps).
Proof. reflexivity. Qed.

Lemma exec_group n r s caps k :
  exec (RGroup n r) s caps k =
    exec r s caps
      (λ s' caps', k s' (<[n := take (length s - length s') s]> caps')).
Proof. reflexivity. Qed.

Lemma exec_digits_then s2 caps
    (k : list Z → gmap nat (list Z) → option (list Z * gmap nat (list Z))) :
  (∀ c v caps', is_digit c = true → k (c :: v) caps' = None) →
  exec (RGroup 1 (RPlus true CDigit)) s2 caps k =
    match s2 with
    | c :: s3 =>
        if is_digit c then
          k (dropWhile is_digit s3)
            (<[1%nat := take (length s2 - length (dropWhile is_digit s3)) s2]> caps)
        else None
    | [] => None
    end.
Proof.
  intros Hk. unfold RPlus. rewrite exec_group, exec_seq, exec_cls.
  destruct s2 as [|c s3]; [done|].
  fold (is_digit c). destruct (is_digit c); [|done].
  rewrite exec_star_greedy. rewrite (star_greedy_max is_digit); [done|].
  intros c' v Hc'. by apply Hk.
Qed.

Lemma lit_close_not_digit c v :
  is_digit c = true → strip_prefix (qs "]") (c :: v) = None.
Proof.
  intros Hc. qs_eval. cbn.
  destruct (Z.eqb_spec 93 c) as [<-|]; [by vm_compute in Hc|done].
Qed.

Lemma lit_open_not_space c v :
  is_space c = true → strip_prefix (qs "[T_") (c :: v) = None.
Proof.
  intros Hc. qs_eval. cbn.
  destruct (Z.eqb_spec 91 c) as [<-|]; [by vm_compute in Hc|done].
Qed.

Lemma exec_TOKEN_REGEX u :
  exec TOKEN_REGEX u ∅ (λ s' caps, Some (s', caps)) =
    match token_parse u with
    | Some (_, s5) => Some (s5, ∅)
    | None => None
    end.
Proof.
  unfold TOKEN_REGEX, token_parse, RPlus.
  rewrite exec_seq, exec_lit.
  destruct (strip_prefix (qs "[T_") u) as [[|c s3]|]; [done| |done].
  rewrite !exec_seq, exec_cls.
  fold (is_digit c). destruct (is_digit c); [|done].
  rewrite exec_star_greedy, (star_greedy_max is_digit).
  - rewrite exec_lit.
    by destruct (strip_prefix (qs "]") (dropWhile is_digit s3)).
  - intros c' v Hc'. by rewrite exec_lit, lit_close_not_digit.
Qed.

Lemma exec_THAW_REGEX u :
  exec THAW_REGEX u ∅ (λ s' caps, Some (s', caps)) =
    match thaw_parse u with
    | Some (ds, rest) => Some (rest, {[1%nat := ds]})
    | None => None
    end.
Proof.
  unfold THAW_REGEX, thaw_parse, token_parse.
  rewrite exec_seq, exec_star_greedy, (star_greedy_max is_space).
  2:{ intros c v Hc. by rewrite exec_seq, exec_lit, lit_open_not_space. }
  rewrite exec_seq, exec_lit.
  destruct (strip_prefix (qs "[T_") (dropWhile is_space u)) as [s2|]; [|done].
  rewrite exec_seq, exec_digits_then.
  2:{ intros c v caps' Hc. by rewrite exec_seq, exec_lit, lit_close_not_digit. }
  destruct s2 as [|c s3]; [done|]. destruct (is_digit c); [|done].
  rewrite exec_seq, exec_lit.
  destruct (strip_prefix (qs "]") (dropWhile is_digit s3)) as [s5|]; [|done].
  rewrite exec_star_greedy.
  rewrite (star_greedy_total is_space (λ s', (s', _))). cbn [length].
  by rewrite insert_empty.
Qed.

Lemma token_parse_suffix u ds s5 :
  token_parse u = Some (ds, s5) → u = qs "[T_" ++ ds ++ qs "]" ++ s5.
Proof.
  unfold token_parse.
  destruct (strip_prefix (qs "[T_") u) as [[|c s3]|] eqn:Hu; [done| |done].
  apply strip_prefix_Some in Hu as ->.
  destruct (is_digit c); [|done].
  destruct (strip_prefix (qs "]") (dropWhile is_digit s3)) as [s5'|] eqn:H5; [|done].
  apply strip_prefix_Some in H5. intros [= <- <-]. f_equal.
  destruct (dropWhile_suffix is_digit s3) as (pre & Hs3 & _).
  remember (dropWhile is_digit s3) as d eqn:Hd. clear Hd. subst d s3.
  rewrite length_app.
  replace (S (length pre + length (qs "]" ++ s5')) - length (qs "]" ++ s5'))%nat
    with (length (c :: pre)) by (cbn [length]; lia).
  rewrite (app_comm_cons pre), take_app_length. done.
Qed.

Lemma thaw_parse_suffix u ds rest :
  thaw_parse u = Some (ds, rest) →
  ∃ pre, u = pre ++ rest ∧ (0 < length pre)%nat.
Proof.
  unfold thaw_parse.
  destruct (token_parse (dropWhile is_space u)) as [[ds' s5]|] eqn:Ht; [|done].
  intros [= <- <-]. apply token_parse_suffix in Ht.
  destruct (dropWhile_suffix is_space u) as (pre1 & Hu & _).
  destruct (dropWhile_suffix is_space s5) as (pre2 & H5 & _).
  exists (pre1 ++ qs "[T_" ++ ds' ++ qs "]" ++ pre2).
  split.
  - rewrite Hu at 1. rewrite Ht. rewrite H5 at 1. by rewrite <- !app_assoc.
  - rewrite !length_app. cbn. lia.
Qed.

(** The match of the pattern of [thawEscapesLocal] at position [off]. *)
Lemma match_here_THAW off u :
  match_here THAW_REGEX off u =
    match thaw_parse u with
    | Some (ds, rest) =>
        Some {| capturedStart := off;
                capturedEnd := off + (length u - length rest);
                capturedTexts :=
                  <[0%nat := take (length u - length rest) u]> {[1%nat := ds]} |}
    | None => None
    end.
Proof.
  unfold match_here. rewrite exec_THAW_REGEX.
  by destruct (thaw_parse u) as [[ds rest]|].
Qed.

Lemma match_here_TOKEN u :
  match_here TOKEN_REGEX 0 u = None ↔ token_parse u = None.
Proof.
  unfold match_here. rewrite exec_TOKEN_REGEX.
  by destruct (token_parse u) as [[ds rest]|].
Qed.
End Tokens.

(** Comparisons of two literals in the goal, decided. *)
Ltac eqb_eval :=
  repeat match goal with
  | |- context [Z.eqb ?a ?b] =>
      let v := eval vm_compute in (Z.eqb a b) in
      match v with
      | true => change (Z.eqb a b) with true
      | false => change (Z.eqb a b) with false
      end
  end.

Section TokenShape.
Implicit Types (s t u g ds : list Z).

Lemma dropWhile_nil_all p l : dropWhile p l = [] → forallb p l = true.
Proof.
  induction l as [|c l IH]; [done|]. cbn. destruct (p c); [exact IH|done].
Qed.

(** A placeholder as [freezeEscapesLocal] writes it is read back whole. *)
Lemma token_parse_key ds rest :
  ds ≠ [] → forallb is_digit ds = true →
  token_parse (tokenKeyOf ds ++ rest) = Some (ds, rest).
Proof.
  intros Hne Hds. unfold token_parse, tokenKeyOf.
  rewrite <- !app_assoc, strip_prefix_app.
  destruct ds as [|c ds']; [done|]. cbn [app].
  cbn [forallb] in Hds. apply andb_prop in Hds as [Hc Hds']. rewrite Hc.
  rewrite (dropWhile_app_all _ ds') by done.
  change (qs "]" ++ rest) with (93 :: rest).
  rewrite dropWhile_head by done.
  change (strip_prefix (qs "]") (93 :: rest)) with (Some rest).
  rewrite length_app. cbn [length].
  replace (S (length ds' + S (length rest)) - S (length rest))%nat
    with (length (c :: ds')) by (cbn [length]; lia).
  by rewrite (app_comm_cons ds'), take_app_length.
Qed.

Lemma tokenKeyOf_head ds rest :
  tokenKeyOf ds ++ rest = 91 :: 84 :: 95 :: ds ++ 93 :: rest.
Proof. unfold tokenKeyOf. by rewrite <- !app_assoc. Qed.

Lemma thaw_parse_key ws ds rest :
  forallb is_space ws = true → ds ≠ [] → forallb is_digit ds = true →
  thaw_parse (ws ++ tokenKeyOf ds ++ rest) = Some (ds, dropWhile is_space rest).
Proof.
  intros Hws Hne Hds. unfold thaw_parse.
  rewrite dropWhile_app_all by done.
  rewrite tokenKeyOf_head, (dropWhile_head is_space 91) by done.
  rewrite <- tokenKeyOf_head. by rewrite token_parse_key.
Qed.
End TokenShape.

Section Gaps.
Implicit Types (s t u g : list Z).

Lemma strip_prefix_app_inv lit : ∀ g x X r,
  Forall (λ a, a ≠ x) lit →
  strip_prefix lit (g ++ x :: X) = Some r →
  ∃ g', g = lit ++ g' ∧ r = g' ++ x :: X.
Proof.
  induction lit as [|a lit IH]; intros g x X r Hlit; cbn.
  - intros [= <-]. by exists g.
  - apply Forall_cons in Hlit as [Hax Hlit].
    destruct g as [|b g]; cbn.
    + destruct (Z.eqb_spec a x); [done|done].
    + destruct (Z.eqb_spec a b) as [->|]; [|done].
      intros Hr. destruct (IH g x X r Hlit Hr) as (g' & -> & ->).
      by exists g'.
Qed.

(** A placeholder that is read before a space ends before that space: it
    is read as well when something else follows. *)
Lemma token_parse_local g X Y :
  token_parse (g ++ 32 :: X) ≠ None → token_parse (g ++ Y) ≠ None.
Proof.
  unfold token_parse.
  destruct (strip_prefix (qs "[T_") (g ++ 32 :: X)) as [s2|] eqn:H2; [|done].
  apply strip_prefix_app_inv in H2 as (g3 & -> & ->).
  2:{ qs_eval. repeat constructor; done. }
  rewrite <- app_assoc, strip_prefix_app.
  destruct g3 as [|c g4]; [done|]. cbn [app].
  destruct (is_digit c); [|done].
  destruct (decide (dropWhile is_digit g4 = [])) as [Hdw|Hdw].
  - apply dropWhile_nil_all in Hdw.
    rewrite (dropWhile_app_all _ g4) by done.
    rewrite (dropWhile_head is_digit 32) by done. done.
  - rewrite !dropWhile_app_stop by done.
    generalize (dropWhile is_digit g4) as l. intros l.
    destruct (strip_prefix (qs "]") (l ++ 32 :: X)) as [s5|] eqn:H5; [|done].
    apply strip_prefix_app_inv in H5 as (r' & -> & ->).
    2:{ qs_eval. repeat constructor; done. }
    rewrite <- (app_assoc (qs "]") r' Y), strip_prefix_app. done.
Qed.

Lemma dropWhile_is_drop p l : ∃ k, dropWhile p l = drop k l.
Proof.
  destruct (dropWhile_suffix p l) as (pre & Hl & _).
  exists (length pre). rewrite Hl at 2. by rewrite drop_app_length.
Qed.

Lemma dropWhile_last p l c :
  last l = Some c → p c = false → dropWhile p l ≠ [].
Proof.
  intros Hlast Hc Hnil. apply dropWhile_nil_all in Hnil.
  rewrite forallb_forall in Hnil.
  rewrite Hnil in Hc; [done|].
  apply list_elem_of_In. rewrite last_lookup in Hlast.
  by apply list_elem_of_lookup_2 in Hlast.
Qed.

(** No match of the pattern of [thawEscapesLocal] starts in a stretch [g]
    that holds no placeholder and ends on a character that is no white
    space, whatever follows the space after it. *)
Lemma gap_no_thaw_match g Y X c :
  last g = Some c → is_space c = false →
  (∀ j, token_parse (drop j g ++ Y) = None) →
  ∀ j, (j < length g)%nat → thaw_parse (drop j g ++ 32 :: X) = None.
Proof.
  intros Hlast Hc Htok j Hj. unfold thaw_parse.
  assert (last (drop j g) = Some c) as Hlast'.
  { rewrite last_lookup in Hlast |- *. rewrite lookup_drop, length_drop.
    rewrite <- Hlast. f_equal. lia. }
  pose proof (dropWhile_last is_space _ c Hlast' Hc) as Hne.
  rewrite dropWhile_app_stop by done.
  destruct (dropWhile_is_drop is_space (drop j g)) as [k Hk].
  rewrite Hk, drop_drop in Hne |- *.
  destruct (token_parse (drop (j + k) g ++ 32 :: X)) as [[ds r]|] eqn:Ht; [|done].
  exfalso. apply (token_parse_local (drop (j + k) g) X Y); [by rewrite Ht|apply Htok].
Qed.

(** The pattern of [freezeEscapesLocal] matches wherever a tab, a line
    feed or a carriage return stands. *)
Lemma freeze_matches_control c u :
  c = 9 ∨ c = 10 ∨ c = 13 → match_here FREEZE_REGEX 0 (c :: u) ≠ None.
Proof.
  intros Hc. unfold match_here.
  destruct (exec FREEZE_REGEX (c :: u) ∅ _) as [[rest caps]|] eqn:Hx; [done|].
  exfalso. revert Hx. unfold FREEZE_REGEX, RPlus.
  rewrite !exec_alt, !exec_seq, !exec_lit. qs_eval.
  destruct Hc as [-> | [-> | ->]]; cbn [strip_prefix]; eqb_eval; try done.
  destruct u as [|d u]; [done|].
  destruct (10 =? d); done.
Qed.
End Gaps.

Section RoundTrip.
Implicit Types (s t u g : list Z) (ctx : EscapeMap) (c : Z).

Lemma search_None_intro r s :
  (∀ j, match_here r 0 (drop j s) = None) → search r 0 s = None.
Proof.
  intros Hnone. destruct (search r 0 s) as [m|] eqn:Hs; [|done].
  apply search_Some in Hs as (_ & _ & Hhere).
  rewrite match_here_shift, Hnone in Hhere. done.
Qed.

Lemma is_space_cases c :
  is_space c = true → is_blank c = true ∨ c = 9 ∨ c = 10 ∨ c = 13.
Proof.
  unfold is_space, is_blank, cclass_mem. intros Hc.
  destruct (Z.eqb_spec c 32); [by left|].
  destruct (Z.eqb_spec c 11); [by left|].
  destruct (Z.eqb_spec c 12); [by left|].
  right. cbn in Hc. lia.
Qed.

(** Where no placeholder stands, the pattern of [thawEscapesLocal] finds
    nothing. *)
Lemma no_token_no_thaw s :
  (∀ j, token_parse (drop j s) = None) → ∀ j, thaw_parse (drop j s) = None.
Proof.
  intros Htok j. unfold thaw_parse.
  destruct (dropWhile_is_drop is_space (drop j s)) as [k ->].
  by rewrite drop_drop, Htok.
Qed.

Lemma thaw_without_token s ctx :
  (∀ j, token_parse (drop j s) = None) → thawEscapesLocal s ctx = s.
Proof.
  intros Htok. rewrite thaw_unfold, search_None_intro; [done|].
  intros j. rewrite match_here_THAW. by rewrite no_token_no_thaw.
Qed.

(** [thawEscapesLocal] at the first placeholder of a text: what stands
    before it is kept, the placeholder and the white space around it give
    way to the fragment, and the rest is thawed from the first character
    that is no white space. *)
Lemma thaw_token_step t g ws ds rest0 ctx orig :
  t = g ++ ws ++ tokenKeyOf ds ++ rest0 →
  (∀ j, (j < length g)%nat → thaw_parse (drop j t) = None) →
  forallb is_space ws = true → ds ≠ [] → forallb is_digit ds = true →
  map ctx !! tokenKeyOf ds = Some orig →
  thawEscapesLocal t ctx =
    g ++ orig ++ thawEscapesLocal (dropWhile is_space rest0) ctx.
Proof.
  intros Ht Hgap Hws Hne Hds Hmap.
  pose proof (thaw_parse_key ws ds rest0 Hws Hne Hds) as Hparse.
  destruct (thaw_parse_suffix _ _ _ Hparse) as (pre & Hpre & _).
  assert (drop (length g) t = ws ++ tokenKeyOf ds ++ rest0) as Hdrop.
  { rewrite Ht. by rewrite drop_app_length. }
  rewrite thaw_unfold.
  rewrite (search_intro THAW_REGEX t (length g)
             {| capturedStart := 0;
                capturedEnd := 0 + (length (ws ++ tokenKeyOf ds ++ rest0)
                                    - length (dropWhile is_space rest0));
                capturedTexts :=
                  <[0%nat := take (length (ws ++ tokenKeyOf ds ++ rest0)
                                   - length (dropWhile is_space rest0))
                               (ws ++ tokenKeyOf ds ++ rest0)]> {[1%nat := ds]} |}).
  - cbn [shift_match capturedStart capturedEnd capturedTexts].
    unfold restored, captured. cbn [capturedTexts shift_match].
    rewrite lookup_insert_ne by done. rewrite lookup_singleton_eq.
    cbn [default from_option id]. rewrite Hmap, Nat.add_0_r. f_equal.
    { rewrite Ht. by rewrite take_app_length. }
    do 2 f_equal. rewrite Ht, Hpre.
    rewrite length_app, drop_app_add'.
    2:{ lia. }
    replace (0 + (length pre + length (dropWhile is_space rest0)
                  - length (dropWhile is_space rest0)))%nat
      with (length pre) by lia.
    by rewrite drop_app_length.
  - intros j Hj. rewrite match_here_THAW. by rewrite Hgap.
  - rewrite Hdrop, match_here_THAW, Hparse. done.
  - rewrite Ht, length_app. lia.
Qed.
End RoundTrip.

Section RoundTripMain.
Implicit Types (s t u g : list Z) (ctx : EscapeMap) (c : Z).

Definition frozen (c : Z) (s : list Z) : list Z :=
  placeholders s c 0 (globalMatch FREEZE_REGEX s).

Lemma is_blank_at_drop s e i :
  is_blank_at (drop e s) i = is_blank_at s (e + i).
Proof. unfold is_blank_at. by rewrite lookup_drop. Qed.

Lemma blank_beside_shift s e m :
  blank_beside s (shift_match e m) = false → blank_beside (drop e s) m = false.
Proof.
  unfold blank_beside. cbn [shift_match capturedStart capturedEnd].
  rewrite is_blank_at_drop.
  destruct (capturedStart m) as [|i].
  - intros [_ ->]%orb_false_elim. done.
  - rewrite is_blank_at_drop.
    replace (e + S i)%nat with (S (e + i)) by lia. done.
Qed.

Lemma split_at_match s a k :
  take a s ++ take k (drop a s) ++ drop (a + k) s = s.
Proof.
  rewrite <- (take_drop a s) at 4. f_equal.
  rewrite <- (take_drop k (drop a s)) at 2. by rewrite drop_drop.
Qed.

Lemma head_not_space s c1 s1 :
  s = c1 :: s1 → is_blank_at s 0 = false →
  match_here FREEZE_REGEX 0 s = None → is_space c1 = false.
Proof.
  intros -> Hb Hm. destruct (is_space c1) eqn:Hsp; [|done].
  apply is_space_cases in Hsp as [Hbl|Hctl].
  - unfold is_blank_at in Hb. cbn in Hb. congruence.
  - by apply (freeze_matches_control c1 s1) in Hctl.
Qed.

Lemma thaw_frozen len : ∀ s c ctx,
  (length s ≤ len)%nat → 0 ≤ c →
  (∀ n m, globalMatch FREEZE_REGEX s !! n = Some m →
     map ctx !! tokenKeyOf (number (c + Z.of_nat n)) = Some (captured m 0)) →
  (∀ j, token_parse (drop j s) = None) →
  Forall (λ m, blank_beside s m = false) (globalMatch FREEZE_REGEX s) →
  thawEscapesLocal (frozen c s) ctx = s
  ∧ (is_blank_at s 0 = false →
     thawEscapesLocal (dropWhile is_space (frozen c s)) ctx = s).
Proof.
  induction len as [|len IH]; intros s c ctx Hlen Hc Hmap Htok Hsafe;
    unfold frozen; rewrite placeholders_unfold;
    rewrite globalMatch_unfold in Hmap, Hsafe by exact FREEZE_REGEX_min_len;
    destruct (search FREEZE_REGEX 0 s) as [m|] eqn:Hs.
  1,3: pose proof (search_progress _ _ _ FREEZE_REGEX_min_len Hs) as Hp.
  1: lia.
  2,3: (split; [by apply thaw_without_token|]; intros Hhead;
        destruct s as [|c1 s1]; [by apply thaw_without_token|];
        rewrite dropWhile_head; [by apply thaw_without_token|];
        apply (head_not_space (c1 :: s1) c1 s1); [done|done|];
        apply (search_None _ _ _ Hs 0%nat)).
  apply search_Some in Hs as (_ & Hnone & Hhere).
  apply match_here_Some in Hhere as (k & _ & Hend & Hk & Hcap).
  apply Forall_cons in Hsafe as [Hb Hsafe].
  pose proof (Hmap 0%nat m eq_refl) as Hm0. rewrite Z.add_0_r in Hm0.
  set (a := capturedStart m) in *. set (e := capturedEnd m) in *.
  (* the rest of the input, by induction *)
  destruct (IH (drop e s) (c + 1) ctx) as [_ IH2].
  { rewrite length_drop. lia. }
  { lia. }
  { intros n m' Hm'.
    replace (c + 1 + Z.of_nat n) with (c + Z.of_nat (S n)) by lia.
    rewrite (Hmap (S n) (shift_match e m')); [done|].
    change ((shift_match e <$> globalMatch FREEZE_REGEX (drop e s)) !! n
            = Some (shift_match e m')).
    by apply list_lookup_fmap_Some_2. }
  { intros j. rewrite drop_drop. apply Htok. }
  { apply Forall_fmap in Hsafe. eapply Forall_impl; [exact Hsafe|].
    intros m' Hm'. by apply blank_beside_shift. }
  fold (frozen (c + 1) (drop e s)) in *.
  assert (is_blank_at s e = false) as Hafter.
  { unfold blank_beside in Hb. by apply orb_false_elim in Hb as [_ ?]. }
  rewrite is_blank_at_drop, Nat.add_0_r in IH2. specialize (IH2 Hafter).
  destruct (number_digits c Hc) as [Hne Hds].
  assert (take a s ++ captured m 0 ++ drop e s = s) as Hsplit.
  { rewrite Hcap, Hend. apply split_at_match. }
  (* no placeholder is met before the end of the gap *)
  assert (∀ X j, (j < a)%nat →
            thaw_parse (drop j (take a s ++ 32 :: X)) = None) as Hgap.
  { intros X j Hj.
    destruct (lookup_lt_is_Some_2 s (a - 1)) as [c0 Hc0]; [lia|].
    rewrite drop_app_le by (rewrite length_take; lia).
    apply (gap_no_thaw_match (take a s) (drop a s) X c0).
    - rewrite last_lookup, length_take.
      replace (Init.Nat.pred (a `min` length s)) with (a - 1)%nat by lia.
      rewrite lookup_take_lt by lia. done.
    - destruct (is_space c0) eqn:Hsp; [|done].
      apply is_space_cases in Hsp as [Hbl|Hctl].
      + unfold blank_beside in Hb. apply orb_false_elim in Hb as [Hb _].
        fold a in Hb. destruct a as [|i]; [lia|].
        unfold is_blank_at in Hb.
        replace (S i - 1)%nat with i in Hc0 by lia. rewrite Hc0 in Hb. congruence.
      + exfalso. apply (freeze_matches_control c0 (drop a s)) in Hctl.
        apply Hctl. rewrite <- (Hnone (a - 1)%nat) by lia. f_equal.
        rewrite (drop_S s c0 (a - 1)) by done. do 2 f_equal. lia.
    - intros j'. destruct (decide (j' ≤ a)%nat) as [Hle|Hgt].
      + rewrite <- drop_app_le by (rewrite length_take; lia).
        rewrite take_drop. apply Htok.
      + rewrite drop_ge by (rewrite length_take; lia). apply Htok.
    - rewrite length_take. lia. }
  assert (thawEscapesLocal
            (take a s ++ qs " " ++ tokenKeyOf (number c) ++ qs " "
             ++ frozen (c + 1) (drop e s)) ctx = s) as Hwhole.
  { rewrite (thaw_token_step _ (take a s) (qs " ") (number c)
               (qs " " ++ frozen (c + 1) (drop e s)) ctx (captured m 0));
      [|done| |done|done|done|done].
    - change (dropWhile is_space (qs " " ++ ?x)) with (dropWhile is_space x).
      by rewrite IH2.
    - intros j Hj. rewrite length_take in Hj. apply Hgap. lia. }
  split; [exact Hwhole|]. intros Hhead.
  destruct (decide (a = 0%nat)) as [Ha|Ha].
  - rewrite Ha in *. rewrite take_0 in *. cbn [app] in *.
    change (dropWhile is_space (qs " " ++ ?x)) with (dropWhile is_space x).
    rewrite tokenKeyOf_head, (dropWhile_head is_space 91) by done.
    rewrite <- tokenKeyOf_head.
    rewrite (thaw_token_step _ [] [] (number c)
               (qs " " ++ frozen (c + 1) (drop e s)) ctx (captured m 0));
      [|done|cbn; lia|done|done|done|done].
    change (dropWhile is_space (qs " " ++ ?x)) with (dropWhile is_space x).
    by rewrite IH2.
  - destruct s as [|c1 s1]; [cbn in Hp; lia|].
    destruct a as [|i] eqn:Hai; [done|]. cbn [take app].
    rewrite dropWhile_head; [exact Hwhole|].
    apply (head_not_space (c1 :: s1) c1 s1); [done|done|].
    apply (Hnone 0%nat). lia.
Qed.
End RoundTripMain.

Section RoundTripTheorem.
Implicit Types (s : list Z).

(** C1, as the code has it.  Thawing the frozen text gives the input back
    when the input holds no text of the form of a placeholder and no
    matched fragment has a space, a vertical tab or a form feed right before
    or right after it: every fragment is then restored as it stood and the
    spaces put around the placeholders are gone. *)
Theorem thaw_freeze_roundtrip s :
  Z.of_nat (length s) < INT_MAX →
  contains_re TOKEN_REGEX s = false →
  Forall (λ m, blank_beside s m = false) (globalMatch FREEZE_REGEX s) →
  let '(rewritten, ctx) := freezeEscapesLocal s in
  thawEscapesLocal rewritten ctx = s.
Proof.
  intros Hlen Htok Hsafe.
  destruct (freezeEscapesLocal_frozen s Hlen) as (M & -> & Hget & _).
  apply (thaw_frozen (length s) s 0 _); [done|done| | |done].
  - intros n m Hm. rewrite Z.add_0_l. by apply (Hget n m).
  - intros j. apply match_here_TOKEN.
    unfold contains_re in Htok.
    destruct (search TOKEN_REGEX 0 s) eqn:Hs; [done|].
    by apply (search_None _ _ _ Hs).
Qed.

(** C1 fails on [Hello <br>World]: the space before the tag is taken for
    one of the spaces put around the placeholder and is lost. *)
Lemma thaw_freeze_loses_space :
  let s := qs "Hello <br>World" in
  let '(rewritten, ctx) := freezeEscapesLocal s in
  rewritten = qs "Hello  [T_0] World"
  ∧ thawEscapesLocal rewritten ctx = qs "Hello<br>World"
  ∧ thawEscapesLocal rewritten ctx ≠ s.
Proof. vm_compute. split_and!; [done|done|discriminate]. Qed.

(** An input that holds the text of a placeholder: thawing puts the
    fragment numbered 0 in its place too. *)
Lemma thaw_freeze_literal_placeholder :
  let s := qs "[T_0]<b>" in
  let '(rewritten, ctx) := freezeEscapesLocal s in
  rewritten = qs "[T_0] [T_0] "
  ∧ thawEscapesLocal rewritten ctx = qs "<b><b>".
Proof. vm_compute. done. Qed.

(** C1 at an input with a tag, a line feed and a template. *)
Lemma thaw_freeze_roundtrip_witness :
  let s := qs "Hello<br>World\n{{name}}[x] ok" in
  let '(rewritten, ctx) := freezeEscapesLocal s in
  thawEscapesLocal rewritten ctx = s.
Proof.
  apply (thaw_freeze_roundtrip (qs "Hello<br>World\n{{name}}[x] ok")).
  - vm_compute. done.
  - vm_compute. done.
  - vm_compute. repeat constructor.
Defined.

(** C9 at an input with a tag and a line feed. *)
Lemma placeholder_determinism_witness :
  let s := qs "a<b>c\nd" in
  let ms := globalMatch FREEZE_REGEX s in
  let '(rewritten, ctx) := freezeEscapesLocal s in
  rewritten = placeholders s 0 0 ms
  ∧ counter ctx = Z.of_nat (length ms)
  ∧ (∀ n m, ms !! n = Some m →
       map ctx !! tokenKeyOf (number (Z.of_nat n)) = Some (captured m 0)
       ∧ captured m 0 = mid s (capturedStart m) (capturedEnd m - capturedStart m)
       ∧ (capturedStart m < capturedEnd m ≤ length s)%nat)
  ∧ (∀ n m m', ms !! n = Some m → ms !! S n = Some m' →
       (capturedEnd m ≤ capturedStart m')%nat)
  ∧ (∀ key, is_Some (map ctx !! key) →
       ∃ n, (n < length ms)%nat ∧ key = tokenKeyOf (number (Z.of_nat n))).
Proof.
  apply (placeholder_determinism (qs "a<b>c\nd")). vm_compute. done.
Defined.
End RoundTripTheorem.

(* ----------------------------------------------------------------- *)
(** ** The response reconstructor                                     *)
(* ----------------------------------------------------------------- *)

Section Occurrences.
Implicit Types (s u needle lit : list Z) (cmp : Z → Z → bool).

Lemma startsWith_strip lit s :
  startsWith eq_cs lit s = true ↔ is_Some (strip_prefix lit s).
Proof.
  revert s. induction lit as [|a lit IH]; intros s; cbn.
  - split; [by eexists|done].
  - destruct s as [|b s]; [split; [done|by intros [? ?]]|].
    unfold eq_cs at 1. destruct (a =? b); cbn; [apply IH|].
    split; [done|by intros [? ?]].
Qed.

Lemma startsWith_strip_None lit s :
  startsWith eq_cs lit s = false ↔ strip_prefix lit s = None.
Proof.
  pose proof (startsWith_strip lit s) as Hs.
  destruct (startsWith eq_cs lit s), (strip_prefix lit s) as [r|]; split; try done.
  - intros _. destruct Hs as [Hs _]. by destruct (Hs eq_refl).
  - intros _. destruct Hs as [_ Hs]. by specialize (Hs ltac:(by eexists)).
Qed.

Lemma startsWith_length cmp needle s :
  startsWith cmp needle s = true → (length needle ≤ length s)%nat.
Proof.
  revert s. induction needle as [|a needle IH]; intros s; cbn; [lia|].
  destruct s as [|b s]; [done|]. intros [_ Hs]%andb_prop. cbn.
  apply IH in Hs. lia.
Qed.

Lemma indexOf_Some cmp needle s i :
  indexOf cmp needle s = Some i →
  (i ≤ length s)%nat
  ∧ startsWith cmp needle (drop i s) = true
  ∧ ∀ j, (j < i)%nat → startsWith cmp needle (drop j s) = false.
Proof.
  revert i. induction s as [|c s IH]; intros i; cbn [indexOf].
  - destruct (startsWith cmp needle []) eqn:Hs; [|done].
    intros [= <-]. split_and!; [done|done|lia].
  - destruct (startsWith cmp needle (c :: s)) eqn:Hs.
    + intros [= <-]. split_and!; [cbn; lia|done|lia].
    + destruct (indexOf cmp needle s) as [i'|]; [|done]. cbn.
      intros [= <-]. destruct (IH i' eq_refl) as (Hle & Hat & Hbefore).
      split_and!; [cbn; lia|done|].
      intros [|j] Hj; [done|]. cbn. apply Hbefore. lia.
Qed.

Lemma indexOf_None cmp needle s :
  indexOf cmp needle s = None →
  ∀ j, startsWith cmp needle (drop j s) = false.
Proof.
  induction s as [|c s IH]; cbn [indexOf].
  - destruct (startsWith cmp needle []) eqn:Hs; [done|].
    intros _ j. by rewrite drop_nil.
  - destruct (startsWith cmp needle (c :: s)) eqn:Hs; [done|].
    destruct (indexOf cmp needle s) as [i'|]; [done|].
    intros _ [|j]; [done|]. cbn. by apply IH.
Qed.

Lemma indexOf_None_intro cmp needle s :
  (∀ j, startsWith cmp needle (drop j s) = false) →
  indexOf cmp needle s = None.
Proof.
  intros Hnone. destruct (indexOf cmp needle s) as [i|] eqn:Hi; [|done].
  apply indexOf_Some in Hi as (_ & Hat & _). by rewrite Hnone in Hat.
Qed.

Lemma indexOf_None_drop cmp needle s k :
  indexOf cmp needle s = None → indexOf cmp needle (drop k s) = None.
Proof.
  intros Hnone. apply indexOf_None_intro. intros j.
  rewrite drop_drop. by apply indexOf_None.
Qed.

(** A lazy run of any character stops at the first place where what
    follows begins with [lit]. *)
Lemma star_lazy_find {A} (p : Z → bool) (k : list Z → option A) lit u :
  (∀ c, p c = true) →
  (∀ s', k s' = None ↔ startsWith eq_cs lit s' = false) →
  star_lazy p u k =
    match indexOf eq_cs lit u with
    | Some j => k (drop j u)
    | None => None
    end.
Proof.
  intros Hp Hk. induction u as [|c u IH]; cbn [star_lazy indexOf].
  - destruct (k []) eqn:Hk0.
    + destruct (startsWith eq_cs lit []) eqn:Hs; [by rewrite drop_0|].
      apply Hk in Hs. congruence.
    + apply Hk in Hk0. by rewrite Hk0.
  - destruct (k (c :: u)) eqn:Hk0.
    + destruct (startsWith eq_cs lit (c :: u)) eqn:Hs; [by rewrite drop_0|].
      apply Hk in Hs. congruence.
    + apply Hk in Hk0. rewrite Hk0, Hp, IH.
      by destruct (indexOf eq_cs lit u).
Qed.
End Occurrences.

Section Extraction.
Context `{CaseFolding}.
Implicit Types (s u content needle : list Z) (cmp : Z → Z → bool).






End Extraction.

Section TermShapes.
Implicit Types (s u k v : list Z).

Lemma token_parse_spec u ds s5 :
  token_parse u = Some (ds, s5) →
  u = tokenKeyOf ds ++ s5 ∧ ds ≠ [] ∧ forallb is_digit ds = true.
Proof.
  intros Hu. pose proof (token_parse_suffix u ds s5 Hu) as Hsuf.
  split; [unfold tokenKeyOf; by rewrite <- !app_assoc|].
  revert Hu. unfold token_parse.
  destruct (strip_prefix (qs "[T_") u) as [[|c s3]|]; [done| |done].
  destruct (is_digit c) eqn:Hc; [|done].
  destruct (strip_prefix (qs "]") (dropWhile is_digit s3)) as [s5'|] eqn:H5; [|done].
  intros [= <- <-].
  destruct (dropWhile_suffix is_digit s3) as (pre & Hs3 & Hpre).
  remember (dropWhile is_digit s3) as d eqn:Hd. clear Hd. subst s3.
  rewrite length_app.
  replace (S (length pre + length d) - length d)%nat
    with (length (c :: pre)) by (cbn [length]; lia).
  rewrite (app_comm_cons pre), take_app_length.
  split; [done|]. cbn [forallb]. by rewrite Hc, Hpre.
Qed.


Lemma prefix_at_drop s pre u : s = pre ++ u → drop (length pre) s = u.
Proof. intros ->. by rewrite drop_app_length. Qed.






End TermShapes.


Section Spans.
Implicit Types (r : regex) (s w : list Z) (m : QRegularExpressionMatch).








End Spans.

(* ----------------------------------------------------------------- *)
(** ** The spans of the terms                                         *)
(* ----------------------------------------------------------------- *)



Section TermSpans.
Implicit Types (s u g w x key value rest : list Z).

















End TermSpans.

Section Harvest.
Context `{CaseFolding}.
Variable Context_max_len_init : Z.
Variable env : Env.
Implicit Types (content processedText buf : list Z)
  (ms : list QRegularExpressionMatch) (w : World).



Definition add_trace (evs : list Event) (w : World) : World :=
  {| server := server w; stop_reads := stop_reads w; sleeps := sleeps w;
     posts := posts w; attempts := attempts w; trace := trace w ++ evs |}.

Lemma add_trace_app evs1 evs2 w :
  add_trace evs2 (add_trace evs1 w) = add_trace (evs1 ++ evs2) w.
Proof. unfold add_trace. cbn. by rewrite app_assoc. Qed.











End Harvest.

(* ----------------------------------------------------------------- *)
(** ** One attempt                                                    *)
(* ----------------------------------------------------------------- *)

(** A request, if [e] is one, names the model [name]. *)
Definition post_model_is (name : list Z) (e : Event) : Prop :=
  match e with
  | post _ _ payload => payload_model payload = name
  | _ => True
  end.

(** [w'] comes from [w] by a run that neither sleeps nor returns from an
    attempt, and whose requests all name the model [name]. *)
Definition run_of_attempt (name : list Z) (w w' : World) : Prop :=
  attempts w' = attempts w ∧ sleeps w' = sleeps w
  ∧ ∃ evs, trace w' = trace w ++ evs ∧ Forall (post_model_is name) evs.

Definition keeps (name : list Z) {A : Type} (m : M A) : Prop :=
  ∀ w, run_of_attempt name w (m w).2.

(** Whatever the world, [m] returns a value that satisfies [P]. *)
Definition yields {A : Type} (P : A → Prop) (m : M A) : Prop :=
  ∀ w, P (m w).1.

Section Keeps.
Context `{CaseFolding}.
Variable Context_max_len_init : Z.
Variable env : Env.
Variable name : list Z.
Implicit Types (w : World).

Lemma run_of_attempt_refl w : run_of_attempt name w w.
Proof. split_and!; [done|done|]. exists []. by rewrite app_nil_r. Qed.

Lemma run_of_attempt_trans w1 w2 w3 :
  run_of_attempt name w1 w2 → run_of_attempt name w2 w3 →
  run_of_attempt name w1 w3.
Proof.
  intros (Ha1 & Hs1 & evs1 & Ht1 & Hp1) (Ha2 & Hs2 & evs2 & Ht2 & Hp2).
  split_and!; [congruence|congruence|].
  exists (evs1 ++ evs2). rewrite Ht2, Ht1, app_assoc.
  split; [done|]. by apply Forall_app.
Qed.

Lemma keeps_ret {A} (a : A) : keeps name (ret a).
Proof. intros w. apply run_of_attempt_refl. Qed.

Lemma keeps_bind {A B} (m : M A) (f : A → M B) :
  keeps name m → (∀ a, keeps name (f a)) → keeps name (bind m f).
Proof.
  intros Hm Hf w. unfold bind. specialize (Hm w).
  destruct (m w) as [a w1]. specialize (Hf a w1).
  by apply (run_of_attempt_trans w w1).
Qed.

Lemma keeps_emit e : post_model_is name e → keeps name (emit e).
Proof.
  intros He w. split_and!; [done|done|].
  exists [e]. split; [done|]. by constructor.
Qed.

Lemma keeps_skip : keeps name skip.
Proof. apply keeps_ret. Qed.

Lemma keeps_getServer : keeps name getServer.
Proof. intros w. apply run_of_attempt_refl. Qed.

Lemma keeps_putServer sv : keeps name (putServer sv).
Proof. intros w. split_and!; [done|done|]. exists []. by rewrite app_nil_r. Qed.

Lemma keeps_getTrace : keeps name getTrace.
Proof. intros w. apply run_of_attempt_refl. Qed.

Lemma keeps_getConfig : keeps name getConfig.
Proof. intros w. apply run_of_attempt_refl. Qed.

Lemma keeps_readStop : keeps name (readStop env).
Proof. intros w. split_and!; [done|done|]. exists []. by rewrite app_nil_r. Qed.

Lemma keeps_getNextApiKey : keeps name getNextApiKey.
Proof.
  unfold getNextApiKey. apply keeps_bind; [apply keeps_getServer|]. intros sv.
  case_bool_decide; [apply keeps_ret|].
  apply keeps_bind; [apply keeps_putServer|]. intros _. apply keeps_ret.
Qed.

Lemma keeps_withContexts {A} (f : gmap (list Z) Context → A * gmap (list Z) Context) :
  keeps name (withContexts f).
Proof.
  unfold withContexts. apply keeps_bind; [apply keeps_getServer|]. intros sv.
  destruct (f (m_contexts sv)) as [a c].
  apply keeps_bind; [apply keeps_putServer|]. intros _. apply keeps_ret.
Qed.

Lemma keeps_sendRequest url authorization payload :
  payload_model payload = name →
  keeps name (sendRequest url authorization payload).
Proof.
  intros Hp w. split_and!; [done|done|].
  eexists [_]. split; [done|]. by constructor.
Qed.

Lemma keeps_poll_stop n : keeps name (poll_stop env n).
Proof.
  induction n as [|n IH]; [apply keeps_ret|]. cbn [poll_stop].
  apply keeps_bind; [apply keeps_readStop|]. intros [|]; [apply keeps_ret|done].
Qed.

Lemma keeps_announceTerms lang terms : keeps name (announceTerms lang terms).
Proof.
  induction terms as [|[k v] terms IH]; [apply keeps_ret|]. cbn [announceTerms].
  apply keeps_bind; [by apply keeps_emit|]. intros _.
  apply keeps_bind; [by apply keeps_emit|]. intros _. done.
Qed.

Lemma keeps_handleContent cfg performExtraction processedText
    currentUserContent clientId escapeCtx rawContent :
  keeps name (handleContent Context_max_len_init env cfg performExtraction
                processedText currentUserContent clientId escapeCtx rawContent).
Proof.
  unfold handleContent. apply keeps_bind.
  - destruct performExtraction; [|apply keeps_ret].
    destruct (harvestTerms _ _) as [rebuilt_ terms].
    apply keeps_bind; [apply keeps_announceTerms|]. intros _. apply keeps_ret.
  - intros cleanContent.
    apply keeps_bind; [by apply keeps_emit|]. intros _.
    destruct (isValidTranslationResult _); [|apply keeps_ret].
    apply keeps_bind; [apply keeps_withContexts|]. intros _. apply keeps_ret.
Qed.
End Keeps.

Section AttemptRuns.
Context `{CaseFolding}.
Variable Context_max_len_init : Z.
Variable env : Env.
Implicit Types (w : World) (cfg : AppConfig).

Lemma keeps_awaitReply name cfg performExtraction processedText
    currentUserContent clientId escapeCtx k payload :
  keeps name (awaitReply Context_max_len_init env cfg performExtraction
                processedText currentUserContent clientId escapeCtx k payload).
Proof.
  unfold awaitReply.
  apply keeps_bind; [apply keeps_poll_stop|]. intros aborted.
  apply keeps_bind; [apply keeps_readStop|]. intros stop.
  destruct stop; [apply keeps_ret|].
  destruct (if aborted then _ else _) as [|e|[|usage choices]].
  - apply keeps_bind; [by apply keeps_emit|]. intros _. apply keeps_ret.
  - apply keeps_bind; [by apply keeps_emit|]. intros _. apply keeps_ret.
  - apply keeps_bind; [by apply keeps_emit|]. intros _. apply keeps_ret.
  - apply keeps_bind.
    { destruct usage as [[p c]|]; [|apply keeps_skip].
      destruct ((p >? 0) || (c >? 0)); [by apply keeps_emit|apply keeps_skip]. }
    intros _. destruct choices as [| |rawContent].
    + apply keeps_bind; [by apply keeps_emit|]. intros _. apply keeps_ret.
    + apply keeps_bind; [by apply keeps_emit|]. intros _. apply keeps_ret.
    + apply keeps_handleContent.
Qed.

(** An attempt made with the snapshot [cfg] sends no request but for the
    model of [cfg]. *)
Lemma keeps_attemptWithSnapshot cfg text clientIP :
  keeps (model_name cfg)
    (attemptWithSnapshot Context_max_len_init env cfg text clientIP).
Proof.
  unfold attemptWithSnapshot.
  apply keeps_bind; [apply keeps_getNextApiKey|]. intros apiKey.
  destruct (isEmpty apiKey).
  { apply keeps_bind; [by apply keeps_emit|]. intros _. apply keeps_ret. }
  destruct (freezeEscapesLocal text) as [processedText escapeCtx].
  apply keeps_bind; [apply keeps_getTrace|]. intros seen.
  apply keeps_bind; [apply keeps_withContexts|]. intros past.
  apply keeps_bind; [by apply keeps_sendRequest|]. intros k.
  apply keeps_awaitReply.
Qed.

(** The same for [performSingleTranslationAttempt]: the model is that of
    the configuration in force when the attempt starts. *)
Lemma attempt_run text clientIP w :
  run_of_attempt (model_name (m_config (server w))) w
    (performSingleTranslationAttempt Context_max_len_init env text clientIP w).2.
Proof.
  unfold performSingleTranslationAttempt.
  set (name := model_name (m_config (server w))).
  change (run_of_attempt name w
            ((bind (readStop env) (λ stop,
                if stop then ret []
                else bind getConfig (λ cfg,
                       attemptWithSnapshot Context_max_len_init env cfg
                         text clientIP))) w).2).
  unfold bind at 1. unfold readStop at 1. cbn iota beta.
  destruct (stopRequested env (stop_reads w)).
  { split_and!; [done|done|]. exists []. by rewrite app_nil_r. }
  unfold bind, getConfig. cbn iota beta.
  match goal with
  | |- context [attemptWithSnapshot _ _ ?cfg _ _ ?w1] =>
      pose proof (keeps_attemptWithSnapshot cfg text clientIP w1) as Hk
  end.
  cbn [server m_config] in Hk. fold name in Hk.
  destruct Hk as (Ha & Hs & evs & Ht & Hp).
  split_and!; [done|done|]. by exists evs.
Qed.

(** An attempt that is not stopped on entry and finds a key sends its
    request, built from the configuration in force at its start. *)
Lemma attempt_sends text clientIP w key :
  stopRequested env (stop_reads w) = false →
  m_apiKeys (server w) !! m_currentKeyIndex (server w) = Some key →
  key ≠ [] →
  ∃ evs payload,
    trace (performSingleTranslationAttempt Context_max_len_init env
             text clientIP w).2 = trace w ++ evs
    ∧ post (api_address (m_config (server w)) ++ qs "/chat/completions")
           (qs "Bearer " ++ key) payload ∈ evs
    ∧ payload_model payload = model_name (m_config (server w)).
Proof.
  intros Hstop Hkey Hne.
  unfold performSingleTranslationAttempt, bind at 1, readStop at 1.
  rewrite Hstop. unfold bind at 1, getConfig at 1. cbn [server].
  unfold attemptWithSnapshot, bind at 1.
  rewrite (getNextApiKey_step _ key) by exact Hkey.
  destruct key as [|k0 key']; [done|]. cbn [isEmpty].
  destruct (freezeEscapesLocal text) as [processedText escapeCtx].
  unfold bind at 1, getTrace at 1.
  unfold bind at 1.
  match goal with
  | |- context [withContexts ?f ?w1] =>
      pose proof (keeps_withContexts [] f w1) as (_ & _ & evs0 & Ht0 & _);
      destruct (withContexts f w1) as [past w2]
  end.
  cbn [snd with_cursor trace] in Ht0.
  unfold bind at 1, sendRequest at 1.
  match goal with
  | |- context [awaitReply _ _ ?cfg ?pe ?pt ?cu ?ci ?ec ?k ?pl ?w3] =>
      pose proof (keeps_awaitReply [] cfg pe pt cu ci ec k pl w3)
        as (_ & _ & evs1 & Ht1 & _);
      exists (evs0 ++ [post (api_address cfg ++ qs "/chat/completions")
                         (qs "Bearer " ++ k0 :: key') pl] ++ evs1), pl
  end.
  cbn [trace] in Ht1. rewrite Ht1, Ht0. rewrite <- !app_assoc.
  split; [done|]. split; [|done].
  apply elem_of_app. right. apply elem_of_app. left. apply list_elem_of_singleton.
  done.
Qed.
End AttemptRuns.

Section AttemptResults.
Context `{CaseFolding}.
Variable Context_max_len_init : Z.
Variable env : Env.
Implicit Types (w : World) (cfg : AppConfig).

Lemma yields_ret {A} (P : A → Prop) (a : A) : P a → yields P (ret a).
Proof. intros Ha w. exact Ha. Qed.

Lemma yields_bind {A B} (P : B → Prop) (m : M A) (f : A → M B) :
  (∀ a, yields P (f a)) → yields P (bind m f).
Proof. intros Hf w. unfold bind. destruct (m w) as [a w1]. apply Hf. Qed.

(** What an attempt may return. *)
Definition empty_or_valid (r : list Z) : Prop :=
  r = [] ∨ isValidTranslationResult r = true.

Lemma handleContent_result cfg performExtraction processedText
    currentUserContent clientId escapeCtx rawContent :
  yields empty_or_valid
    (handleContent Context_max_len_init env cfg performExtraction
       processedText currentUserContent clientId escapeCtx rawContent).
Proof.
  unfold handleContent. apply yields_bind. intros cleanContent.
  apply yields_bind. intros _.
  destruct (isValidTranslationResult _) eqn:Hvalid.
  - apply yields_bind. intros _. apply yields_ret. by right.
  - apply yields_ret. by left.
Qed.

Lemma awaitReply_result cfg performExtraction processedText
    currentUserContent clientId escapeCtx k payload :
  yields empty_or_valid
    (awaitReply Context_max_len_init env cfg performExtraction
       processedText currentUserContent clientId escapeCtx k payload).
Proof.
  unfold awaitReply.
  apply yields_bind. intros aborted. apply yields_bind. intros stop.
  destruct stop; [apply yields_ret; by left|].
  destruct (if aborted then _ else _) as [|e|[|usage choices]];
    try (apply yields_bind; intros _; apply yields_ret; by left).
  apply yields_bind. intros _.
  destruct choices as [| |rawContent];
    try (apply yields_bind; intros _; apply yields_ret; by left).
  apply handleContent_result.
Qed.

(** An attempt returns the empty string or a result that passed
    [isValidTranslationResult]. *)
Lemma attempt_result text clientIP :
  yields empty_or_valid
    (performSingleTranslationAttempt Context_max_len_init env text clientIP).
Proof.
  unfold performSingleTranslationAttempt.
  apply yields_bind. intros stop.
  destruct stop; [apply yields_ret; by left|].
  apply yields_bind. intros cfg. unfold attemptWithSnapshot.
  apply yields_bind. intros apiKey.
  destruct (isEmpty apiKey).
  { apply yields_bind. intros _. apply yields_ret. by left. }
  destruct (freezeEscapesLocal text) as [processedText escapeCtx].
  apply yields_bind. intros seen. apply yields_bind. intros past.
  apply yields_bind. intros k. apply awaitReply_result.
Qed.

Lemma startsWith_cs_ci needle : ∀ x,
  startsWith eq_cs needle x = true → startsWith eq_ci needle x = true.
Proof.
  induction needle as [|a needle IH]; intros [|b x]; cbn [startsWith];
    try done.
  rewrite !andb_true_iff. intros [Hab Hrest]. split; [|by apply IH].
  unfold eq_cs in Hab. apply Z.eqb_eq in Hab as ->.
  unfold eq_ci. apply Z.eqb_refl.
Qed.

Lemma contains_cs_ci needle x :
  contains eq_cs needle x = true → contains eq_ci needle x = true.
Proof.
  induction x as [|b x IH]; cbn [contains]; rewrite !orb_true_iff.
  - intros [Hs|?]; [|done]. left. by apply startsWith_cs_ci.
  - intros [Hs|Hc]; [left; by apply startsWith_cs_ci|right; by apply IH].
Qed.

(** On what an attempt returns, the test of the loop and the test that
    compares the needles as they are written agree. *)
Lemma valid_as_worded_agrees x :
  empty_or_valid x → isValidTranslationResult x = valid_as_worded x.
Proof.
  intros [->|Hvalid]; [done|]. rewrite Hvalid. symmetry.
  unfold isValidTranslationResult in Hvalid. unfold valid_as_worded.
  rewrite !andb_true_iff, !negb_true_iff in Hvalid.
  destruct Hvalid as ((((Hne & Herr) & Hzh) & Hen) & _).
  rewrite !andb_true_iff, !negb_true_iff. split_and!; [done|done| |].
  - destruct (contains eq_cs _ x) eqn:Hc; [|done].
    apply contains_cs_ci in Hc. congruence.
  - destruct (contains eq_cs _ x) eqn:Hc; [|done].
    apply contains_cs_ci in Hc. congruence.
Qed.
End AttemptResults.

(* ----------------------------------------------------------------- *)
(** ** The retry loop                                                 *)
(* ----------------------------------------------------------------- *)

Section RetryLoop.
Context `{CaseFolding}.
Variable Context_max_len_init : Z.
Variable env : Env.
Variables text clientIP : list Z.
Variable langIdx : Z.
Implicit Types (w : World) (retryCount : Z).

Abbreviation attempt :=
  (performSingleTranslationAttempt Context_max_len_init env text clientIP).
Abbreviation loop :=
  (λ fuel, retry_loop Context_max_len_init env fuel text clientIP langIdx).

(** The world after one read of the stop flag. *)
Definition after_read (w : World) : World :=
  {| server := server w; stop_reads := S (stop_reads w); sleeps := sleeps w;
     posts := posts w; attempts := attempts w; trace := trace w |}.

(** The world after the return of an attempt has been noted. *)
Definition after_attempt (started : nat) (r : list Z) (w : World) : World :=
  {| server := server w; stop_reads := stop_reads w; sleeps := sleeps w;
     posts := posts w; attempts := attempts w ++ [(started, r)];
     trace := trace w |}.

Lemma readStop_eq w : readStop env w = (stopRequested env (stop_reads w), after_read w).
Proof. reflexivity. Qed.

(** The delay taken before the attempt numbered [retryCount]. *)
Definition delay_before (retryCount : Z) : M bool :=
  if retryCount >? 0 then
    bind (emit (logMessage (SV_RETRY_ATTEMPT langIdx (retryCount + 1) MAX_RETRY_COUNT)))
         (λ _, backoff env (Z.to_nat (RETRY_DELAY_MS / 100)))
  else ret false.

(** One turn of the loop, written out. *)
Lemma retry_loop_turn fuel retryCount resultText w :
  retryCount < MAX_RETRY_COUNT →
  loop (S fuel) retryCount resultText w =
    if stopRequested env (stop_reads w)
    then ([], add_trace [logMessage (SV_ABORTED langIdx)] (after_read w)) else
    let '(cancelled, w1) := delay_before retryCount (after_read w) in
    if cancelled then ([], w1) else
    let '(attemptResult, w2) := attempt w1 in
    let w4 := after_read (after_attempt (sleeps w1) attemptResult w2) in
    if stopRequested env (stop_reads w2) then ([], w4) else
    if isValidTranslationResult attemptResult then
      (attemptResult,
       if retryCount >? 0
       then add_trace [logMessage (SV_RETRY_SUCCESS langIdx)] w4 else w4)
    else if wrap_int (retryCount + 1) >=? MAX_RETRY_COUNT then
      loop fuel (wrap_int (retryCount + 1)) []
        (add_trace [logMessage (SV_RETRY_FAILED langIdx)] w4)
    else loop fuel (wrap_int (retryCount + 1)) resultText w4.
Proof.
  intros Hlt. cbn [retry_loop].
  rewrite (proj2 (Z.ltb_lt _ _) Hlt). cbn [negb].
  unfold bind at 1. rewrite readStop_eq.
  destruct (stopRequested env (stop_reads w)); [reflexivity|].
  unfold bind at 1. fold (delay_before retryCount).
  destruct (delay_before retryCount (after_read w)) as [cancelled w1].
  destruct cancelled; [reflexivity|].
  unfold bind at 1, getSleeps at 1. unfold bind at 1.
  destruct (attempt w1) as [attemptResult w2].
  unfold bind at 1, noteAttempt at 1. unfold bind at 1. rewrite readStop_eq.
  cbn [stop_reads]. fold (after_attempt (sleeps w1) attemptResult w2).
  destruct (stopRequested env (stop_reads w2)); [reflexivity|].
  destruct (isValidTranslationResult attemptResult).
  - unfold bind, ret. destruct (retryCount >? 0); reflexivity.
  - destruct (wrap_int (retryCount + 1) >=? MAX_RETRY_COUNT); reflexivity.
Qed.

Lemma retry_loop_done fuel retryCount resultText w :
  MAX_RETRY_COUNT ≤ retryCount →
  loop fuel retryCount resultText w = (resultText, w).
Proof.
  intros Hge. destruct fuel as [|fuel]; [reflexivity|]. cbn [retry_loop].
  rewrite (proj2 (Z.ltb_ge _ _) Hge). reflexivity.
Qed.
End RetryLoop.

Section Backoff.
Context `{CaseFolding}.
Variable Context_max_len_init : Z.
Variable env : Env.
Implicit Types (w : World) (cfg : AppConfig).

Lemma updateConfig_ghost cfg w :
  let w' := (updateConfig cfg w).2 in
  sleeps w' = sleeps w ∧ attempts w' = attempts w ∧ stop_reads w' = stop_reads w.
Proof.
  unfold updateConfig, bind, getServer, putServer, emit, skip, ret.
  destruct (enable_glossary cfg); done.
Qed.

Lemma msleep100_ghost w :
  let w' := (msleep100 env w).2 in
  sleeps w' = S (sleeps w) ∧ attempts w' = attempts w
  ∧ stop_reads w' = stop_reads w.
Proof.
  unfold msleep100. destruct (hotReload env (sleeps w)) as [cfg|]; [|done].
  match goal with
  | |- context [updateConfig cfg ?w1] =>
      destruct (updateConfig_ghost cfg w1) as (Hs & Ha & Hr)
  end.
  cbn zeta in *. rewrite Hs, Ha, Hr. done.
Qed.

Lemma msleep100_server w :
  server (msleep100 env w).2 =
    match hotReload env (sleeps w) with
    | Some cfg => set_config cfg (parseApiKeys (api_key cfg)) 0 (server w)
    | None => server w
    end.
Proof.
  unfold msleep100. destruct (hotReload env (sleeps w)) as [cfg|]; [|done].
  by rewrite updateConfig_server.
Qed.

Lemma backoff_turn n w :
  backoff env (S n) w =
    if stopRequested env (stop_reads w) then (true, after_read w)
    else backoff env n (msleep100 env (after_read w)).2.
Proof.
  cbn [backoff]. unfold bind at 1. rewrite readStop_eq.
  destruct (stopRequested env (stop_reads w)); [reflexivity|].
  unfold bind. by destruct (msleep100 env (after_read w)) as [[] w1].
Qed.

(** A delay during which the stop flag stays clear: [n] sleeps, no attempt. *)
Lemma backoff_clear n : ∀ w,
  (∀ j, (j < n)%nat → stopRequested env (stop_reads w + j) = false) →
  ∃ w', backoff env n w = (false, w')
        ∧ sleeps w' = (sleeps w + n)%nat ∧ attempts w' = attempts w
        ∧ stop_reads w' = (stop_reads w + n)%nat.
Proof.
  induction n as [|n IH]; intros w Hclear.
  - exists w. cbn. unfold ret. split_and!; [done|lia|done|lia].
  - rewrite backoff_turn.
    pose proof (Hclear 0%nat ltac:(lia)) as H0. rewrite Nat.add_0_r in H0.
    rewrite H0.
    destruct (msleep100_ghost (after_read w)) as (Hs & Ha & Hr).
    cbn zeta in Hs, Ha, Hr. cbn [after_read sleeps attempts stop_reads] in Hs, Ha, Hr.
    destruct (IH (msleep100 env (after_read w)).2) as (w' & Hb & Hs' & Ha' & Hr').
    { intros j Hj. rewrite Hr.
      replace (S (stop_reads w) + j)%nat with (stop_reads w + S j)%nat by lia.
      apply Hclear. lia. }
    exists w'. split_and!; [done|lia|congruence|lia].
Qed.

(** A delay cut short: the stop flag is found set at the turn [j], after
    [j] sleeps. *)
Lemma backoff_cut n : ∀ w j,
  (j < n)%nat →
  (∀ i, (i < j)%nat → stopRequested env (stop_reads w + i) = false) →
  stopRequested env (stop_reads w + j) = true →
  ∃ w', backoff env n w = (true, w')
        ∧ sleeps w' = (sleeps w + j)%nat ∧ attempts w' = attempts w.
Proof.
  induction n as [|n IH]; intros w j Hj Hclear Hset; [lia|].
  rewrite backoff_turn. destruct j as [|j].
  - rewrite Nat.add_0_r in Hset. rewrite Hset.
    exists (after_read w). split_and!; [done|cbn; lia|done].
  - pose proof (Hclear 0%nat ltac:(lia)) as H0. rewrite Nat.add_0_r in H0.
    rewrite H0.
    destruct (msleep100_ghost (after_read w)) as (Hs & Ha & Hr).
    cbn zeta in Hs, Ha, Hr. cbn [after_read sleeps attempts stop_reads] in Hs, Ha, Hr.
    destruct (IH (msleep100 env (after_read w)).2 j) as (w' & Hb & Hs' & Ha').
    { lia. }
    { intros i Hi. rewrite Hr.
      replace (S (stop_reads w) + i)%nat with (stop_reads w + S i)%nat by lia.
      apply Hclear. lia. }
    { rewrite Hr.
      replace (S (stop_reads w) + j)%nat with (stop_reads w + S j)%nat by lia.
      done. }
    exists w'. split_and!; [done|lia|congruence].
Qed.

(** A delay without hot reload leaves the configuration, the pool and the
    cursor as they are. *)
Lemma backoff_no_reload n : ∀ w,
  (∀ j, (j < n)%nat → hotReload env (sleeps w + j) = None) →
  server (backoff env n w).2 = server w.
Proof.
  induction n as [|n IH]; intros w Hnone; [done|].
  rewrite backoff_turn.
  destruct (stopRequested env (stop_reads w)); [done|].
  destruct (msleep100_ghost (after_read w)) as (Hs & _).
  cbn zeta in Hs. cbn [after_read sleeps] in Hs.
  rewrite IH.
  - rewrite msleep100_server. cbn [after_read sleeps server].
    pose proof (Hnone 0%nat ltac:(lia)) as H0. rewrite Nat.add_0_r in H0.
    by rewrite H0.
  - intros j Hj. rewrite Hs.
    replace (S (sleeps w) + j)%nat with (sleeps w + S j)%nat by lia.
    apply Hnone. lia.
Qed.

(** A delay during which [cfg] is installed, and nothing after it, ends
    with [cfg] in force, its pool and the cursor at 0. *)
Lemma backoff_reload n : ∀ w j cfg,
  (j < n)%nat →
  (∀ i, (i < n)%nat → stopRequested env (stop_reads w + i) = false) →
  hotReload env (sleeps w + j) = Some cfg →
  (∀ i, (j < i < n)%nat → hotReload env (sleeps w + i) = None) →
  ∃ w', backoff env n w = (false, w')
        ∧ m_config (server w') = cfg
        ∧ m_apiKeys (server w') = parseApiKeys (api_key cfg)
        ∧ m_currentKeyIndex (server w') = 0%nat
        ∧ sleeps w' = (sleeps w + n)%nat
        ∧ stop_reads w' = (stop_reads w + n)%nat.
Proof.
  induction n as [|n IH]; intros w j cfg Hj Hclear Hload Hafter; [lia|].
  destruct (backoff_clear (S n) w Hclear) as (w' & Hb & Hs' & _ & Hr').
  exists w'. split; [done|].
  enough (m_config (server w') = cfg
          ∧ m_apiKeys (server w') = parseApiKeys (api_key cfg)
          ∧ m_currentKeyIndex (server w') = 0%nat) as (? & ? & ?) by done.
  replace w' with (backoff env (S n) w).2 by (by rewrite Hb).
  clear w' Hb Hs' Hr'.
  rewrite backoff_turn.
  pose proof (Hclear 0%nat ltac:(lia)) as H0. rewrite Nat.add_0_r in H0.
  rewrite H0.
  destruct (msleep100_ghost (after_read w)) as (Hs & _ & Hr).
  cbn zeta in Hs, Hr. cbn [after_read sleeps stop_reads] in Hs, Hr.
  destruct j as [|j].
  - rewrite backoff_no_reload.
    + rewrite msleep100_server. cbn [after_read sleeps server].
      rewrite Nat.add_0_r in Hload. by rewrite Hload.
    + intros i Hi. rewrite Hs.
      replace (S (sleeps w) + i)%nat with (sleeps w + S i)%nat by lia.
      apply Hafter. lia.
  - destruct (IH (msleep100 env (after_read w)).2 j cfg)
      as (w' & Hb & Hcfg & Hkeys & Hcur & _).
    + lia.
    + intros i Hi. rewrite Hr.
      replace (S (stop_reads w) + i)%nat with (stop_reads w + S i)%nat by lia.
      apply Hclear. lia.
    + rewrite Hs.
      replace (S (sleeps w) + j)%nat with (sleeps w + S j)%nat by lia. done.
    + intros i Hi. rewrite Hs.
      replace (S (sleeps w) + i)%nat with (sleeps w + S i)%nat by lia.
      apply Hafter. lia.
    + by rewrite Hb.
Qed.
End Backoff.

Section RetryClear.
Context `{CaseFolding}.
Variable Context_max_len_init : Z.
Variable env : Env.
Variables text clientIP : list Z.
Variable langIdx : Z.
Implicit Types (w : World) (retryCount : Z).

Abbreviation attempt' :=
  (performSingleTranslationAttempt Context_max_len_init env text clientIP).
Abbreviation loop' :=
  (λ fuel, retry_loop Context_max_len_init env fuel text clientIP langIdx).

Lemma backoff_attempts n : ∀ w, attempts (backoff env n w).2 = attempts w.
Proof.
  induction n as [|n IH]; intros w; [done|]. rewrite backoff_turn.
  destruct (stopRequested env (stop_reads w)); [done|].
  rewrite IH. by destruct (msleep100_ghost env (after_read w)) as (_ & -> & _).
Qed.

Lemma delay_before_attempts retryCount w :
  attempts (delay_before env langIdx retryCount w).2 = attempts w.
Proof.
  unfold delay_before. destruct (retryCount >? 0); [|done].
  unfold bind, emit. by rewrite backoff_attempts.
Qed.

Lemma delay_before_clear retryCount w :
  never_stopped env →
  ∃ w1, delay_before env langIdx retryCount w = (false, w1)
        ∧ attempts w1 = attempts w
        ∧ sleeps w1 = (sleeps w + (if retryCount >? 0 then 10 else 0))%nat.
Proof.
  intros Hclear. unfold delay_before. destruct (retryCount >? 0).
  - unfold bind, emit.
    match goal with
    | |- context [backoff env ?n ?w0] =>
        destruct (backoff_clear env n w0) as (w1 & Hb & Hs & Ha & _);
          [intros j _; apply Hclear|]
    end.
    exists w1. split; [done|]. split; [done|]. rewrite Hs. done.
  - exists w. unfold ret. split_and!; [done|done|lia].
Qed.

(** The attempts a run of the loop adds, whatever the stop flag does. *)
Lemma retry_loop_bound n : ∀ retryCount resultText w fuel,
  0 ≤ retryCount → retryCount + Z.of_nat n = MAX_RETRY_COUNT →
  ∃ results,
    attempts (loop' fuel retryCount resultText w).2 = attempts w ++ results
    ∧ (length results ≤ n)%nat.
Proof.
  unfold MAX_RETRY_COUNT.
  induction n as [|n IH]; intros retryCount resultText w fuel Hrc Hn.
  - rewrite retry_loop_done by (unfold MAX_RETRY_COUNT; lia).
    exists []. rewrite app_nil_r. split; [done|cbn; lia].
  - destruct fuel as [|fuel];
      [exists []; rewrite app_nil_r; split; [done|cbn; lia]|].
    rewrite retry_loop_turn by (unfold MAX_RETRY_COUNT; lia).
    unfold MAX_RETRY_COUNT.
    destruct (stopRequested env (stop_reads w)).
    { exists []. rewrite app_nil_r. split; [done|cbn; lia]. }
    pose proof (delay_before_attempts retryCount (after_read w)) as Hd.
    destruct (delay_before env langIdx retryCount (after_read w)) as [cancelled w1].
    cbn in Hd. destruct cancelled.
    { exists []. rewrite app_nil_r. split; [done|cbn; lia]. }
    destruct (attempt_run Context_max_len_init env text clientIP w1) as (Ha & _).
    destruct (attempt' w1) as [attemptResult w2]. cbn [snd] in Ha. cbn zeta.
    destruct (stopRequested env (stop_reads w2)).
    { exists [(sleeps w1, attemptResult)]. cbn. split; [congruence|lia]. }
    destruct (isValidTranslationResult attemptResult).
    { exists [(sleeps w1, attemptResult)]. split; [|cbn; lia].
      destruct (retryCount >? 0); cbn; congruence. }
    rewrite wrap_int_small by (unfold INT_MAX; lia).
    destruct (retryCount + 1 >=? 5);
      match goal with
      | |- context [retry_loop _ _ fuel _ _ _ _ ?res ?w4] =>
          destruct (IH (retryCount + 1) res w4 fuel) as (results & Hres & Hlen);
            [lia|lia|]
      end;
      exists ((sleeps w1, attemptResult) :: results);
      (split; [|cbn; lia]); rewrite Hres;
      cbn [add_trace after_read after_attempt attempts];
      rewrite Ha, Hd, <- app_assoc; reflexivity.
Qed.

(** The run of the loop when the stop flag is never found set. *)
Lemma retry_loop_clear n : ∀ retryCount resultText w fuel,
  never_stopped env →
  0 ≤ retryCount → retryCount + Z.of_nat n = MAX_RETRY_COUNT →
  (n < fuel)%nat →
  let '(r, w') := loop' fuel retryCount resultText w in
  loop_outcome retryCount n w resultText r w'.
Proof.
  unfold MAX_RETRY_COUNT.
  induction n as [|n IH]; intros retryCount resultText w fuel Hclear Hrc Hn Hfuel.
  - rewrite retry_loop_done by (unfold MAX_RETRY_COUNT; lia).
    exists []. rewrite app_nil_r. split_and!; try done.
  - destruct fuel as [|fuel]; [lia|].
    rewrite retry_loop_turn by (unfold MAX_RETRY_COUNT; lia).
    unfold MAX_RETRY_COUNT.
    rewrite (Hclear (stop_reads w)).
    destruct (delay_before_clear retryCount (after_read w) Hclear)
      as (w1 & -> & Ha1 & Hs1).
    cbn [after_read attempts sleeps] in Ha1, Hs1.
    destruct (attempt_run Context_max_len_init env text clientIP w1)
      as (Ha2 & Hs2 & _).
    destruct (attempt' w1) as [attemptResult w2]. cbn [snd] in Ha2, Hs2.
    cbn zeta. rewrite (Hclear (stop_reads w2)).
    destruct (isValidTranslationResult attemptResult) eqn:Hvalid.
    { exists [(sleeps w1, attemptResult)]. split_and!.
      - destruct (retryCount >? 0); cbn; congruence.
      - cbn. lia.
      - intros [|i] t ri; [|done]. intros [= <- <-]. lia.
      - intros [|i] t ri; [|done]. cbn. lia.
      - cbn. by rewrite Hvalid. }
    rewrite wrap_int_small by (unfold INT_MAX; lia).
    destruct (Z.geb_spec (retryCount + 1) 5) as [Hlast|Hmore].
    { rewrite retry_loop_done by (unfold MAX_RETRY_COUNT; lia).
      exists [(sleeps w1, attemptResult)]. split_and!.
      - cbn. congruence.
      - cbn. lia.
      - intros [|i] t ri; [|done]. intros [= <- <-]. lia.
      - intros [|i] t ri; [|done]. cbn. lia.
      - cbn. rewrite Hvalid. split; [done|]. lia. }
    match goal with
    | |- context [retry_loop _ _ fuel _ _ _ _ ?res ?w4] =>
        pose proof (IH (retryCount + 1) res w4 fuel Hclear ltac:(lia) ltac:(lia)
                      ltac:(lia)) as Hrec;
        destruct (retry_loop Context_max_len_init env fuel text clientIP langIdx
                    (retryCount + 1) res w4) as [r w']
    end.
    destruct Hrec as (results & Hres & Hlen & Htimes & Hinvalid & Hlast).
    cbn [after_read after_attempt attempts sleeps] in Hres, Htimes.
    rewrite (proj2 (Z.gtb_lt _ _)) in Htimes by lia.
    destruct results as [|x results].
    { cbn in Hlast. lia. }
    exists ((sleeps w1, attemptResult) :: x :: results). split_and!.
    + rewrite Hres, <- app_assoc. cbn. congruence.
    + cbn in Hlen |- *. lia.
    + intros [|i] t ri.
      * intros [= <- <-]. lia.
      * intros Hi. change (((x :: results) !! i) = Some (t, ri)) in Hi.
        rewrite (Htimes i t ri Hi). lia.
    + intros [|i] t ri.
      * intros [= <- <-] _. done.
      * intros Hi Hlt. change (((x :: results) !! i) = Some (t, ri)) in Hi.
        apply (Hinvalid i t ri Hi). cbn in Hlt |- *. lia.
    + change (last ((sleeps w1, attemptResult) :: x :: results))
        with (last (x :: results)).
      destruct (last (x :: results)) as [[t rl]|]; [|lia].
      destruct (isValidTranslationResult rl); [done|].
      destruct Hlast as [-> Hl]. split; [done|]. cbn in Hl |- *. lia.
Qed.

(** The result of the loop, whatever the stop flag does. *)
Lemma retry_loop_result n : ∀ retryCount resultText w fuel,
  0 ≤ retryCount → retryCount + Z.of_nat n = MAX_RETRY_COUNT →
  let '(r, w') := loop' fuel retryCount resultText w in
  r = resultText ∨ first_valid_or_empty w r w'.
Proof.
  unfold MAX_RETRY_COUNT.
  induction n as [|n IH]; intros retryCount resultText w fuel Hrc Hn.
  - rewrite retry_loop_done by (unfold MAX_RETRY_COUNT; lia). by left.
  - destruct fuel as [|fuel]; [by left|].
    rewrite retry_loop_turn by (unfold MAX_RETRY_COUNT; lia).
    unfold MAX_RETRY_COUNT.
    destruct (stopRequested env (stop_reads w)); [right; by left|].
    pose proof (delay_before_attempts retryCount (after_read w)) as Hd.
    destruct (delay_before env langIdx retryCount (after_read w)) as [cancelled w1].
    cbn in Hd. destruct cancelled; [right; by left|].
    destruct (attempt_run Context_max_len_init env text clientIP w1) as (Ha & _).
    destruct (attempt' w1) as [attemptResult w2]. cbn [snd] in Ha. cbn zeta.
    destruct (stopRequested env (stop_reads w2)); [right; by left|].
    destruct (isValidTranslationResult attemptResult) eqn:Hvalid.
    { right. right. exists [], (sleeps w1). split_and!; [|done|done].
      destruct (retryCount >? 0); cbn; congruence. }
    rewrite wrap_int_small by (unfold INT_MAX; lia).
    destruct (retryCount + 1 >=? 5);
      match goal with
      | |- context [retry_loop _ _ fuel _ _ _ _ ?res ?w4] =>
          pose proof (IH (retryCount + 1) res w4 fuel ltac:(lia) ltac:(lia))
            as Hrec;
          destruct (retry_loop Context_max_len_init env fuel text clientIP
                      langIdx (retryCount + 1) res w4) as [r w']
      end;
      (destruct Hrec as [->|[->|(results & t & Hres & Hr & Hinv)]];
       [by (left + (right; left))|right; by left|]);
      right; right; exists ((sleeps w1, attemptResult) :: results), t;
      (split_and!; [|done|by constructor]);
      rewrite Hres; cbn [add_trace after_read after_attempt attempts];
      rewrite Ha, Hd, <- !app_assoc; reflexivity.
Qed.
(** The last attempt of a run, when it returned a valid result: the loop
    returns that result when the stop flag is clear at the read that
    follows the attempt, and the empty string when it is set. *)
Lemma retry_loop_last n : ∀ retryCount resultText w fuel,
  0 ≤ retryCount → retryCount + Z.of_nat n = MAX_RETRY_COUNT →
  let '(r, w') := loop' fuel retryCount resultText w in
  ∀ results t x,
    attempts w' = attempts w ++ results ++ [(t, x)] →
    isValidTranslationResult x = true →
    r = if stopRequested env (stop_reads w' - 1) then [] else x.
Proof.
  assert (∀ (l : list (nat * list Z)) results t x,
            l = l ++ results ++ [(t, x)] → False) as Hnone.
  { intros l results t x Hl. apply (f_equal length) in Hl.
    rewrite !length_app in Hl. cbn in Hl. lia. }
  unfold MAX_RETRY_COUNT.
  induction n as [|n IH]; intros retryCount resultText w fuel Hrc Hn.
  - rewrite retry_loop_done by (unfold MAX_RETRY_COUNT; lia).
    intros results t x Ha. by destruct (Hnone _ _ _ _ Ha).
  - destruct fuel as [|fuel].
    { intros results t x Ha. by destruct (Hnone _ _ _ _ Ha). }
    rewrite retry_loop_turn by (unfold MAX_RETRY_COUNT; lia).
    unfold MAX_RETRY_COUNT.
    destruct (stopRequested env (stop_reads w)).
    { intros results t x Ha. by destruct (Hnone _ _ _ _ Ha). }
    pose proof (delay_before_attempts retryCount (after_read w)) as Hd.
    destruct (delay_before env langIdx retryCount (after_read w)) as [cancelled w1].
    cbn in Hd. destruct cancelled.
    { intros results t x Ha. rewrite Hd in Ha. by destruct (Hnone _ _ _ _ Ha). }
    destruct (attempt_run Context_max_len_init env text clientIP w1) as (Ha & _).
    destruct (attempt' w1) as [attemptResult w2]. cbn [snd] in Ha. cbn zeta.
    assert (∀ results t x,
              attempts w2 ++ [(sleeps w1, attemptResult)] =
                attempts w ++ results ++ [(t, x)] → x = attemptResult) as Hone.
    { intros results t x Hx. rewrite Ha, Hd in Hx.
      apply app_inv_head in Hx.
      destruct results as [|y results]; [by injection Hx as _ <-|].
      apply (f_equal length) in Hx. cbn in Hx. rewrite length_app in Hx.
      cbn in Hx. lia. }
    destruct (stopRequested env (stop_reads w2)) eqn:Hstop.
    { intros results t x Hx _.
      cbn [after_read after_attempt stop_reads attempts] in Hx |- *.
      replace (S (stop_reads w2) - 1)%nat with (stop_reads w2) by lia.
      by rewrite Hstop. }
    destruct (isValidTranslationResult attemptResult) eqn:Hvalid.
    { intros results t x Hx _.
      assert (x = attemptResult) as ->.
      { apply (Hone results t). by destruct (retryCount >? 0). }
      destruct (retryCount >? 0);
        cbn [add_trace after_read after_attempt stop_reads];
        replace (S (stop_reads w2) - 1)%nat with (stop_reads w2) by lia;
        by rewrite Hstop. }
    rewrite wrap_int_small by (unfold INT_MAX; lia).
    destruct (retryCount + 1 >=? 5);
      match goal with
      | |- context [retry_loop _ _ fuel _ _ _ _ ?res ?w4] =>
          pose proof (IH (retryCount + 1) res w4 fuel ltac:(lia) ltac:(lia))
            as Hrec;
          destruct (retry_loop_bound n (retryCount + 1) res w4 fuel
                      ltac:(lia) ltac:(unfold MAX_RETRY_COUNT; lia))
            as (more & Hmore & _);
          destruct (retry_loop Context_max_len_init env fuel text clientIP
                      langIdx (retryCount + 1) res w4) as [r w']
      end;
      cbn [snd] in Hmore;
      cbn [add_trace after_read after_attempt attempts] in Hrec, Hmore;
      intros results t x Hx Hxvalid;
      (destruct more as [|y more _] using rev_ind;
       [rewrite app_nil_r in Hmore; rewrite Hmore in Hx;
        apply Hone in Hx; congruence|]);
      (apply (Hrec more t x); [|done]);
      rewrite Hmore, Ha, Hd, <- !app_assoc in Hx;
      apply app_inv_head in Hx;
      apply (app_inj_tail ((sleeps w1, attemptResult) :: more) results) in Hx
        as [_ ->];
      exact Hmore.
Qed.
End RetryClear.

Section RetryTheorems.
Context `{CaseFolding}.
Variable Context_max_len_init : Z.
Variable env : Env.
Variables text clientIP : list Z.
Implicit Types (w : World) (retryCount : Z).

Lemma isValidTranslationResult_spec x :
  isValidTranslationResult x = true ↔
  x ≠ [] ∧ startsWith eq_ci (qs "Error") x = false
  ∧ contains eq_ci TRANSLATION_FAILED_ZH x = false
  ∧ contains eq_ci (qs "translation failed") x = false.
Proof.
  unfold isValidTranslationResult.
  rewrite !andb_true_iff, !negb_true_iff. split.
  - intros ((((Hne & ?) & ?) & ?) & _). split_and!; try done.
    intros ->. done.
  - intros (Hne & ? & ? & ?). split_and!; try done.
    + by destruct x.
    + destruct x; [done|]. cbn [length]. apply Z.gtb_lt. lia.
Qed.

(** C3.  A request makes at most 5 attempts.  The stop flag is read at
    three points, and a set flag gives the empty string at each: at the
    head of every turn of the loop, before any attempt is made; before each
    of the ten sleeps of 100 ms a retry waits through; and right after
    every attempt, where a set flag discards the result of the attempt even
    when that result is valid.  Whatever the stop flag does, the result is
    the empty string or the first valid attempt result, and that valid
    result is returned exactly when the stop flag is clear at the read that
    follows its attempt; when the stop flag is never found set the result
    is the first valid attempt result, and the empty string after 5 invalid
    ones.  A result is valid when it is not empty, does not begin with
    [Error] and holds neither the Chinese needle nor [translation failed],
    letter case apart; an attempt returns the empty string or a valid
    result, and on such a result the test gives the same whether the two
    needles are compared with or without regard to letter case. *)
Theorem retry_loop_behaviour w :
  let langIdx := language (m_config (server w)) in
  let '(r, w') := performTranslation Context_max_len_init env text clientIP w in
  (∃ results, attempts w' = attempts w ++ results ∧ (length results ≤ 5)%nat)
  ∧ (stopRequested env (stop_reads w) = true → r = [] ∧ attempts w' = attempts w)
  ∧ first_valid_or_empty w r w'
  ∧ (∀ results t x,
       attempts w' = attempts w ++ results ++ [(t, x)] →
       isValidTranslationResult x = true →
       r = if stopRequested env (stop_reads w' - 1) then [] else x)
  ∧ (never_stopped env → loop_outcome 0 5 w [] r w')
  ∧ (∀ x, isValidTranslationResult x = true ↔
       x ≠ [] ∧ startsWith eq_ci (qs "Error") x = false
       ∧ contains eq_ci TRANSLATION_FAILED_ZH x = false
       ∧ contains eq_ci (qs "translation failed") x = false)
  ∧ (∀ w0,
       let x := (performSingleTranslationAttempt Context_max_len_init env
                   text clientIP w0).1 in
       (x = [] ∨ isValidTranslationResult x = true)
       ∧ isValidTranslationResult x = valid_as_worded x)
  ∧ (∀ fuel retryCount resultText w0,
       retryCount < MAX_RETRY_COUNT →
       retry_loop Context_max_len_init env (S fuel) text clientIP langIdx
         retryCount resultText w0 =
         if stopRequested env (stop_reads w0)
         then ([], add_trace [logMessage (SV_ABORTED langIdx)] (after_read w0)) else
         let '(cancelled, w1) := delay_before env langIdx retryCount (after_read w0) in
         if cancelled then ([], w1) else
         let '(attemptResult, w2) :=
           performSingleTranslationAttempt Context_max_len_init env text clientIP w1 in
         let w4 := after_read (after_attempt (sleeps w1) attemptResult w2) in
         if stopRequested env (stop_reads w2) then ([], w4) else
         if isValidTranslationResult attemptResult then
           (attemptResult,
            if retryCount >? 0
            then add_trace [logMessage (SV_RETRY_SUCCESS langIdx)] w4 else w4)
         else if wrap_int (retryCount + 1) >=? MAX_RETRY_COUNT then
           retry_loop Context_max_len_init env fuel text clientIP langIdx
             (wrap_int (retryCount + 1)) []
             (add_trace [logMessage (SV_RETRY_FAILED langIdx)] w4)
         else retry_loop Context_max_len_init env fuel text clientIP langIdx
                (wrap_int (retryCount + 1)) resultText w4)
  ∧ (∀ w0,
       (∀ j, (j < 10)%nat → stopRequested env (stop_reads w0 + j) = false) →
       ∃ w1, backoff env (Z.to_nat (RETRY_DELAY_MS / 100)) w0 = (false, w1)
             ∧ sleeps w1 = (sleeps w0 + 10)%nat ∧ attempts w1 = attempts w0)
  ∧ (∀ w0 j,
       (j < 10)%nat →
       (∀ i, (i < j)%nat → stopRequested env (stop_reads w0 + i) = false) →
       stopRequested env (stop_reads w0 + j) = true →
       ∃ w1, backoff env (Z.to_nat (RETRY_DELAY_MS / 100)) w0 = (true, w1)
             ∧ sleeps w1 = (sleeps w0 + j)%nat ∧ attempts w1 = attempts w0).
Proof.
  intros langIdx. unfold performTranslation, bind, getConfig. fold langIdx.
  change (Z.to_nat MAX_RETRY_COUNT) with 5%nat.
  pose proof (retry_loop_bound Context_max_len_init env text clientIP langIdx
                5 0 [] w 6 ltac:(lia) ltac:(done)) as Hbound.
  pose proof (retry_loop_clear Context_max_len_init env text clientIP langIdx
                5 0 [] w 6) as Hclear.
  pose proof (retry_loop_turn Context_max_len_init env text clientIP langIdx
                5 0 [] w ltac:(done)) as Hturn.
  pose proof (retry_loop_result Context_max_len_init env text clientIP langIdx
                5 0 [] w 6 ltac:(lia) ltac:(done)) as Hresult.
  pose proof (retry_loop_last Context_max_len_init env text clientIP langIdx
                5 0 [] w 6 ltac:(lia) ltac:(done)) as Hlast.
  cbn beta in Hbound, Hclear, Hturn, Hresult, Hlast.
  destruct (retry_loop Context_max_len_init env 6 text clientIP langIdx 0 [] w)
    as [r w'].
  split_and!.
  - exact Hbound.
  - intros Hstop. rewrite Hstop in Hturn. by injection Hturn as -> ->.
  - destruct Hresult as [->|Hresult]; [by left|done].
  - exact Hlast.
  - intros Hns. apply Hclear; [done|lia|done|lia].
  - apply isValidTranslationResult_spec.
  - intros w0. cbn zeta.
    pose proof (attempt_result Context_max_len_init env text clientIP w0) as Hx.
    split; [exact Hx|by apply valid_as_worded_agrees].
  - intros. by apply retry_loop_turn.
  - intros w0 Hw0.
    destruct (backoff_clear env 10 w0 Hw0) as (w1 & ? & ? & ? & _). by exists w1.
  - intros w0 j Hj Hbefore Hset.
    destruct (backoff_cut env 10 w0 j Hj Hbefore Hset) as (w1 & ? & ? & ?).
    by exists w1.
Qed.

End RetryTheorems.

(* ----------------------------------------------------------------- *)
(** ** Reloads in the course of a translation                         *)
(* ----------------------------------------------------------------- *)

(** The configuration in force after the sleeps numbered [from], ...,
    [from + n - 1], when [cfg] was in force before them: another thread
    installs [hotReload env k] during the sleep numbered [k]. *)
Definition config_after (env : Env) (cfg : AppConfig) (from n : nat)
    : AppConfig :=
  foldl (λ c k, default c (hotReload env k)) cfg (seq from n).

Definition is_msleep (e : Event) : bool :=
  match e with msleep _ => true | _ => false end.

Definition is_post (e : Event) : bool :=
  match e with post _ _ _ => true | _ => false end.

(** The number of sleeps among the events. *)
Definition sleeps_in (evs : list Event) : nat :=
  length (List.filter is_msleep evs).

(** [w'] comes from [w] by a run that records its sleeps in the trace, in
    which the configuration changes only by the reloads that take place
    during these sleeps, and in which every request names the model of the
    configuration in force when it is sent: the one last installed during
    the sleeps made before it, or the one of [w] when there is none. *)
Definition requests_follow_config (env : Env) (w w' : World) : Prop :=
  ∃ evs,
    trace w' = trace w ++ evs
    ∧ sleeps w' = (sleeps w + sleeps_in evs)%nat
    ∧ m_config (server w') =
        config_after env (m_config (server w)) (sleeps w) (sleeps_in evs)
    ∧ ∀ before url authorization payload after,
        evs = before ++ post url authorization payload :: after →
        payload_model payload =
          model_name (config_after env (m_config (server w)) (sleeps w)
                        (sleeps_in before)).

(** [m] neither sleeps nor changes the configuration, and every request it
    sends names the model [name]. *)
Definition steady (name : list Z) {A : Type} (m : M A) : Prop :=
  ∀ w, m_config (server (m w).2) = m_config (server w)
       ∧ sleeps (m w).2 = sleeps w
       ∧ ∃ evs, trace (m w).2 = trace w ++ evs
                ∧ Forall (λ e, post_model_is name e ∧ is_msleep e = false) evs.

Section Steady.
Context `{CaseFolding}.
Variable Context_max_len_init : Z.
Variable env : Env.
Variable name : list Z.
Implicit Types (w : World).

Lemma steady_same {A} (m : M A) :
  (∀ w, m_config (server (m w).2) = m_config (server w)
        ∧ sleeps (m w).2 = sleeps w ∧ trace (m w).2 = trace w) →
  steady name m.
Proof.
  intros Hm w. destruct (Hm w) as (Hc & Hs & Ht).
  split_and!; [done|done|]. exists []. by rewrite app_nil_r.
Qed.

Lemma steady_bind {A B} (m : M A) (f : A → M B) :
  steady name m → (∀ a, steady name (f a)) → steady name (bind m f).
Proof.
  intros Hm Hf w. unfold bind. destruct (Hm w) as (Hc1 & Hs1 & evs1 & Ht1 & Hp1).
  destruct (m w) as [a w1]. cbn [snd] in *.
  destruct (Hf a w1) as (Hc2 & Hs2 & evs2 & Ht2 & Hp2).
  split_and!; [congruence|congruence|].
  exists (evs1 ++ evs2). rewrite Ht2, Ht1, app_assoc.
  split; [done|by apply Forall_app].
Qed.

Lemma steady_emit e :
  post_model_is name e → is_msleep e = false → steady name (emit e).
Proof.
  intros Hp He w. split_and!; [done|done|].
  exists [e]. split; [done|]. by constructor.
Qed.

Lemma steady_poll_stop n : steady name (poll_stop env n).
Proof.
  induction n as [|n IH]; [by apply steady_same|]. cbn [poll_stop].
  apply steady_bind; [by apply steady_same|].
  intros [|]; [by apply steady_same|done].
Qed.

Lemma steady_getNextApiKey : steady name getNextApiKey.
Proof.
  apply steady_same. intros w.
  unfold getNextApiKey, bind, getServer, putServer, ret.
  by case_bool_decide.
Qed.

Lemma steady_withContexts {A}
    (f : gmap (list Z) Context → A * gmap (list Z) Context) :
  steady name (withContexts f).
Proof.
  apply steady_same. intros w.
  unfold withContexts, bind, getServer, putServer, ret. cbn [server].
  by destruct (f _).
Qed.

Lemma steady_announceTerms lang terms : steady name (announceTerms lang terms).
Proof.
  induction terms as [|[k v] terms IH]; [by apply steady_same|].
  cbn [announceTerms].
  apply steady_bind; [by apply steady_emit|]. intros _.
  apply steady_bind; [by apply steady_emit|]. by intros _.
Qed.

Lemma steady_awaitReply cfg performExtraction processedText
    currentUserContent clientId escapeCtx k payload :
  steady name (awaitReply Context_max_len_init env cfg performExtraction
                 processedText currentUserContent clientId escapeCtx k payload).
Proof.
  unfold awaitReply.
  apply steady_bind; [apply steady_poll_stop|]. intros aborted.
  apply steady_bind; [by apply steady_same|]. intros stop.
  destruct stop; [by apply steady_same|].
  destruct (if aborted then _ else _) as [|e|[|usage choices]];
    try (apply steady_bind; [by apply steady_emit|];
         intros _; by apply steady_same).
  apply steady_bind.
  { destruct usage as [[p c]|]; [|by apply steady_same].
    destruct ((p >? 0) || (c >? 0));
      [by apply steady_emit|by apply steady_same]. }
  intros _. destruct choices as [| |rawContent];
    try (apply steady_bind; [by apply steady_emit|];
         intros _; by apply steady_same).
  unfold handleContent.
  apply steady_bind.
  { destruct performExtraction; [|by apply steady_same].
    destruct (harvestTerms _ _) as [rebuilt_ terms].
    apply steady_bind; [apply steady_announceTerms|].
    intros _. by apply steady_same. }
  intros cleanContent.
  apply steady_bind; [by apply steady_emit|]. intros _.
  destruct (isValidTranslationResult _); [|by apply steady_same].
  apply steady_bind; [apply steady_withContexts|]. intros _.
  by apply steady_same.
Qed.
End Steady.

Section Reload.
Context `{CaseFolding}.
Variable Context_max_len_init : Z.
Variable env : Env.
Variables text clientIP : list Z.
Implicit Types (w : World) (cfg : AppConfig).

Lemma config_after_app cfg from a b :
  config_after env cfg from (a + b) =
    config_after env (config_after env cfg from a) (from + a) b.
Proof. unfold config_after. by rewrite seq_app, foldl_app. Qed.

Lemma sleeps_in_app evs1 evs2 :
  sleeps_in (evs1 ++ evs2) = (sleeps_in evs1 + sleeps_in evs2)%nat.
Proof. unfold sleeps_in. by rewrite List.filter_app, length_app. Qed.

Lemma requests_follow_config_refl w : requests_follow_config env w w.
Proof.
  exists []. rewrite app_nil_r. cbn. rewrite Nat.add_0_r.
  split_and!; [done|done|done|].
  intros before url a p after Hnil. by destruct before.
Qed.

Lemma requests_follow_config_trans w1 w2 w3 :
  requests_follow_config env w1 w2 → requests_follow_config env w2 w3 →
  requests_follow_config env w1 w3.
Proof.
  intros (evs1 & Ht1 & Hs1 & Hc1 & Hp1) (evs2 & Ht2 & Hs2 & Hc2 & Hp2).
  exists (evs1 ++ evs2). rewrite sleeps_in_app, config_after_app.
  split_and!.
  - by rewrite Ht2, Ht1, app_assoc.
  - lia.
  - by rewrite Hc2, Hc1, Hs1.
  - intros before url a p after Hsplit.
    apply app_eq_app in Hsplit as [l [[-> Hl]|[-> ->]]].
    + destruct l as [|e l].
      * cbn in Hl. rewrite app_nil_r in Hc1.
        rewrite (Hp2 [] url a p after) by done.
        cbn. by rewrite Hc1.
      * injection Hl as <- ->. by apply (Hp1 before url a p l).
    + rewrite (Hp2 l url a p after) by done.
      by rewrite sleeps_in_app, config_after_app, Hc1, Hs1.
Qed.

(** A run that neither sleeps nor changes the configuration, and whose
    requests name the model in force. *)
Lemma steady_follows {A} (m : M A) w :
  steady (model_name (m_config (server w))) m →
  requests_follow_config env w (m w).2.
Proof.
  intros Hm. destruct (Hm w) as (Hc & Hs & evs & Ht & Hp).
  assert (sleeps_in evs = 0%nat) as H0.
  { clear Ht. unfold sleeps_in. induction Hp as [|e evs [_ He] _ IH]; [done|].
    cbn. by rewrite He. }
  exists evs. rewrite H0, Nat.add_0_r.
  split_and!; [done|done|done|].
  intros before url a p after ->.
  rewrite sleeps_in_app in H0.
  replace (sleeps_in before) with 0%nat by lia. cbn.
  apply Forall_app in Hp as [_ Hp]. apply Forall_cons in Hp as [[Hp _] _].
  exact Hp.
Qed.

Lemma steady_attemptWithSnapshot cfg :
  steady (model_name cfg)
    (attemptWithSnapshot Context_max_len_init env cfg text clientIP).
Proof.
  unfold attemptWithSnapshot.
  apply steady_bind; [apply steady_getNextApiKey|]. intros apiKey.
  destruct (isEmpty apiKey).
  { apply steady_bind; [by apply steady_emit|].
    intros _; by apply steady_same. }
  destruct (freezeEscapesLocal text) as [processedText escapeCtx].
  apply steady_bind; [by apply steady_same|]. intros seen.
  apply steady_bind; [apply steady_withContexts|]. intros past.
  apply steady_bind.
  { intros w1. split_and!; [done|done|].
    eexists [_]. split; [reflexivity|]. by repeat constructor. }
  intros k. apply steady_awaitReply.
Qed.

(** A step that neither sleeps, nor sends a request, nor changes the
    configuration. *)
Lemma quiet_step_follows w w' evs :
  trace w' = trace w ++ evs →
  Forall (λ e, is_post e = false ∧ is_msleep e = false) evs →
  sleeps w' = sleeps w →
  m_config (server w') = m_config (server w) →
  requests_follow_config env w w'.
Proof.
  intros Ht Hq Hs Hc.
  assert (sleeps_in evs = 0%nat) as H0.
  { clear Ht. unfold sleeps_in. induction Hq as [|e evs [_ He] _ IH]; [done|].
    cbn. by rewrite He. }
  exists evs. rewrite H0, Nat.add_0_r.
  split_and!; [done|done|done|].
  intros before url a p after ->.
  apply Forall_app in Hq as [_ Hq]. by apply Forall_cons in Hq as [[? _] _].
Qed.

Lemma after_read_follows w : requests_follow_config env w (after_read w).
Proof. apply (quiet_step_follows _ _ []); [by rewrite app_nil_r|done..]. Qed.

Lemma log_follows msg w :
  requests_follow_config env w (add_trace [logMessage msg] w).
Proof. apply (quiet_step_follows _ _ [logMessage msg]); by repeat constructor. Qed.

(** An attempt: its requests name the model of the configuration in force
    when it starts, and it leaves that configuration in force. *)
Lemma attempt_follows w :
  requests_follow_config env w
    (performSingleTranslationAttempt Context_max_len_init env text clientIP w).2.
Proof.
  unfold performSingleTranslationAttempt, bind at 1, readStop at 1.
  destruct (stopRequested env (stop_reads w)); [apply after_read_follows|].
  unfold bind at 1, getConfig at 1. cbn [server].
  apply (requests_follow_config_trans _ (after_read w));
    [apply after_read_follows|].
  apply (steady_follows
           (attemptWithSnapshot Context_max_len_init env (m_config (server w))
              text clientIP) (after_read w)).
  apply steady_attemptWithSnapshot.
Qed.

Lemma msleep100_follows w :
  requests_follow_config env w (msleep100 env w).2.
Proof.
  unfold msleep100.
  destruct (hotReload env (sleeps w)) as [cfg|] eqn:Hload.
  - unfold updateConfig, bind, getServer, putServer, emit, skip, ret.
    destruct (enable_glossary cfg); cbn [snd].
    + exists [msleep 100; setFilePath (glossary_path cfg)].
      cbn [trace sleeps server set_config m_config]. rewrite <- app_assoc.
      split_and!; [done|cbn; lia|by cbn; rewrite Hload|].
      intros [|e1 [|e2 [|e3 before]]] url a p after; cbn; congruence.
    + exists [msleep 100].
      cbn [trace sleeps server set_config m_config].
      split_and!; [done|cbn; lia|by cbn; rewrite Hload|].
      intros [|e1 [|e2 before]] url a p after; cbn; congruence.
  - exists [msleep 100]. cbn [snd trace sleeps server].
    split_and!; [done|cbn; lia|by cbn; rewrite Hload|].
    intros [|e1 [|e2 before]] url a p after; cbn; congruence.
Qed.

Lemma backoff_follows n : ∀ w, requests_follow_config env w (backoff env n w).2.
Proof.
  induction n as [|n IH]; intros w; [apply requests_follow_config_refl|].
  rewrite backoff_turn.
  destruct (stopRequested env (stop_reads w)); [apply after_read_follows|].
  apply (requests_follow_config_trans _ (after_read w));
    [apply after_read_follows|].
  apply (requests_follow_config_trans _ (msleep100 env (after_read w)).2);
    [apply msleep100_follows|apply IH].
Qed.

Lemma delay_before_follows langIdx retryCount w :
  requests_follow_config env w (delay_before env langIdx retryCount w).2.
Proof.
  unfold delay_before.
  destruct (retryCount >? 0); [|apply requests_follow_config_refl].
  unfold bind, emit.
  match goal with
  | |- context [backoff env ?n ?w0] =>
      apply (requests_follow_config_trans _ w0); [|apply backoff_follows]
  end.
  apply (log_follows _ w).
Qed.

(** The loop of a request, from any turn. *)
Lemma retry_loop_follows langIdx fuel : ∀ retryCount resultText w,
  requests_follow_config env w
    (retry_loop Context_max_len_init env fuel text clientIP langIdx
       retryCount resultText w).2.
Proof.
  induction fuel as [|fuel IH]; intros retryCount resultText w;
    [apply requests_follow_config_refl|].
  destruct (Z.lt_ge_cases retryCount MAX_RETRY_COUNT) as [Hlt|Hge].
  2:{ rewrite retry_loop_done by done. apply requests_follow_config_refl. }
  rewrite retry_loop_turn by done.
  destruct (stopRequested env (stop_reads w)).
  { apply (requests_follow_config_trans _ (after_read w));
      [apply after_read_follows|apply log_follows]. }
  pose proof (delay_before_follows langIdx retryCount (after_read w)) as Hd.
  destruct (delay_before env langIdx retryCount (after_read w)) as [cancelled w1].
  cbn [snd] in Hd.
  assert (requests_follow_config env w w1) as H1.
  { apply (requests_follow_config_trans _ (after_read w));
      [apply after_read_follows|done]. }
  destruct cancelled; [done|].
  pose proof (attempt_follows w1) as Ha.
  destruct (performSingleTranslationAttempt _ _ _ _ _) as [attemptResult w2].
  cbn [snd] in Ha. cbn zeta.
  set (w4 := after_read (after_attempt (sleeps w1) attemptResult w2)).
  assert (requests_follow_config env w w4) as H4.
  { apply (requests_follow_config_trans _ w1); [done|].
    apply (requests_follow_config_trans _ w2); [done|].
    apply (quiet_step_follows _ _ []); [by rewrite app_nil_r|done..]. }
  destruct (stopRequested env (stop_reads w2)); [done|].
  destruct (isValidTranslationResult attemptResult).
  { destruct (retryCount >? 0); [|done].
    apply (requests_follow_config_trans _ w4); [done|apply log_follows]. }
  destruct (wrap_int (retryCount + 1) >=? MAX_RETRY_COUNT).
  - apply (requests_follow_config_trans _ w4); [done|].
    match goal with
    | |- context [retry_loop _ _ fuel _ _ _ _ _ ?w5] =>
        apply (requests_follow_config_trans _ w5); [apply log_follows|apply IH]
    end.
  - apply (requests_follow_config_trans _ w4); [done|apply IH].
Qed.
Lemma config_after_last cfg from n k cfg' :
  (k < n)%nat →
  hotReload env (from + k) = Some cfg' →
  (∀ i, (k < i < n)%nat → hotReload env (from + i) = None) →
  config_after env cfg from n = cfg'.
Proof.
  induction n as [|n IH]; intros Hk Hload Hafter; [lia|].
  unfold config_after. rewrite seq_S, foldl_app. cbn [foldl].
  fold (config_after env cfg from n).
  destruct (decide (k = n)) as [->|Hne]; [by rewrite Hload|].
  rewrite (Hafter n) by lia. cbn. apply IH; [lia|done|].
  intros i Hi. apply Hafter. lia.
Qed.

(** C5.  Every request sent in the course of one translation names the
    model of the configuration in force when it is sent: the one last
    installed by another thread during the sleeps the translation has made
    so far, which are the sleeps of the delays between its attempts, or the
    one in force when the translation started.  So when a configuration is
    installed during the delay between two attempts of a translation, and
    none after it, the request of the next attempt names its model.  Each
    attempt reads the configuration when it starts and builds its request
    from that snapshot; after a delay during which [cfg] is installed, the
    attempt does send its request when it is not stopped on entry and the
    first key of the pool of [cfg] is not empty. *)
Theorem hot_reload_effective w :
  let '(r, w') :=
    performTranslation Context_max_len_init env text clientIP w in
  requests_follow_config env w w'
  ∧ (∀ before url authorization payload after k cfg,
       trace w' =
         trace w ++ before ++ post url authorization payload :: after →
       (k < sleeps_in before)%nat →
       hotReload env (sleeps w + k) = Some cfg →
       (∀ i, (k < i < sleeps_in before)%nat →
             hotReload env (sleeps w + i) = None) →
       payload_model payload = model_name cfg)
  ∧ (∀ w0, run_of_attempt (model_name (m_config (server w0))) w0
             (performSingleTranslationAttempt Context_max_len_init env
                text clientIP w0).2)
  ∧ (∀ w0 j cfg,
       (j < 10)%nat →
       (∀ i, (i < 10)%nat → stopRequested env (stop_reads w0 + i) = false) →
       hotReload env (sleeps w0 + j) = Some cfg →
       (∀ i, (j < i < 10)%nat → hotReload env (sleeps w0 + i) = None) →
       ∃ w1,
         backoff env (Z.to_nat (RETRY_DELAY_MS / 100)) w0 = (false, w1)
         ∧ m_config (server w1) = cfg
         ∧ ∀ key,
             stopRequested env (stop_reads w1) = false →
             parseApiKeys (api_key cfg) !! 0%nat = Some key → key ≠ [] →
             ∃ evs payload,
               trace (performSingleTranslationAttempt Context_max_len_init env
                        text clientIP w1).2 = trace w1 ++ evs
               ∧ post (api_address cfg ++ qs "/chat/completions")
                      (qs "Bearer " ++ key) payload ∈ evs
               ∧ payload_model payload = model_name cfg).
Proof.
  unfold performTranslation, bind, getConfig.
  pose proof (retry_loop_follows (language (m_config (server w)))
                (S (Z.to_nat MAX_RETRY_COUNT)) 0 [] w) as Hrun.
  destruct (retry_loop _ _ _ _ _ _ _ _ _) as [r w']. cbn [snd] in Hrun.
  split_and!.
  - exact Hrun.
  - intros before url a p after k cfg Ht Hk Hload Hafter.
    destruct Hrun as (evs & Ht' & _ & _ & Hposts).
    rewrite Ht' in Ht. apply app_inv_head in Ht.
    rewrite (Hposts before url a p after Ht).
    by rewrite (config_after_last _ _ _ k cfg).
  - intros w0. apply attempt_run.
  - intros w0 j cfg Hj Hclear Hload Hafter.
    destruct (backoff_reload env 10 w0 j cfg Hj Hclear Hload Hafter)
      as (w1 & Hb & Hcfg & Hkeys & Hcur & _).
    exists w1. split; [exact Hb|]. split; [exact Hcfg|].
    intros key Hstop Hkey Hne.
    destruct (attempt_sends Context_max_len_init env text clientIP w1 key)
      as (evs & payload & Ht & Hin & Hmodel); [done| |done|].
    { by rewrite Hkeys, Hcur. }
    rewrite Hcfg in Hin, Hmodel. by exists evs, payload.
Qed.
End Reload.

(* ----------------------------------------------------------------- *)
(** ** Sample runs                                                    *)
(* ----------------------------------------------------------------- *)

(** C4 fails for a negative cap: after two attempts of a client whose cap
    is -1 the history holds two pairs. *)
Lemma context_bound_negative_cap :
  let client := qs "c" in
  let turn := (qs "a", qs "b") in
  let ops := [OpRead client (-1); OpAppend client turn;
              OpRead client (-1); OpAppend client turn] in
  ∃ ctx,
    runOps 5 ops ∅ !! client = Some ctx
    ∧ lastCap 5 client ops = Some (max_len ctx)
    ∧ max_len ctx = -1
    ∧ length (history ctx) = 2%nat
    ∧ ¬ (Z.of_nat (length (history ctx)) ≤ max_len ctx).
Proof.
  eexists. split; [vm_compute; reflexivity|].
  split_and!; [vm_compute; reflexivity|reflexivity|reflexivity|]. cbn. lia.
Qed.

(** C4 at a client with cap 2 and three appends: the two latest pairs are
    kept. *)
Lemma context_bound_witness :
  let client := qs "c" in
  let ops := [OpRead client 2; OpAppend client (qs "a", qs "1");
              OpAppend client (qs "b", qs "2");
              OpAppend client (qs "c", qs "3")] in
  let ctx := {| history := [(qs "b", qs "2"); (qs "c", qs "3")];
                max_len := 2 |} in
  runOps 5 ops ∅ !! client = Some ctx
  ∧ lastCap 5 client ops = Some (max_len ctx)
  ∧ (0 ≤ max_len ctx ≤ INT_MAX →
     Z.of_nat (length (history ctx)) ≤ max_len ctx).
Proof.
  cbn zeta.
  assert (runOps 5 [OpRead (qs "c") 2; OpAppend (qs "c") (qs "a", qs "1");
                    OpAppend (qs "c") (qs "b", qs "2");
                    OpAppend (qs "c") (qs "c", qs "3")] ∅ !! qs "c"
          = Some {| history := [(qs "b", qs "2"); (qs "c", qs "3")];
                    max_len := 2 |}) as Hrun.
  { vm_compute. reflexivity. }
  split; [exact Hrun|].
  destruct (context_bound 5 _ _ _ Hrun) as (Hcap & Hsize & _).
  split; [exact Hcap|exact Hsize].
Defined.

(** C10 at the cap -1: three attempts leave three pairs. *)
Lemma negative_cap_never_trims_witness :
  let client := qs "c" in
  let turn := (qs "a", qs "b") in
  runOps 5 (concat (replicate 3 (attemptOps client (-1) turn))) ∅ !! client =
    Some {| history := replicate 3 turn; max_len := -1 |}.
Proof.
  cbn zeta.
  destruct (negative_cap_never_trims 5 (qs "c") (-1) (qs "a", qs "b") ∅ 3)
    as (_ & _ & _ & Hgrow); [lia|vm_compute; reflexivity|].
  apply Hgrow. lia.
Defined.

(** C7 at a pool of three keys and six calls. *)
Lemma key_rotation_fair_witness :
  let w := sample_world (set_api_key (qs "k1,k2,k3") (sample_config (qs "m"))) in
  let '(keys, w') := getNextApiKey_times (2 * 3) w in
  keys = [qs "k1"; qs "k2"; qs "k3"; qs "k1"; qs "k2"; qs "k3"]
  ∧ m_currentKeyIndex (server w') = 0%nat
  ∧ (∀ key, key ∈ [qs "k1"; qs "k2"; qs "k3"] → occurrences key keys = 2%nat).
Proof.
  cbn zeta.
  destruct (key_rotation_fair
              (sample_world (set_api_key (qs "k1,k2,k3") (sample_config (qs "m"))))
              2)
    as (_ & _ & Hrounds).
  specialize (Hrounds ltac:(done) ltac:(done)). cbn zeta in Hrounds.
  change (length _) with 3%nat in Hrounds.
  destruct (getNextApiKey_times (2 * 3) _) as [keys w'].
  destruct Hrounds as (-> & Hcur & _ & Hnodup).
  split; [reflexivity|]. split; [exact Hcur|].
  intros key Hkey. apply Hnodup; [|exact Hkey].
  apply (bool_decide_unpack _). vm_compute. exact I.
Defined.

(** C5 at a translation whose first attempt times out and during whose
    fourth sleep [gpt-4o] is installed: the request of the second attempt,
    sent after the ten sleeps of the delay, names [gpt-4o], and the first
    one [gpt-3.5-turbo]. *)
Lemma hot_reload_effective_witness :
  let old := sample_config (qs "gpt-3.5-turbo") in
  let new := sample_config (qs "gpt-4o") in
  let env := sample_env (λ _, false) (reload_at 3 new)
               (second_answers (qs "<tl>ok</tl>")) in
  let tr := trace (@performTranslation asciiFolding 5 env
                     (qs "Hello") (qs "127.0.0.1") (sample_world old)).2 in
  ∃ url1 a1 p1 url2 a2 p2,
    tr !! 0%nat = Some (post url1 a1 p1)
    ∧ payload_model p1 = qs "gpt-3.5-turbo"
    ∧ tr !! 13%nat = Some (post url2 a2 p2)
    ∧ sleeps_in (take 13 tr) = 10%nat
    ∧ payload_model p2 = qs "gpt-4o".
Proof.
  cbn zeta.
  set (env := sample_env (λ _, false) (reload_at 3 (sample_config (qs "gpt-4o")))
                (second_answers (qs "<tl>ok</tl>"))).
  set (w := sample_world (sample_config (qs "gpt-3.5-turbo"))).
  pose proof (@hot_reload_effective asciiFolding 5 env
                (qs "Hello") (qs "127.0.0.1") w) as Hrun.
  destruct (@performTranslation asciiFolding 5 env (qs "Hello")
              (qs "127.0.0.1") w) as [r w'] eqn:Hrw.
  cbn [snd]. destruct Hrun as (_ & Hnext & _).
  assert (∃ url1 a1 p1, trace w' !! 0%nat = Some (post url1 a1 p1)
                        ∧ payload_model p1 = qs "gpt-3.5-turbo") as H1.
  { apply (f_equal snd) in Hrw. cbn [snd] in Hrw. rewrite <- Hrw.
    vm_compute. eexists _, _, _. split; reflexivity. }
  assert (∃ url2 a2 p2, trace w' !! 13%nat = Some (post url2 a2 p2)) as H2.
  { apply (f_equal snd) in Hrw. cbn [snd] in Hrw. rewrite <- Hrw.
    vm_compute. eexists _, _, _. reflexivity. }
  assert (sleeps_in (take 13 (trace w')) = 10%nat) as H3.
  { apply (f_equal snd) in Hrw. cbn [snd] in Hrw. rewrite <- Hrw.
    vm_compute. reflexivity. }
  destruct H1 as (url1 & a1 & p1 & H1 & Hp1).
  destruct H2 as (url2 & a2 & p2 & H2).
  exists url1, a1, p1, url2, a2, p2. split_and!; [done|done|done|done|].
  apply (Hnext (take 13 (trace w')) url2 a2 p2 (drop 14 (trace w')) 3%nat
           (sample_config (qs "gpt-4o"))).
  - change (trace w) with (@nil Event). cbn [app].
    symmetry. by apply take_drop_middle.
  - rewrite H3. lia.
  - reflexivity.
  - intros i Hi. rewrite H3 in Hi. cbn. unfold reload_at.
    destruct (Nat.eqb_spec i 3); [lia|reflexivity].
Defined.

(** C3 at a request whose first attempt times out and whose second is
    answered: the second result is returned, ten sleeps after the first
    attempt. *)
Lemma retry_loop_behaviour_witness :
  let env := sample_env (λ _, false) (λ _, None)
               (second_answers (qs "<tl>ok</tl>")) in
  let w := sample_world (sample_config (qs "gpt-3.5-turbo")) in
  let '(r, w') := @performTranslation asciiFolding 5 env
                    (qs "Hello") (qs "127.0.0.1") w in
  r = qs "ok"
  ∧ attempts w' = [(0%nat, []); (10%nat, qs "ok")]
  ∧ @loop_outcome asciiFolding 0 5 w [] r w'.
Proof.
  cbn zeta.
  generalize (@retry_loop_behaviour asciiFolding 5
                (sample_env (λ _, false) (λ _, None)
                   (second_answers (qs "<tl>ok</tl>")))
                (qs "Hello") (qs "127.0.0.1")
                (sample_world (sample_config (qs "gpt-3.5-turbo")))).
  cbn zeta.
  destruct (performTranslation _ _ _ _ _) as [r w'] eqn:Hrun.
  intros (_ & _ & _ & _ & Hclear & _).
  split_and!; [| |apply Hclear; intros k; reflexivity].
  - vm_compute in Hrun. by injection Hrun as <- _.
  - vm_compute in Hrun. by injection Hrun as _ <-.
Defined.

(** C3 as worded fails when the stop flag is set while the first attempt
    is under way: the flag is clear before the attempt, the attempt returns
    the valid result [ok], the only one of the request, and the request
    returns the empty string. *)
Lemma late_stop_discards_result :
  let env := sample_env (λ k, (k =? 3)%nat) (λ _, None)
               (always_answers (qs "<tl>ok</tl>")) in
  let w := sample_world (sample_config (qs "gpt-3.5-turbo")) in
  let '(r, w') := @performTranslation asciiFolding 5 env
                    (qs "Hello") (qs "127.0.0.1") w in
  stopRequested env (stop_reads w) = false
  ∧ attempts w' = [(0%nat, qs "ok")]
  ∧ @isValidTranslationResult asciiFolding (qs "ok") = true
  ∧ r = [].
Proof. vm_compute. done. Qed.

(** An answer that holds [Translation Failed] in capitals is not a valid
    result: the attempt returns the empty string and the request is tried
    5 times. *)
Lemma capital_needle_rejected :
  let env := sample_env (λ _, false) (λ _, None)
               (always_answers (qs "<tl>Translation Failed</tl>")) in
  let w := sample_world (sample_config (qs "gpt-3.5-turbo")) in
  let '(r, w') := @performTranslation asciiFolding 5 env
                    (qs "Hello") (qs "127.0.0.1") w in
  @isValidTranslationResult asciiFolding (qs "Translation Failed") = false
  ∧ @valid_as_worded asciiFolding (qs "Translation Failed") = true
  ∧ r = []
  ∧ attempts w' = [(0%nat, []); (10%nat, []); (20%nat, []); (30%nat, []);
                   (40%nat, [])].
Proof. vm_compute. done. Qed.



(** Four spans: the first is announced, its key standing in the processed
    text in small letters; the second holds a placeholder, the third a term
    code, and the key of the fourth is not in the processed text.  Each
    gives way to its value. *)
Lemma harvestTerms_sample :
  @harvestTerms asciiFolding
    (qs "<tl>Hello, <tm> Li = Lee </tm></tl><tm>[T_0]=x</tm><tm>Bo=ZABZ</tm><tm>Ann=Anna</tm>")
    (qs "li went home") =
  (qs "<tl>Hello, Lee</tl>xZABZAnna", [(qs "Li", qs "Lee")]).
Proof. vm_compute. reflexivity. Qed.

(** The text between the first [<tl>] and the first [</tl>], trimmed and
    without the tags left in it. *)
Lemma extractTranslation_sample :
  @extractTranslation asciiFolding
    (qs "note <tl> Hello <TL>there </tl> tail</tl>") = qs "Hello there".
Proof. vm_compute. reflexivity. Qed.

(* ================================================================= *)
(** * Part III: further properties                                    *)
(* ================================================================= *)

(* ----------------------------------------------------------------- *)
(** ** The key rotator from any cursor                                *)
(* ----------------------------------------------------------------- *)

(** The keys [n] calls return from cursor [c]: the pool read round and
    round. *)
Definition rotation (pool : list (list Z)) (c n : nat) : list (list Z) :=
  (λ i, default [] (pool !! ((c + i) `mod` length pool)%nat)) <$> seq 0 n.

(** The calls of the key rotator: [updateConfig] and [getNextApiKey]. *)
Inductive KeyOp :=
| KUpdate (config : AppConfig)
| KNext.

Definition runKeyOp (w : World) (op : KeyOp) : World :=
  match op with
  | KUpdate config => (updateConfig config w).2
  | KNext => (getNextApiKey w).2
  end.

(** The cursor can be used as an index into the pool. *)
Definition cursor_in_range (w : World) : Prop :=
  m_apiKeys (server w) = []
  ∨ (m_currentKeyIndex (server w) < length (m_apiKeys (server w)))%nat.

Section KeyRotatorMore.
Implicit Types (w : World) (pool : list (list Z)).

Lemma with_cursor_same w : with_cursor (m_currentKeyIndex (server w)) w = w.
Proof. by destruct w as [[] ? ? ? ? ?]. Qed.

Lemma with_cursor_twice i j w : with_cursor j (with_cursor i w) = with_cursor j w.
Proof. reflexivity. Qed.

Lemma rotation_S pool c n :
  pool ≠ [] →
  rotation pool c (S n) =
    default [] (pool !! (c `mod` length pool)%nat)
    :: rotation pool ((c + 1) `mod` length pool) n.
Proof.
  intros Hne. unfold rotation. cbn [seq fmap list_fmap].
  rewrite Nat.add_0_r. f_equal.
  rewrite <- seq_shift, <- list_fmap_compose.
  apply list_fmap_ext. intros _ i _. cbn. do 2 f_equal.
  rewrite Nat.Div0.add_mod_idemp_l. f_equal. lia.
Qed.

(** X1.  From a cursor inside the pool, [n] calls of [getNextApiKey]
    return the entries at [c], [c + 1], ... taken modulo the size of the
    pool, and leave the cursor at [(c + n)] modulo that size; nothing else
    of the server changes. *)
Theorem getNextApiKey_rotation n : ∀ w,
  (m_currentKeyIndex (server w) < length (m_apiKeys (server w)))%nat →
  let pool := m_apiKeys (server w) in
  let c := m_currentKeyIndex (server w) in
  getNextApiKey_times n w =
    (rotation pool c n, with_cursor ((c + n) `mod` length pool) w)
  ∧ Forall (λ key, key ∈ pool) (rotation pool c n).
Proof.
  induction n as [|n IH]; intros w Hc; cbn zeta.
  - rewrite Nat.add_0_r, Nat.mod_small by done.
    rewrite with_cursor_same. split; [reflexivity|constructor].
  - assert (m_apiKeys (server w) ≠ []) as Hne.
    { intros Hnil. rewrite Hnil in Hc. cbn in Hc. lia. }
    destruct (lookup_lt_is_Some_2 _ _ Hc) as [key Hkey].
    change (getNextApiKey_times (S n) w)
      with (let '(k, w1) := getNextApiKey w in
            let '(ks, w2) := getNextApiKey_times n w1 in (k :: ks, w2)).
    rewrite (getNextApiKey_step w key Hkey).
    set (w1 := with_cursor _ w).
    destruct (IH w1) as [Hrun Hin].
    { cbn. apply Nat.mod_upper_bound. by destruct (m_apiKeys (server w)). }
    cbn zeta in Hrun, Hin. rewrite Hrun.
    rewrite rotation_S by done.
    rewrite (Nat.mod_small (m_currentKeyIndex (server w))) by done.
    rewrite Hkey. cbn [default from_option id].
    subst w1. cbn [with_cursor server set_currentKeyIndex m_apiKeys
                   m_currentKeyIndex] in *.
    split.
    + f_equal. rewrite with_cursor_twice. f_equal.
      rewrite Nat.Div0.add_mod_idemp_l. f_equal. lia.
    + constructor; [by eapply list_elem_of_lookup_2|done].
Qed.

(** X2.  Calls of [updateConfig] and [getNextApiKey], in any number and
    order, keep the cursor inside the pool: once the pool is empty or the
    cursor is one of its positions, as the constructor and every
    [updateConfig] leave them, this stays so, and [getNextApiKey] never
    indexes the pool out of range. *)
Theorem cursor_always_in_range ops : ∀ w,
  cursor_in_range w → cursor_in_range (foldl runKeyOp w ops).
Proof.
  induction ops as [|op ops IH]; intros w Hw; [done|].
  cbn [foldl]. apply IH. destruct op as [config|]; cbn [runKeyOp].
  - unfold cursor_in_range. rewrite updateConfig_server. cbn.
    destruct (parseApiKeys (api_key config)); [by left|right; cbn; lia].
  - destruct Hw as [Hnil|Hc].
    + rewrite getNextApiKey_empty by done. by left.
    + destruct (lookup_lt_is_Some_2 _ _ Hc) as [key Hkey].
      rewrite (getNextApiKey_step w key Hkey). right. cbn.
      apply Nat.mod_upper_bound. intros Hlen. rewrite Hlen in Hc. lia.
Qed.
End KeyRotatorMore.

(* ----------------------------------------------------------------- *)
(** ** The pool and the credential string                             *)
(* ----------------------------------------------------------------- *)

Section Pool.
Implicit Types (s p k : list Z) (w : World).

Lemma dropWhile_sublist (f : Z → bool) s : ∃ pre, s = pre ++ dropWhile f s.
Proof.
  induction s as [|c s [pre IH]]; [by exists []|]. cbn.
  destruct (f c); [|by exists []]. exists (c :: pre). cbn. by f_equal.
Qed.

(** What [trimmed] returns starts and ends with a character that is no
    white space. *)
Lemma trimmed_ends s c :
  (head (trimmed s) = Some c ∨ last (trimmed s) = Some c) → isSpace c = false.
Proof.
  unfold trimmed.
  set (r := dropWhile isSpace (reverse (dropWhile isSpace s))).
  intros [Hh|Hl].
  - (* the head of the result is the last of [r], a part of the first
       [dropWhile] that has a tail *)
    rewrite head_reverse in Hh.
    subst r. set (d := dropWhile isSpace s) in *.
    destruct (dropWhile_sublist isSpace (reverse d)) as [pre Hpre].
    destruct d as [|c0 d'] eqn:Hd.
    { by rewrite reverse_nil in Hh. }
    assert (last (reverse (c0 :: d')) = Some c0) as Hl0.
    { by rewrite last_reverse. }
    rewrite Hpre in Hl0.
    destruct (dropWhile isSpace (reverse (c0 :: d'))) as [|x xs] eqn:Hr; [done|].
    rewrite last_app in Hl0. rewrite Hh in Hl0. injection Hl0 as ->.
    by apply (dropWhile_head_keeps isSpace s c0 d').
  - rewrite last_reverse in Hl. subst r.
    destruct (dropWhile isSpace (reverse (dropWhile isSpace s))) as [|x xs] eqn:Hr;
      [done|].
    injection Hl as ->. by apply (dropWhile_head_keeps _ _ _ _ Hr).
Qed.

Lemma trimmed_nil : trimmed [] = [].
Proof. reflexivity. Qed.

Lemma trimmed_infix s : ∃ pre post, s = pre ++ trimmed s ++ post.
Proof.
  unfold trimmed.
  destruct (dropWhile_sublist isSpace s) as [pre Hpre].
  destruct (dropWhile_sublist isSpace (reverse (dropWhile isSpace s)))
    as [post Hpost].
  exists pre, (reverse post). rewrite <- reverse_app, <- Hpost.
  by rewrite reverse_involutive.
Qed.

Lemma dropWhile_stops (f : Z → bool) c s : f c = false → dropWhile f (c :: s) = c :: s.
Proof. intros Hc. cbn. by rewrite Hc. Qed.

Lemma trimmed_idem s : trimmed (trimmed s) = trimmed s.
Proof.
  destruct (trimmed s) as [|c t] eqn:Ht; [done|].
  assert (isSpace c = false) as Hc.
  { apply (trimmed_ends s). left. by rewrite Ht. }
  destruct (last (c :: t)) as [d|] eqn:Hl; [|by apply last_None in Hl].
  assert (isSpace d = false) as Hd.
  { apply (trimmed_ends s). right. by rewrite Ht. }
  unfold trimmed. rewrite dropWhile_stops by done.
  destruct (reverse (c :: t)) as [|x xs] eqn:Hr.
  { apply (f_equal reverse) in Hr. by rewrite reverse_involutive in Hr. }
  assert (x = d) as ->.
  { rewrite <- head_reverse, Hr in Hl. by injection Hl. }
  rewrite dropWhile_stops by done. rewrite <- Hr. apply reverse_involutive.
Qed.

Lemma split_no_sep sep s : Forall (λ p, sep ∉ p) (split sep s).
Proof.
  induction s as [|c s IH]; cbn [split].
  - constructor; [apply not_elem_of_nil|constructor].
  - destruct (Z.eqb_spec c sep) as [->|Hne].
    + constructor; [apply not_elem_of_nil|done].
    + destruct (split sep s) as [|p ps].
      * constructor; [|constructor]. intros Hin.
        apply list_elem_of_singleton in Hin. congruence.
      * inversion IH as [|? ? Hp Hps]; subst. constructor; [|done].
        intros [->|Hin]%elem_of_cons; [done|by apply Hp].
Qed.

Lemma filter_nonempty_trimmed (ps : list (list Z)) :
  List.filter (λ p, negb (isEmpty p))
    (trimmed <$> List.filter (λ p, negb (isEmpty p)) ps) =
  List.filter (λ p, negb (isEmpty p)) (trimmed <$> ps).
Proof.
  induction ps as [|p ps IH]; [done|]. cbn.
  destruct p as [|c p]; cbn [isEmpty negb]; [by rewrite trimmed_nil|].
  cbn [fmap list_fmap List.filter]. by rewrite IH.
Qed.

(** X3.  The pool [updateConfig] builds, seen from the credential string:
    its entries other than the empty string are, in order, the trimmed
    parts of the string that are not blank, which is what splitting,
    trimming and then dropping the empty pieces gives; the whole pool is
    that list when no part between two commas is made of white space only;
    and no entry holds a comma or begins or ends with white space. *)
Theorem updateConfig_pool_entries cfg w :
  let pool := m_apiKeys (server (updateConfig cfg w).2) in
  List.filter (λ p, negb (isEmpty p)) pool = pool_of_spec (api_key cfg)
  ∧ (Forall (λ p, p = [] ∨ trimmed p ≠ []) (split 44 (api_key cfg)) →
     pool = pool_of_spec (api_key cfg))
  ∧ Forall (λ key, (44 ∉ key) ∧ trimmed key = key) pool.
Proof.
  cbn zeta. rewrite updateConfig_server. cbn [set_config m_apiKeys].
  unfold parseApiKeys, pool_of_spec, split_SkipEmptyParts. split_and!.
  - apply filter_nonempty_trimmed.
  - induction (split 44 (api_key cfg)) as [|p ps IH]; [done|].
    intros Hall. inversion Hall as [|? ? Hp Hps]; subst. cbn.
    destruct p as [|c p]; cbn [isEmpty negb].
    + rewrite trimmed_nil. cbn. by apply IH.
    + cbn [fmap list_fmap]. destruct Hp as [?|Hp]; [done|].
      destruct (trimmed (c :: p)) as [|d t] eqn:Ht; [done|].
      cbn [isEmpty negb]. f_equal. by apply IH.
  - apply Forall_fmap, Forall_forall. intros p Hp. cbn.
    apply list_elem_of_In, List.filter_In in Hp as [Hp _].
    apply list_elem_of_In in Hp.
    pose proof (split_no_sep 44 (api_key cfg)) as Hsep.
    rewrite Forall_forall in Hsep. specialize (Hsep p Hp).
    split; [|apply trimmed_idem].
    destruct (trimmed_infix p) as (pre & post & Hpp). intros Hin.
    apply Hsep. rewrite Hpp. set_solver.
Qed.
End Pool.

(* ----------------------------------------------------------------- *)
(** ** What one attempt does                                          *)
(* ----------------------------------------------------------------- *)

(** [m] leaves the server, the count of requests and the count of sleeps
    as they are. *)
Definition quiet {A : Type} (m : M A) : Prop :=
  ∀ w, server (m w).2 = server w ∧ posts (m w).2 = posts w
       ∧ sleeps (m w).2 = sleeps w.

Section AttemptParts.
Context `{CaseFolding}.
Variable Context_max_len_init : Z.
Variable env : Env.
Implicit Types (w : World) (cfg : AppConfig) (text clientIP : list Z).

(** The text an attempt sends for [text]: frozen, then passed through the
    regex provider when the glossary is enabled. *)
Definition processed_of cfg text : list Z :=
  let processedText := (freezeEscapesLocal text).1 in
  if enable_glossary cfg then processPre env processedText else processedText.

(** Whether the attempt asks for terms. *)
Definition extraction_of cfg text : bool :=
  enable_glossary cfg && (Z.of_nat (length text) >? 5).

(** The system prompt of the attempt; [seen] is what the glossary provider
    has been told so far. *)
Definition system_prompt_of cfg (seen : list Event) text : list Z :=
  let finalSystemPrompt := system_prompt cfg ++ TRANSLATION_RULES in
  let glossaryContext :=
    if enable_glossary cfg
    then getContextPrompt env seen (processed_of cfg text) else [] in
  let finalSystemPrompt :=
    if enable_glossary cfg && negb (isEmpty glossaryContext)
    then finalSystemPrompt ++ [10] ++ glossaryContext else finalSystemPrompt in
  if extraction_of cfg text then finalSystemPrompt ++ TERM_EXTRACTION_RULES
  else finalSystemPrompt.

(** The request body of the attempt, [past] being the turns of the client
    that are sent along. *)
Definition payload_of cfg (seen : list Event) (past : list (list Z * list Z))
    text : Payload :=
  {| payload_model := model_name cfg;
     payload_messages :=
       (system, system_prompt_of cfg seen text)
       :: flat_map (λ turn, [(user, turn.1); (assistant, turn.2)]) past
       ++ [(user, pre_prompt cfg ++ processed_of cfg text)];
     payload_temperature := temperature cfg |}.

(** The world in which the attempt waits for its reply: the stop flag has
    been read once, the cursor has moved on, the history of the client has
    been read and the request numbered [posts w] has been sent. *)
Definition after_request text clientIP (key : list Z) w : World :=
  let cfg := m_config (server w) in
  let sv := server w in
  let clientId := generateClientId env clientIP in
  let read := contextRead Context_max_len_init clientId (context_num cfg)
                (m_contexts sv) in
  {| server :=
       set_contexts read.2
         (set_currentKeyIndex
            ((m_currentKeyIndex sv + 1) `mod` length (m_apiKeys sv))%nat sv);
     stop_reads := S (stop_reads w);
     sleeps := sleeps w;
     posts := S (posts w);
     attempts := attempts w;
     trace := trace w
              ++ [post (api_address cfg ++ qs "/chat/completions")
                       (qs "Bearer " ++ key)
                       (payload_of cfg (trace w) read.1 text)] |}.

(** An attempt that is not stopped on entry and finds a key that is not
    empty sends its request and waits for the reply. *)
Lemma attempt_request text clientIP w key :
  stopRequested env (stop_reads w) = false →
  m_apiKeys (server w) !! m_currentKeyIndex (server w) = Some key →
  key ≠ [] →
  let cfg := m_config (server w) in
  let clientId := generateClientId env clientIP in
  let read := contextRead Context_max_len_init clientId (context_num cfg)
                (m_contexts (server w)) in
  performSingleTranslationAttempt Context_max_len_init env text clientIP w =
    awaitReply Context_max_len_init env cfg (extraction_of cfg text)
      (processed_of cfg text) (pre_prompt cfg ++ processed_of cfg text)
      clientId (freezeEscapesLocal text).2 (posts w)
      (payload_of cfg (trace w) read.1 text)
      (after_request text clientIP key w).
Proof.
  intros Hstop Hkey Hne. cbn zeta.
  unfold performSingleTranslationAttempt, bind at 1, readStop at 1.
  rewrite Hstop. unfold bind at 1, getConfig at 1. cbn [server].
  unfold attemptWithSnapshot, bind at 1.
  rewrite (getNextApiKey_step _ key) by exact Hkey.
  destruct key as [|k0 key']; [done|]. cbn [isEmpty].
  unfold after_request, payload_of, system_prompt_of, extraction_of, processed_of.
  destruct (freezeEscapesLocal text) as [processedText escapeCtx].
  unfold bind, getTrace, withContexts, getServer, putServer, sendRequest, ret.
  unfold contextRead. cbn [fst snd server trace with_cursor posts stop_reads
                           sleeps attempts m_contexts set_currentKeyIndex
                           m_config m_apiKeys m_currentKeyIndex set_contexts].
  reflexivity.
Qed.

(** [m] changes nothing of the server, the requests and the sleeps but
    this: when it returns a text that is not empty, the text is a valid
    result and the pair of [user] and that text has been appended to the
    history of [clientId]. *)
Definition records (clientId user : list Z) (m : M (list Z)) : Prop :=
  ∀ w, let '(r, w') := m w in
    posts w' = posts w ∧ sleeps w' = sleeps w
    ∧ server w' =
        (if isEmpty r then server w
         else set_contexts
                (contextAppend Context_max_len_init clientId (user, r)
                   (m_contexts (server w)))
                (server w))
    ∧ (r = [] ∨ isValidTranslationResult r = true).

Lemma quiet_ret {A} (a : A) : quiet (ret a).
Proof. done. Qed.

Lemma quiet_bind {A B} (m : M A) (f : A → M B) :
  quiet m → (∀ a, quiet (f a)) → quiet (bind m f).
Proof.
  intros Hm Hf w. unfold bind. specialize (Hm w).
  destruct (m w) as [a w1]. specialize (Hf a w1). cbn in *.
  destruct Hm as (<- & <- & <-). done.
Qed.

Lemma quiet_emit e : quiet (emit e).
Proof. done. Qed.

Lemma quiet_readStop : quiet (readStop env).
Proof. done. Qed.

Lemma quiet_poll_stop n : quiet (poll_stop env n).
Proof.
  induction n as [|n IH]; [done|]. cbn [poll_stop].
  apply quiet_bind; [apply quiet_readStop|]. by intros [|].
Qed.

Lemma quiet_announceTerms lang terms : quiet (announceTerms lang terms).
Proof.
  induction terms as [|[k v] terms IH]; [done|]. cbn [announceTerms].
  apply quiet_bind; [apply quiet_emit|]. intros _.
  apply quiet_bind; [apply quiet_emit|]. by intros _.
Qed.

Lemma records_nil clientId user : records clientId user (ret []).
Proof. intros w. cbn. split_and!; [done|done|done|by left]. Qed.

Lemma records_bind {A} clientId user (m : M A) (f : A → M (list Z)) :
  quiet m → (∀ a, records clientId user (f a)) →
  records clientId user (bind m f).
Proof.
  intros Hm Hf w. unfold bind. specialize (Hm w).
  destruct (m w) as [a w1]. specialize (Hf a w1). cbn in Hm.
  destruct Hm as (Hs & Hp & Hsl).
  destruct (f a w1) as [r w']. by rewrite Hs, Hp, Hsl in Hf.
Qed.

Lemma records_failure {A} clientId user (m : M A) :
  quiet m → records clientId user (bind m (λ _, ret [])).
Proof. intros Hm. apply records_bind; [done|]. intros _. apply records_nil. Qed.

Lemma valid_not_empty r : isValidTranslationResult r = true → isEmpty r = false.
Proof. by destruct r. Qed.

Lemma handleContent_records cfg performExtraction processedText
    currentUserContent clientId escapeCtx rawContent :
  records clientId currentUserContent
    (handleContent Context_max_len_init env cfg performExtraction
       processedText currentUserContent clientId escapeCtx rawContent).
Proof.
  unfold handleContent. apply records_bind.
  { destruct performExtraction; [|apply quiet_ret].
    destruct (harvestTerms _ _) as [rebuilt_ terms].
    apply quiet_bind; [apply quiet_announceTerms|]. intros _. apply quiet_ret. }
  intros cleanContent. apply records_bind; [apply quiet_emit|]. intros _.
  match goal with
  | |- context [isValidTranslationResult ?x] => set (r := x)
  end.
  destruct (isValidTranslationResult r) eqn:Hvalid; [|apply records_nil].
  intros w. unfold withContexts, getServer, putServer, ret, bind.
  cbn [fst snd server posts sleeps]. rewrite (valid_not_empty _ Hvalid).
  split_and!; [done|done|done|by right].
Qed.

Lemma awaitReply_records cfg performExtraction processedText
    currentUserContent clientId escapeCtx k payload :
  records clientId currentUserContent
    (awaitReply Context_max_len_init env cfg performExtraction
       processedText currentUserContent clientId escapeCtx k payload).
Proof.
  unfold awaitReply.
  apply records_bind; [apply quiet_poll_stop|]. intros aborted.
  apply records_bind; [apply quiet_readStop|]. intros stop.
  destruct stop; [apply records_nil|].
  destruct (if aborted then _ else _) as [|e|[|usage choices]];
    try (apply records_failure; apply quiet_emit).
  apply records_bind.
  { destruct usage as [[p c]|]; [|apply quiet_ret].
    destruct ((p >? 0) || (c >? 0)); [apply quiet_emit|apply quiet_ret]. }
  intros _. destruct choices as [| |rawContent];
    try (apply records_failure; apply quiet_emit).
  apply handleContent_records.
Qed.

(** An attempt that finds the stop flag set when it starts returns the
    empty string and has done nothing but read the flag. *)
Lemma attempt_stopped text clientIP w :
  stopRequested env (stop_reads w) = true →
  performSingleTranslationAttempt Context_max_len_init env text clientIP w =
    ([], after_read w).
Proof.
  intros Hstop. unfold performSingleTranslationAttempt, bind, readStop.
  by rewrite Hstop.
Qed.

(** An attempt that is not stopped but gets no key, the pool being empty
    or its entry under the cursor being the empty string, returns the empty
    string: it logs the invalid-key line in the language of the
    configuration, sends no request and leaves every history as it is; the
    cursor has moved on all the same when the pool is not empty. *)
Lemma attempt_without_key text clientIP w :
  stopRequested env (stop_reads w) = false →
  (getNextApiKey w).1 = [] →
  let '(r, w') :=
    performSingleTranslationAttempt Context_max_len_init env text clientIP w in
  r = []
  ∧ posts w' = posts w
  ∧ trace w' = trace w ++ [logMessage (SV_ERR_KEY (language (m_config (server w))))]
  ∧ server w' = server (getNextApiKey w).2
  ∧ m_contexts (server w') = m_contexts (server w)
  ∧ m_apiKeys (server w') = m_apiKeys (server w).
Proof.
  intros Hstop Hkey.
  unfold performSingleTranslationAttempt, bind at 1, readStop at 1.
  rewrite Hstop. unfold bind at 1, getConfig at 1. cbn [server].
  unfold attemptWithSnapshot, bind at 1.
  revert Hkey. unfold getNextApiKey, bind, getServer, putServer, ret, emit.
  cbn [server].
  case_bool_decide as Hpool; cbn [fst snd]; intros Hkey; rewrite ?Hkey;
    cbn [isEmpty fst snd server posts trace m_contexts m_apiKeys
         set_currentKeyIndex]; done.
Qed.

(** An attempt that is not stopped and finds a key sends one request. *)
Lemma attempt_with_key_posts text clientIP w key :
  stopRequested env (stop_reads w) = false →
  m_apiKeys (server w) !! m_currentKeyIndex (server w) = Some key →
  key ≠ [] →
  posts (performSingleTranslationAttempt Context_max_len_init env
           text clientIP w).2 = S (posts w).
Proof.
  intros Hstop Hkey Hne.
  rewrite (attempt_request text clientIP w key Hstop Hkey Hne). cbn zeta.
  match goal with
  | |- context [awaitReply _ _ ?cfg ?pe ?pt ?cu ?ci ?ec ?k ?pl ?w3] =>
      pose proof (awaitReply_records cfg pe pt cu ci ec k pl w3) as Hrec;
      destruct (awaitReply Context_max_len_init env cfg pe pt cu ci ec k pl w3)
        as [r w']
  end.
  cbn [snd]. by destruct Hrec as (-> & _).
Qed.

(** X5.  An attempt that is not stopped and finds a key sends one request,
    to the address of the configuration and under that key.  The cursor of
    the pool moves on, the configuration and the pool stay, the history of
    the client is read with the cap of the configuration, and the result is
    the empty string or a valid result; only a valid result is recorded:
    the pair of what was sent for the user and the result is then appended
    to the history of the client, and nothing is appended otherwise. *)
Theorem attempt_records_valid_result text clientIP w key :
  stopRequested env (stop_reads w) = false →
  m_apiKeys (server w) !! m_currentKeyIndex (server w) = Some key →
  key ≠ [] →
  let cfg := m_config (server w) in
  let clientId := generateClientId env clientIP in
  let read := contextRead Context_max_len_init clientId (context_num cfg)
                (m_contexts (server w)) in
  let '(r, w') :=
    performSingleTranslationAttempt Context_max_len_init env text clientIP w in
  posts w' = S (posts w)
  ∧ (∃ evs, trace w' =
       trace w
       ++ post (api_address cfg ++ qs "/chat/completions") (qs "Bearer " ++ key)
               (payload_of cfg (trace w) read.1 text) :: evs)
  ∧ m_config (server w') = cfg
  ∧ m_apiKeys (server w') = m_apiKeys (server w)
  ∧ m_currentKeyIndex (server w') =
      ((m_currentKeyIndex (server w) + 1) `mod` length (m_apiKeys (server w)))%nat
  ∧ (r = [] ∨ isValidTranslationResult r = true)
  ∧ m_contexts (server w') =
      (if isEmpty r then read.2
       else contextAppend Context_max_len_init clientId
              (pre_prompt cfg ++ processed_of cfg text, r) read.2).
Proof.
  intros Hstop Hkey Hne. cbn zeta.
  rewrite (attempt_request text clientIP w key Hstop Hkey Hne). cbn zeta.
  match goal with
  | |- context [awaitReply _ _ ?cfg ?pe ?pt ?cu ?ci ?ec ?k ?pl ?w3] =>
      pose proof (awaitReply_records cfg pe pt cu ci ec k pl w3) as Hrec;
      pose proof (keeps_awaitReply Context_max_len_init env [] cfg pe pt cu ci
                    ec k pl w3) as (_ & _ & evs & Htrace & _);
      destruct (awaitReply Context_max_len_init env cfg pe pt cu ci ec k pl w3)
        as [r w']
  end.
  destruct Hrec as (Hposts & _ & Hserver & Hvalid).
  cbn [snd] in Htrace.
  cbn [after_request posts server trace] in Hposts, Hserver, Htrace.
  split_and!.
  - done.
  - exists evs. rewrite Htrace. by rewrite <- app_assoc.
  - rewrite Hserver. by destruct (isEmpty r).
  - rewrite Hserver. by destruct (isEmpty r).
  - rewrite Hserver. by destruct (isEmpty r).
  - done.
  - rewrite Hserver. by destruct (isEmpty r).
Qed.
End AttemptParts.

(* ----------------------------------------------------------------- *)
(** ** Requests and sleeps of one translation                         *)
(* ----------------------------------------------------------------- *)

Section Meter.
Context `{CaseFolding}.
Variable Context_max_len_init : Z.
Variable env : Env.
Variables text clientIP : list Z.
Implicit Types (w : World) (retryCount : Z).

Lemma getNextApiKey_found w key :
  (getNextApiKey w).1 = key → key ≠ [] →
  m_apiKeys (server w) !! m_currentKeyIndex (server w) = Some key.
Proof.
  unfold getNextApiKey, bind, getServer, putServer, ret. cbn [server].
  case_bool_decide as Hpool; cbn [fst]; [congruence|].
  destruct (m_apiKeys (server w) !! m_currentKeyIndex (server w));
    cbn; congruence.
Qed.

(** An attempt sends one request or none. *)
Lemma attempt_posts w :
  let w' := (performSingleTranslationAttempt Context_max_len_init env
               text clientIP w).2 in
  posts w' = posts w ∨ posts w' = S (posts w).
Proof.
  cbn zeta. destruct (stopRequested env (stop_reads w)) eqn:Hstop.
  { rewrite attempt_stopped by done. by left. }
  destruct ((getNextApiKey w).1) as [|k0 key] eqn:Hkey.
  - pose proof (attempt_without_key Context_max_len_init env text clientIP w
                  Hstop Hkey) as Hno.
    destruct (performSingleTranslationAttempt _ _ _ _ _) as [r w'].
    cbn [snd]. left. by destruct Hno as (_ & -> & _).
  - pose proof (getNextApiKey_found w (k0 :: key) Hkey ltac:(done)) as Hfound.
    right. by apply (attempt_with_key_posts _ _ _ _ _ (k0 :: key)).
Qed.

(** X4.  When an attempt sends its request.  It sends one request if the
    stop flag is clear when it starts and [getNextApiKey] gives it a key
    that is not empty, and none otherwise.  When it sends none it returns
    the empty string and leaves every history as it is: stopped at its
    start it has done nothing but read the flag, no key is taken from the
    pool and nothing is logged; without a key it has logged the invalid-key
    line in the language of the configuration, and the cursor has moved on
    as [getNextApiKey] moves it. *)
Theorem attempt_request_iff w :
  let '(r, w') :=
    performSingleTranslationAttempt Context_max_len_init env text clientIP w in
  (posts w' = S (posts w) ↔
     stopRequested env (stop_reads w) = false ∧ (getNextApiKey w).1 ≠ [])
  ∧ (posts w' = posts w ∨ posts w' = S (posts w))
  ∧ (posts w' = posts w →
     r = [] ∧ m_contexts (server w') = m_contexts (server w))
  ∧ (stopRequested env (stop_reads w) = true → w' = after_read w)
  ∧ (stopRequested env (stop_reads w) = false → (getNextApiKey w).1 = [] →
     trace w' =
       trace w ++ [logMessage (SV_ERR_KEY (language (m_config (server w))))]
     ∧ server w' = server (getNextApiKey w).2).
Proof.
  destruct (stopRequested env (stop_reads w)) eqn:Hstop.
  { rewrite attempt_stopped by done. cbn [after_read posts server].
    split_and!; try done; [|by left].
    split; [lia|by intros [? _]]. }
  destruct ((getNextApiKey w).1) as [|k0 key] eqn:Hkey.
  - pose proof (attempt_without_key Context_max_len_init env text clientIP w
                  Hstop Hkey) as Hno.
    destruct (performSingleTranslationAttempt _ _ _ _ _) as [r w'].
    destruct Hno as (-> & Hp & Ht & Hs & Hc & _).
    split_and!; try done; [|by left].
    split; [lia|by intros [_ ?]].
  - pose proof (getNextApiKey_found w (k0 :: key) Hkey ltac:(done)) as Hfound.
    pose proof (attempt_with_key_posts Context_max_len_init env
                  text clientIP w (k0 :: key) Hstop Hfound ltac:(done)) as Hp.
    destruct (performSingleTranslationAttempt _ _ _ _ _) as [r w'].
    cbn [snd] in Hp.
    split_and!; try done; [by right|lia].
Qed.

Lemma updateConfig_posts cfg w : posts (updateConfig cfg w).2 = posts w.
Proof.
  unfold updateConfig, bind, getServer, putServer, emit, skip, ret.
  by destruct (enable_glossary cfg).
Qed.

Lemma msleep100_posts w : posts (msleep100 env w).2 = posts w.
Proof.
  unfold msleep100. destruct (hotReload env (sleeps w)); [|done].
  by rewrite updateConfig_posts.
Qed.

(** A delay of [n] turns sleeps at most [n] times and sends nothing. *)
Lemma backoff_meter n : ∀ w,
  posts (backoff env n w).2 = posts w
  ∧ (sleeps w ≤ sleeps (backoff env n w).2 ≤ sleeps w + n)%nat.
Proof.
  induction n as [|n IH]; intros w; [cbn; lia|].
  rewrite backoff_turn.
  destruct (stopRequested env (stop_reads w)); [cbn; lia|].
  destruct (IH (msleep100 env (after_read w)).2) as [Hp Hs].
  destruct (msleep100_ghost env (after_read w)) as (Hsl & _).
  cbn zeta in Hsl. cbn [after_read sleeps] in Hsl.
  rewrite Hp, msleep100_posts. cbn [after_read posts]. split; [done|lia].
Qed.

Lemma delay_before_meter langIdx retryCount w :
  let w' := (delay_before env langIdx retryCount w).2 in
  posts w' = posts w
  ∧ (sleeps w ≤ sleeps w' ≤ sleeps w + (if retryCount >? 0 then 10 else 0))%nat.
Proof.
  cbn zeta. unfold delay_before. destruct (retryCount >? 0); [|cbn; lia].
  unfold bind, emit.
  match goal with
  | |- context [backoff env ?n ?w0] => destruct (backoff_meter n w0) as [Hp Hs]
  end.
  rewrite Hp. cbn [posts sleeps] in *.
  change (Z.to_nat (RETRY_DELAY_MS / 100)) with 10%nat in *. done.
Qed.

(** The requests and the sleeps of a run of the loop with [n] attempts
    left. *)
Lemma retry_loop_meter langIdx n : ∀ retryCount resultText w fuel,
  0 ≤ retryCount → retryCount + Z.of_nat n = MAX_RETRY_COUNT →
  let w' := (retry_loop Context_max_len_init env fuel text clientIP langIdx
               retryCount resultText w).2 in
  (posts w ≤ posts w' ≤ posts w + n)%nat
  ∧ (sleeps w ≤ sleeps w'
     ≤ sleeps w + 10 * (if retryCount >? 0 then n else n - 1))%nat.
Proof.
  unfold MAX_RETRY_COUNT.
  induction n as [|n IH]; intros retryCount resultText w fuel Hrc Hn; cbn zeta.
  - rewrite retry_loop_done by (unfold MAX_RETRY_COUNT; lia). cbn. lia.
  - destruct fuel as [|fuel]; [cbn; lia|].
    rewrite retry_loop_turn by (unfold MAX_RETRY_COUNT; lia).
    unfold MAX_RETRY_COUNT.
    destruct (stopRequested env (stop_reads w)); [cbn; lia|].
    destruct (delay_before_meter langIdx retryCount (after_read w)) as [Hdp Hds].
    cbn zeta in Hdp, Hds. cbn [after_read posts sleeps] in Hdp, Hds.
    destruct (delay_before env langIdx retryCount (after_read w))
      as [cancelled w1].
    cbn [snd] in Hdp, Hds.
    assert (sleeps w ≤ sleeps w1
            ≤ sleeps w + 10 * (if retryCount >? 0 then 1 else 0))%nat as Hds'
      by (destruct (retryCount >? 0); lia).
    assert ((if retryCount >? 0 then S n else S n - 1)
            = (if retryCount >? 0 then 1 else 0) + n)%nat as Hcount
      by (destruct (retryCount >? 0); lia).
    rewrite Hcount. clear Hcount Hds.
    destruct cancelled; [cbn; lia|].
    pose proof (attempt_posts w1) as Hap. cbn zeta in Hap.
    destruct (attempt_run Context_max_len_init env text clientIP w1)
      as (_ & Has & _).
    destruct (performSingleTranslationAttempt Context_max_len_init env
                text clientIP w1) as [attemptResult w2].
    cbn [snd] in Hap, Has. cbn zeta.
    destruct (stopRequested env (stop_reads w2)); [cbn; lia|].
    destruct (isValidTranslationResult attemptResult).
    { destruct (retryCount >? 0); cbn; lia. }
    rewrite wrap_int_small by (unfold INT_MAX; lia).
    destruct (retryCount + 1 >=? 5);
      match goal with
      | |- context [retry_loop _ _ fuel _ _ _ _ ?res ?w4] =>
          destruct (IH (retryCount + 1) res w4 fuel ltac:(lia) ltac:(lia))
            as [Hp Hs]
      end;
      cbn zeta in Hp, Hs;
      rewrite (proj2 (Z.gtb_lt _ _)) in Hs by lia;
      cbn [add_trace after_read after_attempt posts sleeps] in Hp, Hs; lia.
Qed.

(** X6.  One call of [performTranslation] sends at most 5 requests and
    sleeps at most 40 times 100 ms, whatever the replies, the stop flag and
    the reloads of the configuration. *)
Theorem performTranslation_meter w :
  let w' := (performTranslation Context_max_len_init env text clientIP w).2 in
  (posts w ≤ posts w' ≤ posts w + 5)%nat
  ∧ (sleeps w ≤ sleeps w' ≤ sleeps w + 40)%nat.
Proof.
  cbn zeta. unfold performTranslation, bind, getConfig.
  destruct (retry_loop_meter (language (m_config (server w))) 5 0 [] w
              (S (Z.to_nat MAX_RETRY_COUNT)) ltac:(lia) ltac:(done)) as [Hp Hs].
  cbn zeta in Hp, Hs. change (0 >? 0) with false in Hs.
  cbn iota in Hs. split; [done|lia].
Qed.
End Meter.

(* ----------------------------------------------------------------- *)
(** ** The context store: one client among others, and the window     *)
(* ----------------------------------------------------------------- *)

(** The operation reads or changes what is kept for [client]. *)
Definition touches (client : list Z) (op : ContextOp) : bool :=
  match op with
  | OpRead clientId _ => bool_decide (clientId = client)
  | OpAppend clientId _ => bool_decide (clientId = client)
  | OpClear => true
  end.

(** The last [k] elements of a list. *)
Definition window {A : Type} (k : nat) (l : list A) : list A :=
  drop (length l - k) l.

(** The reads and appends of a run of attempts, each given by its client
    and the pair it records, all made under the cap [cap]. *)
Definition roundsOps (cap : Z) (rounds : list (list Z * (list Z * list Z)))
    : list ContextOp :=
  flat_map (λ round, attemptOps round.1 cap round.2) rounds.

(** The pairs recorded for [client] in a run of attempts. *)
Definition turns_of (client : list Z)
    (rounds : list (list Z * (list Z * list Z))) : list (list Z * list Z) :=
  snd <$> List.filter (λ round, bool_decide (round.1 = client)) rounds.

Section ContextWindow.
Variable init : Z.
Implicit Types (c : gmap (list Z) Context) (h : list (list Z * list Z))
  (client : list Z).

(** X7.  What is kept for a client changes only through the reads and
    appends made for that client and through [clearAllContexts]: any run
    of operations for other clients leaves its history and its cap as they
    are. *)
Theorem context_isolation ops client c :
  forallb (λ op, negb (touches client op)) ops = true →
  runOps init ops c !! client = c !! client.
Proof.
  revert c. induction ops as [|op ops IH]; intros c; [done|].
  cbn [forallb]. rewrite andb_true_iff, negb_true_iff. intros [Hop Hops].
  change (runOps init (op :: ops) c) with (runOps init ops (applyOp init c op)).
  rewrite IH by done.
  destruct op as [cid cap|cid turn|]; cbn [touches applyOp] in *.
  - apply contextRead_lookup_ne. by apply bool_decide_eq_false in Hop.
  - apply contextAppend_lookup_ne. by apply bool_decide_eq_false in Hop.
  - done.
Qed.

Lemma window_all {A} k (l : list A) : (length l ≤ k)%nat → window k l = l.
Proof. intros Hl. unfold window. by replace (length l - k)%nat with 0%nat by lia. Qed.

Lemma window_snoc {A} k (l : list A) x :
  window k (window k l ++ [x]) = window k (l ++ [x]).
Proof.
  destruct (decide (length l ≤ k)%nat) as [Hle|Hgt].
  { by rewrite (window_all k l). }
  unfold window. rewrite !length_app, !length_drop. cbn [length].
  replace (length l - (length l - k) + 1 - k)%nat with 1%nat by lia.
  destruct k as [|k].
  - rewrite Nat.sub_0_r. rewrite Nat.sub_0_r.
    rewrite drop_all. cbn [app drop].
    rewrite drop_ge; [done|]. rewrite length_app. cbn. lia.
  - rewrite drop_app_le by (rewrite length_drop; lia).
    rewrite drop_drop.
    rewrite drop_app_le by lia. do 2 f_equal. lia.
Qed.

Lemma context_at_insert_ne clientId client ctx c :
  clientId ≠ client →
  context_at init client (<[clientId := ctx]> c) = context_at init client c.
Proof. intros Hne. unfold context_at. by rewrite lookup_insert_ne. Qed.

Lemma roundsOps_snoc cap rounds round c :
  runOps init (roundsOps cap (rounds ++ [round])) c =
    contextAppend init round.1 round.2
      (contextRead init round.1 cap (runOps init (roundsOps cap rounds) c)).2.
Proof.
  unfold roundsOps, runOps. rewrite flat_map_app, foldl_app. cbn.
  reflexivity.
Qed.

(** X8.  From an empty store, as it is when the server starts and after
    [clearAllContexts], and under a cap that is not negative, the history
    of a client is the window of the latest [cap] pairs recorded for it, in
    the order of the attempts, whatever the attempts of other clients in
    between; with cap 0 it stays empty. *)
Theorem history_is_window cap rounds client :
  0 ≤ cap ≤ INT_MAX →
  history (context_at init client (runOps init (roundsOps cap rounds) ∅)) =
    window (Z.to_nat cap) (turns_of client rounds).
Proof.
  intros Hcap. induction rounds as [|[cid turn] rounds IH] using rev_ind.
  - done.
  - rewrite roundsOps_snoc. cbn [fst snd].
    unfold turns_of. rewrite List.filter_app, fmap_app. cbn [List.filter fst].
    fold (turns_of client rounds).
    set (c := runOps init (roundsOps cap rounds) ∅) in *.
    destruct (decide (cid = client)) as [->|Hne].
    + rewrite bool_decide_eq_true_2 by done. cbn [fmap list_fmap snd].
      unfold context_at at 1. rewrite contextAppend_lookup. cbn [default from_option id history].
      unfold context_at at 1 2. rewrite contextRead_lookup.
      cbn [default from_option id history max_len].
      rewrite !trim_front_nonneg by done.
      change (window (Z.to_nat cap)
                (window (Z.to_nat cap) (history (context_at init client c))
                 ++ [turn])
              = window (Z.to_nat cap) (turns_of client rounds ++ [turn])).
      rewrite window_snoc, IH. apply window_snoc.
    + rewrite bool_decide_eq_false_2 by done. cbn [fmap list_fmap].
      rewrite app_nil_r, <- IH.
      unfold contextAppend, contextRead. cbn [snd].
      by rewrite !context_at_insert_ne.
Qed.
End ContextWindow.

(* ----------------------------------------------------------------- *)
(** ** The codec on plain text and around a placeholder               *)
(* ----------------------------------------------------------------- *)

(** A character that cannot stand inside a placeholder after its opening
    bracket: anything but [T], [_], a digit and the closing bracket. *)
Definition breaks_placeholder (x : Z) : bool :=
  negb ((x =? 84) || (x =? 95) || is_digit x || (x =? 93)).

Section ThawAround.
Implicit Types (s t u g a b : list Z) (ctx : EscapeMap) (x c : Z).

Lemma strip_prefix_break lit : ∀ g x X,
  Forall (λ y, y ≠ x) lit →
  strip_prefix lit (g ++ x :: X) = (λ r, r ++ x :: X) <$> strip_prefix lit g.
Proof.
  induction lit as [|y lit IH]; intros g x X Hlit; [done|].
  apply Forall_cons in Hlit as [Hyx Hlit].
  destruct g as [|d g]; cbn.
  - by destruct (Z.eqb_spec y x).
  - destruct (y =? d); [by apply IH|done].
Qed.

Lemma strip_prefix_cons y lit d s :
  strip_prefix (y :: lit) (d :: s) = if y =? d then strip_prefix lit s else None.
Proof. reflexivity. Qed.

Lemma dropWhile_app_break (p : Z → bool) g x X :
  p x = false → dropWhile p (g ++ x :: X) = dropWhile p g ++ x :: X.
Proof.
  intros Hx. induction g as [|d g IH]; cbn; [by rewrite Hx|].
  by destruct (p d).
Qed.

Lemma breaks_placeholder_spec x :
  breaks_placeholder x = true →
  x ≠ 84 ∧ x ≠ 95 ∧ is_digit x = false ∧ x ≠ 93.
Proof.
  unfold breaks_placeholder. rewrite negb_true_iff, !orb_false_iff.
  intros [[[H1 H2] H3] H4].
  apply Z.eqb_neq in H1, H2, H4. done.
Qed.

(** A placeholder is read from the characters before a break, if from
    any. *)
Lemma token_parse_app q x X :
  q ≠ [] → breaks_placeholder x = true →
  token_parse (q ++ x :: X) = (λ '(ds, r), (ds, r ++ x :: X)) <$> token_parse q.
Proof.
  intros Hq (H84 & H95 & Hdig & H93)%breaks_placeholder_spec.
  destruct q as [|d q]; [done|]. unfold token_parse. qs_eval.
  rewrite <- app_comm_cons, !strip_prefix_cons.
  destruct (91 =? d); [|done].
  rewrite (strip_prefix_break [84; 95]) by (repeat constructor; done).
  destruct (strip_prefix [84; 95] q) as [g3|]; [|done]. cbn [fmap option_fmap option_map].
  destruct g3 as [|c g4]; cbn [app]; [by rewrite Hdig|].
  destruct (is_digit c); [|done].
  rewrite dropWhile_app_break by done.
  rewrite (strip_prefix_break [93]) by (repeat constructor; done).
  destruct (strip_prefix [93] (dropWhile is_digit g4)) as [s5|] eqn:H5; [|done].
  cbn. f_equal. f_equal.
  destruct (dropWhile_suffix is_digit g4) as (pre & Hg4 & _).
  rewrite !length_app. cbn [length].
  replace (S (length g4 + S (length X))
           - (length (dropWhile is_digit g4) + S (length X)))%nat
    with (S (length g4) - length (dropWhile is_digit g4))%nat by lia.
  rewrite (app_comm_cons g4), take_app_le; [done|].
  cbn [length]. lia.
Qed.

Lemma is_space_breaks x : is_space x = true → breaks_placeholder x = true.
Proof.
  intros Hx. apply is_space_cases in Hx.
  unfold is_blank in Hx.
  destruct Hx as [Hx| [-> | [-> | ->]]]; [|done..].
  apply orb_prop in Hx as [Hx|Hx]; [apply orb_prop in Hx as [Hx|Hx]|];
    apply Z.eqb_eq in Hx as ->; done.
Qed.

(** [thawEscapesLocal] at a text at whose head the pattern matches. *)
Lemma thaw_here t ds rest ctx :
  thaw_parse t = Some (ds, rest) →
  thawEscapesLocal t ctx =
    default (tokenKeyOf ds) (map ctx !! tokenKeyOf ds)
    ++ thawEscapesLocal rest ctx.
Proof.
  intros Hparse.
  destruct (thaw_parse_suffix _ _ _ Hparse) as (pre & Hpre & _).
  rewrite thaw_unfold.
  rewrite (search_intro THAW_REGEX t 0
             {| capturedStart := 0;
                capturedEnd := 0 + (length t - length rest);
                capturedTexts :=
                  <[0%nat := take (length t - length rest) t]>
                    {[1%nat := ds]} |}).
  - cbn [shift_match capturedStart capturedEnd capturedTexts take app].
    unfold restored, captured. cbn [capturedTexts shift_match].
    rewrite lookup_insert_ne by done. rewrite lookup_singleton_eq.
    cbn [default from_option id].
    assert (drop (0 + (0 + (length t - length rest))) t = rest) as ->.
    { rewrite Hpre at 2. rewrite Hpre at 1. rewrite length_app.
      replace (0 + (0 + (length pre + length rest - length rest)))%nat
        with (length pre) by lia.
      by rewrite drop_app_length. }
    by destruct (map ctx !! tokenKeyOf ds).
  - intros j Hj. lia.
  - rewrite drop_0, match_here_THAW, Hparse. done.
  - lia.
Qed.

(** And at a text at whose head it does not match. *)
Lemma thaw_cons_None c s ctx :
  thaw_parse (c :: s) = None →
  thawEscapesLocal (c :: s) ctx = c :: thawEscapesLocal s ctx.
Proof.
  intros Hparse. rewrite (thaw_unfold (c :: s)), (thaw_unfold s).
  cbn [search]. rewrite match_here_THAW, Hparse, search_shift.
  destruct (search THAW_REGEX 0 s) as [m|]; [|done].
  cbn [fmap option_fmap option_map shift_match capturedStart capturedEnd].
  unfold restored, captured. cbn [capturedTexts shift_match]. done.
Qed.

Lemma thaw_parse_dropWhile t : thaw_parse (dropWhile is_space t) = thaw_parse t.
Proof. unfold thaw_parse. by rewrite dropWhile_idem. Qed.

(** Two continuations that the pattern reads alike, white space before
    them or not, are thawed alike behind any text. *)
Lemma thaw_congr ctx KA KB xA XA xB XB ds rest len : ∀ a,
  (length a ≤ len)%nat →
  KA = xA :: XA → KB = xB :: XB →
  breaks_placeholder xA = true → breaks_placeholder xB = true →
  (∀ ws, forallb is_space ws = true →
     thaw_parse (ws ++ KA) = Some (ds, rest)
     ∧ thaw_parse (ws ++ KB) = Some (ds, rest)) →
  thawEscapesLocal (a ++ KA) ctx = thawEscapesLocal (a ++ KB) ctx.
Proof.
  intros a Hlen HKA HKB HxA HxB Hread. revert a Hlen.
  assert (thawEscapesLocal (dropWhile is_space KA) ctx
          = thawEscapesLocal (dropWhile is_space KB) ctx) as Hdrop.
  { destruct (Hread [] eq_refl) as [HA HB]. cbn [app] in HA, HB.
    rewrite <- thaw_parse_dropWhile in HA, HB.
    by rewrite (thaw_here _ ds rest ctx HA), (thaw_here _ ds rest ctx HB). }
  induction len as [|len IH]; intros a Hlen.
  { destruct a; [|cbn in Hlen; lia]. cbn [app].
    destruct (Hread [] eq_refl) as [HA HB]. cbn [app] in HA, HB.
    by rewrite (thaw_here _ ds rest ctx HA), (thaw_here _ ds rest ctx HB). }
  destruct a as [|c a].
  { apply (IH []). cbn. lia. }
  destruct (decide (dropWhile is_space (c :: a) = [])) as [Hall|Hq].
  { apply dropWhile_nil_all in Hall.
    destruct (Hread (c :: a) Hall) as [HA HB].
    by rewrite (thaw_here _ ds rest ctx HA), (thaw_here _ ds rest ctx HB). }
  set (q := dropWhile is_space (c :: a)) in *.
  assert (thaw_parse ((c :: a) ++ KA)
          = (λ '(ds', r), (ds', dropWhile is_space (r ++ KA))) <$> token_parse q
          ∧ thaw_parse ((c :: a) ++ KB)
          = (λ '(ds', r), (ds', dropWhile is_space (r ++ KB))) <$> token_parse q)
    as [HA HB].
  { unfold thaw_parse. rewrite !dropWhile_app_stop by done. fold q.
    rewrite HKA, HKB, !token_parse_app by done.
    by destruct (token_parse q) as [[ds' r]|]. }
  destruct (token_parse q) as [[ds' r]|] eqn:Hq'.
  - cbn [fmap option_fmap option_map] in HA, HB.
    rewrite (thaw_here _ _ _ ctx HA), (thaw_here _ _ _ ctx HB). f_equal.
    destruct (decide (dropWhile is_space r = [])) as [Hr|Hr].
    + apply dropWhile_nil_all in Hr. by rewrite !dropWhile_app_all.
    + rewrite !dropWhile_app_stop by done. apply IH.
      apply token_parse_suffix in Hq'.
      destruct (dropWhile_suffix is_space (c :: a)) as (pre & Hca & _).
      destruct (dropWhile_suffix is_space r) as (pre' & Hr' & _).
      fold q in Hca.
      apply (f_equal length) in Hq', Hca, Hr'.
      repeat rewrite length_app in Hq'. rewrite length_app in Hca, Hr'.
      change (length (qs "[T_")) with 3%nat in Hq'.
      cbn [length] in *. lia.
  - cbn [fmap option_fmap option_map] in HA, HB. cbn [app] in *.
    rewrite (thaw_cons_None _ _ ctx HA), (thaw_cons_None _ _ ctx HB). f_equal.
    apply IH. cbn in Hlen. lia.
Qed.

(** X9.  When the text begins with a placeholder, white space before it
    or not, [thawEscapesLocal] puts in its place the fragment the map holds
    under its key, or the bare key when the map holds none, drops the white
    space on both sides and goes on behind it. *)
Theorem thaw_at_placeholder ws ds rest ctx :
  forallb is_space ws = true → ds ≠ [] → forallb is_digit ds = true →
  thawEscapesLocal (ws ++ tokenKeyOf ds ++ rest) ctx =
    default (tokenKeyOf ds) (map ctx !! tokenKeyOf ds)
    ++ thawEscapesLocal (dropWhile is_space rest) ctx.
Proof.
  intros Hws Hne Hds. apply thaw_here. by apply thaw_parse_key.
Qed.

(** White space around a placeholder in the middle of a text. *)
Lemma thaw_spaces_around a ws1 ds ws2 b ctx :
  forallb is_space ws1 = true → forallb is_space ws2 = true →
  ds ≠ [] → forallb is_digit ds = true →
  thawEscapesLocal (a ++ ws1 ++ tokenKeyOf ds ++ ws2 ++ b) ctx =
    thawEscapesLocal (a ++ tokenKeyOf ds ++ b) ctx.
Proof.
  intros Hws1 Hws2 Hne Hds.
  assert (∀ ws, forallb is_space ws = true →
            thaw_parse (ws ++ ws1 ++ tokenKeyOf ds ++ ws2 ++ b)
              = Some (ds, dropWhile is_space b)
            ∧ thaw_parse (ws ++ tokenKeyOf ds ++ b)
              = Some (ds, dropWhile is_space b)) as Hread.
  { intros ws Hws. split.
    - rewrite app_assoc, thaw_parse_key; [|by rewrite forallb_app, Hws|done..].
      by rewrite dropWhile_app_all.
    - by rewrite thaw_parse_key. }
  destruct ws1 as [|x ws1'].
  - cbn [app]. rewrite !tokenKeyOf_head in Hread |- *.
    eapply (thaw_congr ctx _ _ 91 _ 91 _ ds (dropWhile is_space b)
              (length a) a); [done|reflexivity|reflexivity|done|done|].
    intros ws Hws. apply (Hread ws Hws).
  - cbn [forallb] in Hws1. apply andb_prop in Hws1 as [Hx Hws1'].
    rewrite (tokenKeyOf_head ds b) in Hread |- *.
    eapply (thaw_congr ctx _ _ x _ 91 _ ds (dropWhile is_space b)
              (length a) a); [done|reflexivity|reflexivity| |done|].
    + by apply is_space_breaks.
    + intros ws Hws. apply (Hread ws Hws).
Qed.

(** X10.  White space right before and right after a placeholder does not
    count: the text thaws to the same whether it is there or not, wherever
    the placeholder stands and whatever the map holds. *)
Theorem thaw_ignores_spaces a ws1 ds ws2 b ctx :
  forallb is_space ws1 = true → forallb is_space ws2 = true →
  ds ≠ [] → forallb is_digit ds = true →
  thawEscapesLocal (a ++ ws1 ++ tokenKeyOf ds ++ ws2 ++ b) ctx =
    thawEscapesLocal (a ++ tokenKeyOf ds ++ b) ctx.
Proof. apply thaw_spaces_around. Qed.
End ThawAround.

Section PlainText.
Implicit Types (s u : list Z) (ctx : EscapeMap) (c : Z).

(** The characters a fragment can begin with: the brace, the angle
    bracket, the backslash, the carriage return, the line feed and the
    tab. *)
Definition opens_fragment (c : Z) : bool :=
  (c =? 123) || (c =? 60) || (c =? 92) || (c =? 13) || (c =? 10) || (c =? 9).

Lemma FREEZE_REGEX_first c u :
  opens_fragment c = false → match_here FREEZE_REGEX 0 (c :: u) = None.
Proof.
  unfold opens_fragment. rewrite !orb_false_iff.
  intros [[[[[H1 H2] H3] H4] H5] H6].
  rewrite Z.eqb_sym in H1, H2, H3, H4, H5, H6.
  unfold match_here, FREEZE_REGEX, RPlus.
  rewrite !exec_alt, !exec_seq, !exec_lit. qs_eval.
  rewrite !strip_prefix_cons, H1, H2, H3, H4, H5, H6. done.
Qed.

Lemma FREEZE_REGEX_none s :
  forallb (λ c, negb (opens_fragment c)) s = true →
  search FREEZE_REGEX 0 s = None.
Proof.
  intros Hs. apply search_None_intro. intros j.
  destruct (drop j s) as [|c u] eqn:Hd; [by vm_compute|].
  apply FREEZE_REGEX_first.
  rewrite forallb_forall in Hs. apply negb_true_iff, Hs, list_elem_of_In.
  apply (list_elem_of_lookup_2 _ j). by rewrite <- (Nat.add_0_r j), <- lookup_drop, Hd.
Qed.

Lemma token_parse_first c u : c ≠ 91 → token_parse (c :: u) = None.
Proof.
  intros Hc. unfold token_parse. qs_eval. rewrite strip_prefix_cons.
  by rewrite (proj2 (Z.eqb_neq 91 c)) by done.
Qed.

(** X11.  Plain text passes the codec as it is.  A text that holds no
    brace, angle bracket, backslash, carriage return, line feed or tab
    holds no fragment: [freezeEscapesLocal] returns it unchanged with an
    empty map and the counter at 0.  A text in which the pattern of the
    placeholders finds nothing, for one a text without an opening square
    bracket, is returned unchanged by [thawEscapesLocal], whatever the map
    holds. *)
Theorem codec_plain_text s ctx :
  (contains_re FREEZE_REGEX s = false →
   freezeEscapesLocal s = (s, {| map := ∅; counter := 0 |}))
  ∧ (forallb (λ c, negb (opens_fragment c)) s = true →
     contains_re FREEZE_REGEX s = false)
  ∧ (contains_re TOKEN_REGEX s = false → thawEscapesLocal s ctx = s)
  ∧ (91 ∉ s → contains_re TOKEN_REGEX s = false).
Proof.
  split_and!.
  - unfold contains_re. intros Hnone.
    destruct (search FREEZE_REGEX 0 s) eqn:Hs; [done|].
    unfold freezeEscapesLocal.
    rewrite globalMatch_unfold, Hs by exact FREEZE_REGEX_min_len. done.
  - intros Hs. unfold contains_re. by rewrite FREEZE_REGEX_none.
  - unfold contains_re. intros Hnone.
    destruct (search TOKEN_REGEX 0 s) eqn:Hs; [done|].
    apply thaw_without_token. intros j. apply match_here_TOKEN.
    by apply (search_None _ _ _ Hs).
  - intros Hs. unfold contains_re. rewrite search_None_intro; [done|].
    intros j. apply match_here_TOKEN.
    destruct (drop j s) as [|c u] eqn:Hd; [done|].
    apply token_parse_first. intros ->. apply Hs.
    apply (list_elem_of_lookup_2 _ j).
    by rewrite <- (Nat.add_0_r j), <- lookup_drop, Hd.
Qed.
End PlainText.

(* ----------------------------------------------------------------- *)
(** ** The reasoning block of a reply                                 *)
(* ----------------------------------------------------------------- *)

(** Where the first [<think>] of [s] that has a [</think>] after it
    begins, and where that [</think>], the first after it, ends. *)
Definition think_span (s : list Z) : option (nat * nat) :=
  match indexOf eq_cs (qs "<think>") s with
  | None => None
  | Some i =>
      match indexOf eq_cs (qs "</think>") (drop (i + 7) s) with
      | None => None
      | Some j => Some (i, (i + 7 + j + 8)%nat)
      end
  end.

Section ThinkStrip.
Implicit Types (s u : list Z) (r : regex).

Lemma remove_re_unfold r s :
  (0 < min_len r)%nat →
  remove_re r s =
    match search r 0 s with
    | None => s
    | Some m => take (capturedStart m) s ++ remove_re r (drop (capturedEnd m) s)
    end.
Proof.
  intros Hmin. unfold remove_re at 1.
  rewrite globalMatch_unfold by done.
  destruct (search r 0 s) as [m|]; [|done].
  cbn [foldl].
  set (step := λ (s0 : list Z) '(out, lastEnd) (m0 : QRegularExpressionMatch),
         (out ++ mid s0 lastEnd (capturedStart m0 - lastEnd), capturedEnd m0)).
  change (foldl _ ?st ?ms) with (foldl (step s) st ms).
  replace (([] : list Z) ++ mid s 0 (capturedStart m - 0), capturedEnd m)
    with (move_thaw (take (capturedStart m) s) (capturedEnd m) ([], 0%nat)).
  2:{ unfold move_thaw, mid. cbn [fst snd app drop].
      by rewrite Nat.sub_0_r, Nat.add_0_r, app_nil_r. }
  rewrite (foldl_shifted step move_thaw).
  2:{ intros s0 pre off [buf l] m0. unfold step, move_thaw.
      cbn [fst snd shift_match capturedStart capturedEnd].
      rewrite mid_shift.
      replace (off + capturedStart m0 - (off + l))%nat
        with (capturedStart m0 - l)%nat by lia.
      by rewrite app_assoc. }
  unfold remove_re. fold (step (drop (capturedEnd m) s)).
  destruct (foldl _ _ _) as [buf l]. unfold move_thaw, mid_end. cbn.
  rewrite <- !app_assoc. by rewrite drop_drop.
Qed.

Lemma THINK_REGEX_min_len : (0 < min_len THINK_REGEX)%nat.
Proof. cbn. lia. Qed.

Lemma exec_THINK_REGEX u :
  exec THINK_REGEX u ∅ (λ s' caps, Some (s', caps)) =
    match strip_prefix (qs "<think>") u with
    | Some u1 =>
        match indexOf eq_cs (qs "</think>") u1 with
        | Some j => Some (drop (j + 8) u1, ∅)
        | None => None
        end
    | None => None
    end.
Proof.
  unfold THINK_REGEX. rewrite exec_seq, exec_lit.
  destruct (strip_prefix (qs "<think>") u) as [u1|]; [|done].
  rewrite exec_seq, exec_star_lazy.
  rewrite (star_lazy_find _ _ (qs "</think>")).
  - destruct (indexOf eq_cs (qs "</think>") u1) as [j|] eqn:Hj; [|done].
    apply indexOf_Some in Hj as (Hle & Hat & _).
    apply startsWith_strip in Hat as [r Hr]. rewrite exec_lit, Hr.
    apply strip_prefix_Some in Hr. do 2 f_equal.
    change 8%nat with (length (qs "</think>")).
    rewrite <- drop_drop, Hr. by rewrite drop_app_length.
  - done.
  - intros s'. rewrite exec_lit, startsWith_strip_None.
    by destruct (strip_prefix (qs "</think>") s').
Qed.

Lemma match_here_THINK off u :
  (λ m, (capturedStart m, capturedEnd m)) <$> match_here THINK_REGEX off u =
    match strip_prefix (qs "<think>") u with
    | Some u1 =>
        (λ j, (off, (off + (7 + j + 8))%nat))
          <$> indexOf eq_cs (qs "</think>") u1
    | None => None
    end.
Proof.
  unfold match_here. rewrite exec_THINK_REGEX.
  destruct (strip_prefix (qs "<think>") u) as [u1|] eqn:Hu; [|done].
  destruct (indexOf eq_cs (qs "</think>") u1) as [j|] eqn:Hj; [|done].
  cbn. do 3 f_equal.
  apply strip_prefix_Some in Hu as ->.
  apply indexOf_Some in Hj as (Hle & Hat & _).
  apply startsWith_length in Hat. rewrite length_drop in Hat.
  rewrite length_app, length_drop.
  change (length (qs "<think>")) with 7%nat.
  change (length (qs "</think>")) with 8%nat in Hat. lia.
Qed.

(** The pattern [<think>.*?</think>] finds the first [<think>] of the text
    that is closed and ends at the first [</think>] after it; it finds
    nothing when no [<think>] is closed. *)
Lemma search_THINK_REGEX s :
  (λ m, (capturedStart m, capturedEnd m)) <$> search THINK_REGEX 0 s =
    think_span s.
Proof.
  unfold think_span.
  destruct (indexOf eq_cs (qs "<think>") s) as [i|] eqn:Hi.
  - apply indexOf_Some in Hi as (Hle & Hat & Hbefore).
    apply startsWith_strip in Hat as [u1 Hu1].
    assert (u1 = drop (i + 7) s) as ->.
    { apply strip_prefix_Some in Hu1. change 7%nat with (length (qs "<think>")).
      rewrite <- drop_drop, Hu1. by rewrite drop_app_length. }
    set (u1 := drop (i + 7) s) in *.
    pose proof (match_here_THINK 0 (drop i s)) as Hhere.
    rewrite Hu1 in Hhere.
    destruct (indexOf eq_cs (qs "</think>") u1) as [j|] eqn:Hj.
    + destruct (match_here THINK_REGEX 0 (drop i s)) as [m0|] eqn:Hm0; [|done].
      rewrite (search_intro THINK_REGEX s i m0); [| |done|done].
      * cbn in Hhere |- *. injection Hhere as -> ->. do 2 f_equal; lia.
      * intros j' Hj'. pose proof (match_here_THINK 0 (drop j' s)) as Hh.
        rewrite (proj1 (startsWith_strip_None _ _) (Hbefore j' Hj')) in Hh.
        by destruct (match_here THINK_REGEX 0 (drop j' s)).
    + rewrite search_None_intro; [done|].
      intros j'. pose proof (match_here_THINK 0 (drop j' s)) as Hh.
      destruct (strip_prefix (qs "<think>") (drop j' s)) as [u2|] eqn:Hu2.
      * apply strip_prefix_Some in Hu2.
        assert (u2 = drop (j' + 7) s) as ->.
        { change 7%nat with (length (qs "<think>")).
          rewrite <- drop_drop, Hu2. by rewrite drop_app_length. }
        destruct (decide (j' < i)%nat) as [Hlt|Hge].
        { pose proof (Hbefore j' Hlt) as Hb.
          apply startsWith_strip_None in Hb.
          apply strip_prefix_Some in Hu2. congruence. }
        replace (j' + 7)%nat with (i + 7 + (j' - i))%nat in Hh by lia.
        rewrite <- drop_drop in Hh. fold u1 in Hh.
        rewrite (indexOf_None_drop _ _ _ _ Hj) in Hh.
        by destruct (match_here THINK_REGEX 0 (drop j' s)).
      * by destruct (match_here THINK_REGEX 0 (drop j' s)).
  - rewrite search_None_intro; [done|].
    intros j'. pose proof (match_here_THINK 0 (drop j' s)) as Hh.
    pose proof (indexOf_None _ _ _ Hi j') as Hb.
    apply startsWith_strip_None in Hb. rewrite Hb in Hh.
    by destruct (match_here THINK_REGEX 0 (drop j' s)).
Qed.

(** X12.  Taking the reasoning blocks out of a reply: the text from the
    first [<think>] to the first [</think>] after it is removed, and the
    same is done with what follows; a reply without [<think>], or whose
    first [<think>] is never closed, is left as it is. *)
Theorem remove_think_blocks s :
  remove_re THINK_REGEX s =
    match think_span s with
    | None => s
    | Some (i, e) => take i s ++ remove_re THINK_REGEX (drop e s)
    end.
Proof.
  rewrite remove_re_unfold by exact THINK_REGEX_min_len.
  rewrite <- search_THINK_REGEX.
  by destruct (search THINK_REGEX 0 s) as [m|].
Qed.
End ThinkStrip.

(* ----------------------------------------------------------------- *)
(** ** A reply that spaces the placeholders differently               *)
(* ----------------------------------------------------------------- *)

(** Two texts that differ only in the white space put right before and
    right after placeholders. *)
Inductive respaced : list Z → list Z → Prop :=
| respaced_refl t : respaced t t
| respaced_sym t t' : respaced t t' → respaced t' t
| respaced_trans t t' t'' : respaced t t' → respaced t' t'' → respaced t t''
| respaced_at a ws1 ds ws2 b :
    forallb is_space ws1 = true → forallb is_space ws2 = true →
    ds ≠ [] → forallb is_digit ds = true →
    respaced (a ++ ws1 ++ tokenKeyOf ds ++ ws2 ++ b) (a ++ tokenKeyOf ds ++ b).

Section Respaced.
Implicit Types (s t : list Z) (ctx : EscapeMap).

Lemma thaw_respaced t t' ctx :
  respaced t t' → thawEscapesLocal t ctx = thawEscapesLocal t' ctx.
Proof.
  induction 1 as [t|t t' _ IH|t t' t'' _ IH1 _ IH2|a ws1 ds ws2 b H1 H2 Hne Hds].
  - done.
  - done.
  - congruence.
  - by apply thaw_spaces_around.
Qed.

(** X13.  The round trip stands a reply that spaces the placeholders in
    its own way.  For an input that thaws back from its frozen text (it
    holds no text of the form of a placeholder and no fragment of it has a
    space, a vertical tab or a form feed right beside it), any text that
    differs from the frozen text only in the white space around
    placeholders thaws back to the input too. *)
Theorem roundtrip_respaced s t :
  Z.of_nat (length s) < INT_MAX →
  contains_re TOKEN_REGEX s = false →
  Forall (λ m, blank_beside s m = false) (globalMatch FREEZE_REGEX s) →
  respaced (freezeEscapesLocal s).1 t →
  thawEscapesLocal t (freezeEscapesLocal s).2 = s.
Proof.
  intros Hlen Htok Hsafe Hre.
  rewrite <- (thaw_respaced _ _ _ Hre).
  destruct (freezeEscapesLocal_frozen s Hlen) as (M & -> & Hget & _).
  cbn [fst snd].
  apply (thaw_frozen (length s) s 0 _); [done|done| | |done].
  - intros n m Hm. rewrite Z.add_0_l. by apply (Hget n m).
  - intros j. apply match_here_TOKEN.
    unfold contains_re in Htok.
    destruct (search TOKEN_REGEX 0 s) eqn:Hs; [done|].
    by apply (search_None _ _ _ Hs).
Qed.
End Respaced.

(* ----------------------------------------------------------------- *)
(** ** What the round trip loses                                      *)
(* ----------------------------------------------------------------- *)

(** A text without the white space at its end. *)
Definition rstrip (g : list Z) : list Z :=
  reverse (dropWhile is_space (reverse g)).

(** The input with the white space beside its fragments taken out: every
    stretch between two fragments loses the white space at its two ends,
    the stretch before the first fragment the white space at its end, the
    stretch behind the last one the white space at its start.  [first]
    tells that no fragment has been met yet. *)
Fixpoint squeezed (s : list Z) (first : bool) (lastEnd : nat)
    (ms : list QRegularExpressionMatch) : list Z :=
  match ms with
  | [] =>
      let gap := mid_end s lastEnd in
      if first then gap else dropWhile is_space gap
  | m :: ms' =>
      let gap := mid s lastEnd (capturedStart m - lastEnd) in
      rstrip (if first then gap else dropWhile is_space gap)
      ++ captured m 0 ++ squeezed s false (capturedEnd m) ms'
  end.

Section RoundTripLoss.
Implicit Types (s t u g : list Z) (ctx : EscapeMap) (c : Z).

Lemma squeezed_shift ms : ∀ s first e l,
  squeezed s first (e + l) (shift_match e <$> ms) =
    squeezed (drop e s) first l ms.
Proof.
  induction ms as [|m ms IH]; intros s first e l;
    cbn [fmap list_fmap squeezed].
  - unfold mid_end. by rewrite drop_drop.
  - cbn [shift_match capturedStart capturedEnd].
    rewrite mid_shift, IH.
    replace (e + capturedStart m - (e + l))%nat
      with (capturedStart m - l)%nat by lia.
    done.
Qed.

Lemma squeezed_unfold s first :
  squeezed s first 0 (globalMatch FREEZE_REGEX s) =
    match search FREEZE_REGEX 0 s with
    | None => if first then s else dropWhile is_space s
    | Some m =>
        rstrip (if first then take (capturedStart m) s
                else dropWhile is_space (take (capturedStart m) s))
        ++ captured m 0
        ++ squeezed (drop (capturedEnd m) s) false 0
             (globalMatch FREEZE_REGEX (drop (capturedEnd m) s))
    end.
Proof.
  rewrite globalMatch_unfold by exact FREEZE_REGEX_min_len.
  destruct (search FREEZE_REGEX 0 s) as [m|]; [|done].
  cbn [squeezed].
  rewrite <- (Nat.add_0_r (capturedEnd m)) at 1.
  rewrite squeezed_shift. unfold mid. by rewrite Nat.sub_0_r.
Qed.

Lemma rstrip_split g :
  ∃ tws, g = rstrip g ++ tws ∧ forallb is_space tws = true
         ∧ ∀ c, last (rstrip g) = Some c → is_space c = false.
Proof.
  unfold rstrip.
  destruct (dropWhile_suffix is_space (reverse g)) as (pre & Hg & Hpre).
  exists (reverse pre). split_and!.
  - rewrite <- reverse_app, <- Hg. by rewrite reverse_involutive.
  - rewrite forallb_forall in Hpre |- *. intros x Hx. apply Hpre.
    by apply list_elem_of_In, elem_of_reverse, list_elem_of_In.
  - intros c. rewrite last_reverse.
    destruct (dropWhile is_space (reverse g)) as [|x xs] eqn:Hd; [done|].
    intros [= ->]. by apply (dropWhile_head_keeps _ _ _ _ Hd).
Qed.

(** A placeholder that is read is read as well when more text follows. *)
Lemma token_parse_extend q ds r Z0 :
  token_parse q = Some (ds, r) → token_parse (q ++ Z0) = Some (ds, r ++ Z0).
Proof.
  intros (-> & Hne & Hds)%token_parse_spec.
  rewrite <- app_assoc. by apply token_parse_key.
Qed.

Lemma no_token_prefix g Z0 :
  (∀ j, token_parse (drop j (g ++ Z0)) = None) →
  ∀ j, token_parse (drop j g) = None.
Proof.
  intros Htok j. destruct (token_parse (drop j g)) as [[ds r]|] eqn:Hq; [|done].
  destruct (decide (j ≤ length g)%nat) as [Hle|Hgt].
  - apply (token_parse_extend _ _ _ Z0) in Hq.
    rewrite <- drop_app_le in Hq by done. by rewrite Htok in Hq.
  - rewrite drop_ge in Hq by lia. done.
Qed.

Lemma no_token_drop g k :
  (∀ j, token_parse (drop j g) = None) →
  ∀ j, token_parse (drop j (drop k g)) = None.
Proof. intros Htok j. rewrite drop_drop. apply Htok. Qed.

(** No match of the pattern of [thawEscapesLocal] starts in a stretch that
    holds no placeholder and does not end with white space, when a break
    follows it. *)
Lemma gap_clear g x X :
  breaks_placeholder x = true →
  (∀ c, last g = Some c → is_space c = false) →
  (∀ j, token_parse (drop j g) = None) →
  ∀ j, (j < length g)%nat → thaw_parse (drop j g ++ x :: X) = None.
Proof.
  intros Hx Hlast Htok j Hj. unfold thaw_parse.
  destruct (last g) as [c|] eqn:Hl.
  2:{ apply last_None in Hl. subst g. cbn in Hj. lia. }
  assert (last (drop j g) = Some c) as Hlast'.
  { rewrite last_lookup in Hl |- *. rewrite lookup_drop, length_drop.
    rewrite <- Hl. f_equal. lia. }
  pose proof (dropWhile_last is_space _ c Hlast' (Hlast c eq_refl)) as Hne.
  rewrite dropWhile_app_stop by done.
  rewrite token_parse_app by done.
  destruct (dropWhile_is_drop is_space (drop j g)) as [k Hk].
  by rewrite Hk, drop_drop, Htok.
Qed.

(** [thawEscapesLocal] at a stretch without placeholder followed by the
    space and the placeholder [freezeEscapesLocal] writes. *)
Lemma thaw_gap g ds R ctx orig :
  (∀ j, token_parse (drop j g) = None) →
  ds ≠ [] → forallb is_digit ds = true →
  map ctx !! tokenKeyOf ds = Some orig →
  thawEscapesLocal (g ++ qs " " ++ tokenKeyOf ds ++ R) ctx =
    rstrip g ++ orig ++ thawEscapesLocal (dropWhile is_space R) ctx.
Proof.
  intros Htok Hne Hds Hmap.
  destruct (rstrip_split g) as (tws & Hg & Htws & Hlast).
  set (g' := rstrip g) in *.
  assert (g ++ qs " " ++ tokenKeyOf ds ++ R
          = g' ++ (tws ++ qs " ") ++ tokenKeyOf ds ++ R) as Ht.
  { rewrite Hg at 1. by rewrite <- !app_assoc. }
  apply (thaw_token_step _ g' (tws ++ qs " ") ds R ctx orig);
    [exact Ht| |by rewrite forallb_app, Htws|done|done|done].
  intros j Hj. rewrite Ht, drop_app_le by lia.
  assert (∀ j, token_parse (drop j g') = None) as Htok'.
  { apply (no_token_prefix g' tws). by rewrite <- Hg. }
  destruct tws as [|x tws'].
  - cbn [app]. apply gap_clear; done.
  - cbn [forallb] in Htws. apply andb_prop in Htws as [Hx _].
    rewrite <- !app_assoc. cbn [app].
    apply gap_clear; [by apply is_space_breaks|done..].
Qed.

Lemma rstrip_nil_all g : forallb is_space g = true → rstrip g = [].
Proof.
  intros Hg. unfold rstrip.
  rewrite <- (app_nil_r (reverse g)), dropWhile_app_all; [done|].
  rewrite forallb_forall in Hg |- *. intros x Hx. apply Hg.
  by apply list_elem_of_In, elem_of_reverse, list_elem_of_In.
Qed.

Lemma thaw_frozen_any len : ∀ s c ctx,
  (length s ≤ len)%nat → 0 ≤ c →
  (∀ n m, globalMatch FREEZE_REGEX s !! n = Some m →
     map ctx !! tokenKeyOf (number (c + Z.of_nat n)) = Some (captured m 0)) →
  (∀ j, token_parse (drop j s) = None) →
  thawEscapesLocal (frozen c s) ctx
    = squeezed s true 0 (globalMatch FREEZE_REGEX s)
  ∧ thawEscapesLocal (dropWhile is_space (frozen c s)) ctx
    = squeezed s false 0 (globalMatch FREEZE_REGEX s).
Proof.
  induction len as [|len IH]; intros s c ctx Hlen Hc Hmap Htok;
    unfold frozen; rewrite placeholders_unfold, !squeezed_unfold;
    rewrite globalMatch_unfold in Hmap by exact FREEZE_REGEX_min_len;
    destruct (search FREEZE_REGEX 0 s) as [m|] eqn:Hs;
    try (split; apply thaw_without_token; [done|];
         destruct (dropWhile_is_drop is_space s) as [k ->];
         by apply no_token_drop).
  { pose proof (search_progress _ _ _ FREEZE_REGEX_min_len Hs). lia. }
  pose proof (search_progress _ _ _ FREEZE_REGEX_min_len Hs) as Hp.
  pose proof (Hmap 0%nat m eq_refl) as Hm0. rewrite Z.add_0_r in Hm0.
  set (a := capturedStart m) in *. set (e := capturedEnd m) in *.
  destruct (IH (drop e s) (c + 1) ctx) as [_ IH2].
  { rewrite length_drop. lia. }
  { lia. }
  { intros n m' Hm'.
    replace (c + 1 + Z.of_nat n) with (c + Z.of_nat (S n)) by lia.
    rewrite (Hmap (S n) (shift_match e m')); [done|].
    change ((shift_match e <$> globalMatch FREEZE_REGEX (drop e s)) !! n
            = Some (shift_match e m')).
    by apply list_lookup_fmap_Some_2. }
  { intros j. rewrite drop_drop. apply Htok. }
  fold (frozen (c + 1) (drop e s)) in *.
  destruct (number_digits c Hc) as [Hne Hds].
  assert (∀ j, token_parse (drop j (take a s)) = None) as Hgap.
  { apply (no_token_prefix (take a s) (drop a s)). by rewrite take_drop. }
  assert (∀ g, (∀ j, token_parse (drop j g) = None) →
            thawEscapesLocal
              (g ++ qs " " ++ tokenKeyOf (number c) ++ qs " "
               ++ frozen (c + 1) (drop e s)) ctx
            = rstrip g ++ captured m 0
              ++ squeezed (drop e s) false 0
                   (globalMatch FREEZE_REGEX (drop e s))) as Hstep.
  { intros g Hg.
    rewrite (thaw_gap g (number c) _ ctx (captured m 0)) by done.
    change (dropWhile is_space (qs " " ++ ?x)) with (dropWhile is_space x).
    by rewrite IH2. }
  split; [by apply Hstep|].
  destruct (decide (dropWhile is_space (take a s) = [])) as [Hall|Hsome].
  - rewrite Hall. apply dropWhile_nil_all in Hall.
    rewrite dropWhile_app_all by done.
    change (dropWhile is_space (qs " " ++ ?x)) with (dropWhile is_space x).
    rewrite tokenKeyOf_head, (dropWhile_head is_space 91) by done.
    rewrite <- tokenKeyOf_head.
    pose proof (thaw_here _ _ _ ctx
                  (thaw_parse_key [] (number c)
                     (qs " " ++ frozen (c + 1) (drop e s)) eq_refl Hne Hds))
      as Hhead.
    cbn [app] in Hhead. rewrite Hhead, Hm0. cbn [default from_option id rstrip reverse dropWhile app].
    change (dropWhile is_space (qs " " ++ ?x)) with (dropWhile is_space x).
    by rewrite IH2.
  - rewrite dropWhile_app_stop by done. apply Hstep.
    destruct (dropWhile_is_drop is_space (take a s)) as [k ->].
    by apply no_token_drop.
Qed.

(** X14.  What the round trip gives for any input without text of the
    form of a placeholder: the input with the white space right beside its
    fragments taken out, and nothing else changed. *)
Theorem roundtrip_loses_only_spaces s :
  Z.of_nat (length s) < INT_MAX →
  contains_re TOKEN_REGEX s = false →
  let '(rewritten, ctx) := freezeEscapesLocal s in
  thawEscapesLocal rewritten ctx =
    squeezed s true 0 (globalMatch FREEZE_REGEX s).
Proof.
  intros Hlen Htok.
  destruct (freezeEscapesLocal_frozen s Hlen) as (M & -> & Hget & _).
  apply (thaw_frozen_any (length s) s 0 _); [done|done| |].
  - intros n m Hm. rewrite Z.add_0_l. by apply (Hget n m).
  - intros j. apply match_here_TOKEN.
    unfold contains_re in Htok.
    destruct (search TOKEN_REGEX 0 s) eqn:Hs; [done|].
    by apply (search_None _ _ _ Hs).
Qed.
End RoundTripLoss.

(* ----------------------------------------------------------------- *)
(** ** Attempts that do not ask for terms                             *)
(* ----------------------------------------------------------------- *)

(** Whether an event tells the glossary of a term or logs one. *)
Definition is_term_event (e : Event) : bool :=
  match e with
  | addNewTerm _ _ => true
  | logMessage (SV_NEW_TERM _ _ _) => true
  | _ => false
  end.

(** [m] only adds events to the trace, and none of them is about a term. *)
Definition termless {A : Type} (m : M A) : Prop :=
  ∀ w, ∃ evs, trace (m w).2 = trace w ++ evs
              ∧ Forall (λ e, is_term_event e = false) evs.

Section NoExtraction.
Context `{CaseFolding}.
Variable Context_max_len_init : Z.
Variable env : Env.
Implicit Types (w : World) (cfg : AppConfig) (text clientIP : list Z).

Lemma termless_same {A} (m : M A) :
  (∀ w, trace (m w).2 = trace w) → termless m.
Proof. intros Hm w. exists []. by rewrite app_nil_r. Qed.

Lemma termless_bind {A B} (m : M A) (f : A → M B) :
  termless m → (∀ a, termless (f a)) → termless (bind m f).
Proof.
  intros Hm Hf w. unfold bind. destruct (Hm w) as (evs1 & H1 & HP1).
  destruct (m w) as [a w1]. destruct (Hf a w1) as (evs2 & H2 & HP2).
  cbn [snd] in H1. exists (evs1 ++ evs2).
  split; [by rewrite H2, H1, app_assoc|by apply Forall_app].
Qed.

Lemma termless_emit e : is_term_event e = false → termless (emit e).
Proof. intros He w. exists [e]. split; [done|by constructor]. Qed.

Lemma termless_poll_stop n : termless (poll_stop env n).
Proof.
  induction n as [|n IH]; [by apply termless_same|]. cbn [poll_stop].
  apply termless_bind; [by apply termless_same|].
  intros [|]; [by apply termless_same|done].
Qed.

Lemma termless_getNextApiKey : termless getNextApiKey.
Proof.
  apply termless_same. intros w.
  unfold getNextApiKey, bind, getServer, putServer, ret.
  by case_bool_decide.
Qed.

Lemma termless_withContexts {A}
    (f : gmap (list Z) Context → A * gmap (list Z) Context) :
  termless (withContexts f).
Proof.
  apply termless_same. intros w.
  unfold withContexts, bind, getServer, putServer, ret. cbn [server].
  by destruct (f _).
Qed.

Lemma termless_awaitReply cfg processedText currentUserContent clientId
    escapeCtx k payload :
  termless (awaitReply Context_max_len_init env cfg false processedText
              currentUserContent clientId escapeCtx k payload).
Proof.
  unfold awaitReply.
  apply termless_bind; [apply termless_poll_stop|]. intros aborted.
  apply termless_bind; [by apply termless_same|]. intros stop.
  destruct stop; [by apply termless_same|].
  destruct (if aborted then _ else _) as [|e|[|usage choices]];
    try (apply termless_bind; [by apply termless_emit|];
         intros _; by apply termless_same).
  apply termless_bind.
  { destruct usage as [[p c]|]; [|by apply termless_same].
    destruct ((p >? 0) || (c >? 0));
      [by apply termless_emit|by apply termless_same]. }
  intros _. destruct choices as [| |rawContent];
    try (apply termless_bind; [by apply termless_emit|];
         intros _; by apply termless_same).
  unfold handleContent.
  apply termless_bind; [by apply termless_same|]. intros cleanContent.
  apply termless_bind; [by apply termless_emit|]. intros _.
  destruct (isValidTranslationResult _); [|by apply termless_same].
  apply termless_bind; [apply termless_withContexts|]. intros _.
  by apply termless_same.
Qed.

Lemma termless_attemptWithSnapshot cfg text clientIP :
  enable_glossary cfg = false ∨ Z.of_nat (length text) ≤ 5 →
  termless (attemptWithSnapshot Context_max_len_init env cfg text clientIP).
Proof.
  intros Hoff.
  assert (enable_glossary cfg && (Z.of_nat (length text) >? 5) = false) as Hpe.
  { destruct Hoff as [->|Hlen]; [done|].
    apply andb_false_iff. right. lia. }
  unfold attemptWithSnapshot.
  apply termless_bind; [apply termless_getNextApiKey|]. intros apiKey.
  destruct (isEmpty apiKey).
  { apply termless_bind; [by apply termless_emit|].
    intros _; by apply termless_same. }
  destruct (freezeEscapesLocal text) as [processedText escapeCtx].
  apply termless_bind; [by apply termless_same|]. intros seen.
  apply termless_bind; [apply termless_withContexts|]. intros past.
  apply termless_bind.
  { intros w1. eexists [_]. split; [reflexivity|by constructor]. }
  intros k. rewrite Hpe. apply termless_awaitReply.
Qed.

(** X15.  An attempt that does not ask for terms, the glossary being
    disabled or the text being of 5 code units or less, tells the glossary
    of no term and logs none, whatever the reply holds. *)
Theorem attempt_without_extraction text clientIP w :
  enable_glossary (m_config (server w)) = false
  ∨ Z.of_nat (length text) ≤ 5 →
  ∃ evs,
    trace (performSingleTranslationAttempt Context_max_len_init env
             text clientIP w).2 = trace w ++ evs
    ∧ Forall (λ e, is_term_event e = false) evs.
Proof.
  intros Hoff.
  unfold performSingleTranslationAttempt, bind at 1, readStop at 1.
  destruct (stopRequested env (stop_reads w));
    [exists []; by rewrite app_nil_r|].
  unfold bind at 1, getConfig at 1. cbn [server].
  apply (termless_attemptWithSnapshot _ text clientIP Hoff (after_read w)).
Qed.
End NoExtraction.

(* ----------------------------------------------------------------- *)
(** ** The request handler                                            *)
(* ----------------------------------------------------------------- *)

(** What the handler of [GET /] in [runServerLoop] leaves in the response:
    the status when it sets one, the body and the content type. *)
Record Response := {
  status : option Z;
  body : list Z;
  content_type : list Z
}.

(** The signals of the handler itself: the line that logs the request,
    [workStarted] and [workFinished]. *)
Inductive HandlerSignal :=
| SV_LOG_REQ (lang : Z) (logText : list Z)
| workStarted
| workFinished (success : bool).

(** [logText.replace("\n", "[LF]")] *)
Definition replace_LF (text : list Z) : list Z :=
  flat_map (λ c, if c =? 10 then qs "[LF]" else [c]) text.

Section Handler.
Context `{CaseFolding}.
Variable Context_max_len_init : Z.
Variable env : Env.
Implicit Types (w : World).

(** The handler of [GET /].  [param] is the parameter [text] of the
    request as [QString::fromStdString] reads it, if the request has one,
    and [remote_addr] the address of the client.  The result is the
    response and the signals of the handler, in the order they are
    emitted: those before [performTranslation] is called and those
    after. *)
Definition handleGet (param : option (list Z)) (remote_addr : list Z)
    : M (Response * (list HandlerSignal * list HandlerSignal)) :=
  match param with
  | None =>
      ret ({| status := None; body := []; content_type := qs "text/plain" |},
           ([], []))
  | Some text_std =>
      let text := trimmed text_std in
      if isEmpty text then
        ret ({| status := None; body := [];
                content_type := qs "text/plain; charset=utf-8" |}, ([], []))
      else
        cfg ← getConfig;
        let langIdx := language cfg in
        let logText := replace_LF text in
        result ← performTranslation Context_max_len_init env text remote_addr;
        stop ← readStop env;
        let finished :=
          if negb stop then workFinished (negb (isEmpty result))
          else workFinished false in
        let res :=
          if isEmpty result then
            {| status := Some 500; body := qs "Translation Failed";
               content_type := qs "text/plain" |}
          else
            {| status := None; body := result;
               content_type := qs "text/plain; charset=utf-8" |} in
        ret (res, ([SV_LOG_REQ langIdx logText; workStarted], [finished]))
  end.

(** [performTranslation] returns the empty string or a valid result. *)
Lemma performTranslation_result text clientIP w :
  let r := (performTranslation Context_max_len_init env text clientIP w).1 in
  r = [] ∨ isValidTranslationResult r = true.
Proof.
  cbn zeta. unfold performTranslation, bind, getConfig.
  pose proof (retry_loop_result Context_max_len_init env text clientIP
                (language (m_config (server w))) 5 0 [] w
                (S (Z.to_nat MAX_RETRY_COUNT)) ltac:(lia) ltac:(done)) as Hres.
  cbn beta in Hres.
  destruct (retry_loop _ _ _ _ _ _ _ _ _) as [r w'].
  destruct Hres as [->|[->|(results & t & _ & Hvalid & _)]];
    [by left|by left|by right].
Qed.

(** X16.  The handler of [GET /].  A request without the parameter, or
    whose text is empty once trimmed, is answered with an empty body and
    nothing else happens: no signal, no key taken, no request sent.  Any
    other request is translated once, after the request is logged without
    line feeds and [workStarted] is emitted; it is answered with status 500
    and the body [Translation Failed] exactly when the translation returned
    the empty string, and otherwise with the result, which is then a valid
    one; [workFinished] is emitted once, with success only if the result is
    not empty and the stop flag is clear. *)
Theorem handleGet_response param remote_addr w :
  let '((res, (before, after)), w') := handleGet param remote_addr w in
  match trimmed <$> param with
  | None | Some [] =>
      body res = [] ∧ status res = None ∧ before = [] ∧ after = [] ∧ w' = w
  | Some text =>
      let '(result, w1) :=
        performTranslation Context_max_len_init env text remote_addr w in
      w' = after_read w1
      ∧ before = [SV_LOG_REQ (language (m_config (server w))) (replace_LF text);
                  workStarted]
      ∧ (10 ∉ replace_LF text)
      ∧ after = [workFinished (negb (stopRequested env (stop_reads w1))
                               && negb (isEmpty result))]
      ∧ (status res = Some 500 ↔ result = [])
      ∧ (result = [] → body res = qs "Translation Failed")
      ∧ (result ≠ [] →
         status res = None ∧ body res = result
         ∧ isValidTranslationResult result = true)
      ∧ isValidTranslationResult (qs "Translation Failed") = false
  end.
Proof.
  unfold handleGet. destruct param as [text_std|]; cbn [fmap option_fmap option_map].
  2:{ unfold ret. done. }
  destruct (trimmed text_std) as [|c text] eqn:Htext; cbn [isEmpty].
  { unfold ret. done. }
  unfold bind at 1, getConfig at 1. unfold bind at 1.
  pose proof (performTranslation_result (c :: text) remote_addr w) as Hvalid.
  cbn zeta in Hvalid.
  destruct (performTranslation _ _ _ _ _) as [result w1]. cbn [fst] in Hvalid.
  unfold bind, readStop, ret. cbn [fst snd].
  split_and!.
  - done.
  - done.
  - unfold replace_LF. intros Hin.
    apply list_elem_of_In in Hin. apply in_flat_map in Hin as (d & _ & Hd).
    destruct (d =? 10) eqn:Hd10.
    + vm_compute in Hd. intuition congruence.
    + destruct Hd as [Hd|[]]. rewrite Hd in Hd10. by vm_compute in Hd10.
  - by destruct (stopRequested env (stop_reads w1)).
  - destruct result; cbn [isEmpty status]; split; done.
  - by intros ->.
  - intros Hne. destruct result as [|d result]; [done|]. cbn [isEmpty].
    split_and!; [done|done|]. by destruct Hvalid.
  - unfold isValidTranslationResult.
    rewrite !andb_false_iff, !negb_false_iff. left. right.
    assert (∀ a b, a = b → eq_ci a b = true) as Hrefl
      by (intros a b ->; apply Z.eqb_refl).
    assert (eq_ci 116 84 = true) as Ht.
    { unfold eq_ci.
      by rewrite (toCaseFolded_upper 84), (toCaseFolded_ascii 116) by lia. }
    assert (eq_ci 102 70 = true) as Hf.
    { unfold eq_ci.
      by rewrite (toCaseFolded_upper 70), (toCaseFolded_ascii 102) by lia. }
    qs_eval. cbn [contains startsWith].
    rewrite Ht, Hf, !Hrefl by done. done.
Qed.
End Handler.

(* ----------------------------------------------------------------- *)
(** ** Sample runs of the further properties                          *)
(* ----------------------------------------------------------------- *)

(** X1 at a pool of three keys, the cursor on the second and four calls. *)
Lemma getNextApiKey_rotation_witness :
  let w := with_cursor 1
             (sample_world (set_api_key (qs "k1,k2,k3") (sample_config (qs "m")))) in
  getNextApiKey_times 4 w =
    ([qs "k2"; qs "k3"; qs "k1"; qs "k2"], with_cursor 2 w).
Proof.
  cbn zeta.
  destruct (getNextApiKey_rotation 4
              (with_cursor 1
                 (sample_world
                    (set_api_key (qs "k1,k2,k3") (sample_config (qs "m"))))))
    as [Hrun _].
  - vm_compute. lia.
  - rewrite Hrun. vm_compute. reflexivity.
Defined.

(** X2 at a run that takes two keys, installs a pool of one key and takes
    two more. *)
Lemma cursor_always_in_range_witness :
  cursor_in_range
    (foldl runKeyOp
       (sample_world (set_api_key (qs "k1,k2,k3") (sample_config (qs "m"))))
       [KNext; KNext; KUpdate (sample_config (qs "m")); KNext; KNext]).
Proof.
  apply cursor_always_in_range. right. vm_compute. lia.
Defined.

(** X7 at a store with a history for [a] and a run of reads and appends
    for [b]. *)
Lemma context_isolation_witness :
  let c := contextAppend 5 (qs "a") (qs "u", qs "r") ∅ in
  runOps 5 [OpRead (qs "b") 2; OpAppend (qs "b") (qs "x", qs "y");
            OpAppend (qs "b") (qs "z", qs "t")] c !! qs "a"
  = c !! qs "a".
Proof.
  apply (context_isolation 5). vm_compute. reflexivity.
Defined.

(** X8 at cap 2 and three attempts of [a] with one of [b] in between. *)
Lemma history_is_window_witness :
  history (context_at 5 (qs "a")
             (runOps 5 (roundsOps 2 [(qs "a", (qs "u1", qs "r1"));
                                     (qs "b", (qs "v", qs "s"));
                                     (qs "a", (qs "u2", qs "r2"));
                                     (qs "a", (qs "u3", qs "r3"))]) ∅))
  = [(qs "u2", qs "r2"); (qs "u3", qs "r3")].
Proof.
  rewrite (history_is_window 5 2) by (vm_compute; split; discriminate).
  vm_compute. reflexivity.
Defined.

(** X5 at a server with the key [k1] and a reply that holds a translation:
    the request carries the key, the result is the translation and the
    history of the client holds the pair. *)
Lemma attempt_records_valid_result_witness :
  let env := sample_env (λ _, false) (λ _, None)
               (always_answers (qs "<tl>Bonjour</tl>")) in
  let w := sample_world (sample_config (qs "m")) in
  let '(r, w') :=
    @performSingleTranslationAttempt asciiFolding 5 env (qs "Hello") (qs "ip") w in
  posts w' = 1%nat
  ∧ r = qs "Bonjour"
  ∧ history (context_at 5 (qs "ip") (m_contexts (server w')))
    = [(qs "Hello", qs "Bonjour")].
Proof.
  cbn zeta.
  pose proof (@attempt_records_valid_result asciiFolding 5
                (sample_env (λ _, false) (λ _, None)
                   (always_answers (qs "<tl>Bonjour</tl>")))
                (qs "Hello") (qs "ip") (sample_world (sample_config (qs "m")))
                (qs "k1") eq_refl eq_refl ltac:(discriminate)) as Hrun.
  cbn zeta in Hrun.
  destruct (performSingleTranslationAttempt _ _ _ _ _) as [r w'] eqn:Hrw.
  destruct Hrun as (Hposts & _ & _ & _ & _ & _ & Hctx).
  assert (r = qs "Bonjour") as ->.
  { apply (f_equal fst) in Hrw. cbn [fst] in Hrw. rewrite <- Hrw.
    vm_compute. reflexivity. }
  split; [exact Hposts|]. split; [reflexivity|].
  rewrite Hctx. vm_compute. reflexivity.
Defined.

(** X15 at a disabled glossary and a reply that announces a term: the
    attempt sends its request and logs its result, and no term is added. *)
Lemma attempt_without_extraction_witness :
  let env := sample_env (λ _, false) (λ _, None)
               (always_answers (qs "<tl>Bonjour</tl><tm>Hello=Bonjour</tm>")) in
  let w := sample_world (sample_config (qs "m")) in
  ∃ evs,
    trace (@performSingleTranslationAttempt asciiFolding 5 env
             (qs "Hello world") (qs "ip") w).2 = trace w ++ evs
    ∧ Forall (λ e, is_term_event e = false) evs.
Proof.
  cbn zeta. apply (@attempt_without_extraction asciiFolding). left. reflexivity.
Defined.

(** X9 at a text that begins with two spaces and the placeholder 0, held
    by the map of [a<br>b]. *)
Lemma thaw_at_placeholder_witness :
  let ctx := (freezeEscapesLocal (qs "a<br>b")).2 in
  thawEscapesLocal (qs "  " ++ tokenKeyOf (qs "0") ++ qs "  b [T_7]") ctx
  = qs "<br>b[T_7]".
Proof.
  cbn zeta.
  rewrite (thaw_at_placeholder (qs "  ") (qs "0") (qs "  b [T_7]")
             (freezeEscapesLocal (qs "a<br>b")).2);
    [vm_compute; reflexivity|vm_compute; reflexivity|discriminate
    |vm_compute; reflexivity].
Defined.

(** X10 at a placeholder in the middle of a text, with a tab before it and
    two spaces behind it. *)
Lemma thaw_ignores_spaces_witness :
  let ctx := (freezeEscapesLocal (qs "a<br>b")).2 in
  thawEscapesLocal (qs "Hi" ++ [9] ++ tokenKeyOf (qs "0") ++ qs "  " ++ qs "you") ctx
  = thawEscapesLocal (qs "Hi" ++ tokenKeyOf (qs "0") ++ qs "you") ctx.
Proof.
  apply thaw_ignores_spaces;
    [vm_compute; reflexivity|vm_compute; reflexivity|discriminate
    |vm_compute; reflexivity].
Defined.

(** X13 at a reply that drops the spaces freezing put around the
    placeholder. *)
Lemma roundtrip_respaced_witness :
  let s := qs "Hello<br>World" in
  (freezeEscapesLocal s).1 = qs "Hello [T_0] World"
  ∧ thawEscapesLocal (qs "Hello[T_0]World") (freezeEscapesLocal s).2 = s.
Proof.
  cbn zeta. split; [vm_compute; reflexivity|].
  apply roundtrip_respaced.
  - vm_compute. reflexivity.
  - vm_compute. reflexivity.
  - vm_compute. repeat constructor.
  - change (freezeEscapesLocal (qs "Hello<br>World")).1
      with (qs "Hello" ++ qs " " ++ tokenKeyOf (qs "0") ++ qs " " ++ qs "World").
    change (qs "Hello[T_0]World")
      with (qs "Hello" ++ tokenKeyOf (qs "0") ++ qs "World").
    apply respaced_at; [reflexivity|reflexivity|discriminate|reflexivity].
Defined.

(** X14 at an input with spaces beside its tag. *)
Lemma roundtrip_loses_only_spaces_witness :
  let s := qs "Hello <br> World" in
  let '(rewritten, ctx) := freezeEscapesLocal s in
  thawEscapesLocal rewritten ctx = squeezed s true 0 (globalMatch FREEZE_REGEX s).
Proof.
  apply (roundtrip_loses_only_spaces (qs "Hello <br> World")).
  - vm_compute. reflexivity.
  - vm_compute. reflexivity.
Defined.

(** What that input comes back as. *)
Lemma squeezed_sample :
  let s := qs "Hello <br> World  {{n}}  !" in
  squeezed s true 0 (globalMatch FREEZE_REGEX s) = qs "Hello<br>World{{n}}!"
  ∧ squeezed (qs " a b ") true 0 (globalMatch FREEZE_REGEX (qs " a b "))
    = qs " a b ".
Proof. vm_compute. done. Qed.
